(** * Slate: selection repair, mark resolution and position iteration

    A shallow embedding of two parts of the repository:

    - [Queries]: the editor queries of
      [packages/slate/src/classes/queries/value.ts]
      ([getActiveMarks], [positions]);
    - [Legacy]: the [Value] record class with its selection-repairing
      operations ([mapRanges], [mergeNode], [splitNode], [removeNode],
      [removeText], ...), [fromJSON] and the map of annotations.

    JavaScript arrays are objects with identity: the marks of a text node
    live in a store and are referred to by location, so that aliasing and
    in-place updates ([push], [splice]) are visible; an array may be
    frozen, and an update of it in place is then a [TypeError]. *)

From Stdlib Require Import ZArith String List Bool Lia.
From stdpp Require Import base option list strings.

Set Warnings "-register-all".

Open Scope Z_scope.
Open Scope list_scope.

(** ** Paths *)

Module Path.

Definition t := list nat.

Definition eqb (p q : t) : bool := bool_decide (p = q).

(** Modelled from the spec: the path algebra is not part of the sources;
    [p] is an ancestor of [q] iff [p] is a strict prefix of [q]. *)
Fixpoint isAncestor (p q : t) : bool :=
  match p, q with
  | [], [] => false
  | [], _ :: _ => true
  | _ :: _, [] => false
  | i :: p', j :: q' => Nat.eqb i j && isAncestor p' q'
  end.

(** Modelled from the spec: paths are compared lexicographically for
    document order, a prefix coming before its extensions. *)
Fixpoint compare (p q : t) : comparison :=
  match p, q with
  | [], [] => Eq
  | [], _ :: _ => Lt
  | _ :: _, [] => Gt
  | i :: p', j :: q' =>
      match Nat.compare i j with
      | Eq => compare p' q'
      | c => c
      end
  end.

Definition isBefore (p q : t) : bool :=
  match compare p q with Lt => true | _ => false end.

Definition isAfter (p q : t) : bool :=
  match compare p q with Gt => true | _ => false end.

(** Modelled from the spec: [relative path root] drops the prefix [root]
    from [path] and fails when [root] is not a prefix. *)
Fixpoint relative (path root : t) : option t :=
  match root, path with
  | [], _ => Some path
  | _ :: _, [] => None
  | j :: root', i :: path' =>
      if Nat.eqb i j then relative path' root' else None
  end.

End Path.

(** ** JavaScript strings *)

Module JsString.

Definition length (s : string) : Z := Z.of_nat (String.length s).

Definition clampIndex (len i : Z) : Z :=
  if i <? 0 then Z.max (len + i) 0 else Z.min i len.

(** [s.slice(from, to)], negative indices counting from the end. *)
Definition slice (s : string) (from : Z) (to : option Z) : string :=
  let len := length s in
  let a := clampIndex len from in
  let b := match to with Some e => clampIndex len e | None => len end in
  if a <? b then String.substring (Z.to_nat a) (Z.to_nat (b - a)) s
  else EmptyString.

Definition reverse (s : string) : string :=
  string_of_list_ascii (rev (list_ascii_of_string s)).

End JsString.

(** ** The editor queries of [queries/value.ts] *)

Module Queries.

(** A reference to a JavaScript array of marks. *)
Definition loc := nat.

Record Text := mkText { text : string; marks : loc }.

(** [Element] has child [nodes]; [isInline] and [isVoid] are what the
    editor's [isInline(n)] and [isVoid(n)] answer for the element. *)
Inductive Node :=
| TextNode (t : Text)
| ElementNode (nodes : list Node) (isInline isVoid : bool).

Record Point := mkPoint { path : Path.t; offset : Z }.

(** A selection is a range that may carry explicit [marks]. *)
Record Range := mkRange {
  anchor : Point;
  focus : Point;
  range_marks : option loc
}.

Record Value := mkValue {
  nodes : list Node;
  selection : option Range
}.

Definition TextEntry : Type := Text * Path.t.
Definition ElementEntry : Type := Node * Path.t.

#[global] Instance Point_eq_dec : EqDecision Point.
Proof. solve_decision. Defined.

(** *** Tree queries

    None of the [Node.*] and [Editor.get*] helpers is part of the
    sources; they follow section 4.2 of the specification.  A query on a
    path that does not exist fails ([None]). *)

(** Modelled from the spec: [Node.get], absent from the sources; the
    node at [p] below the children [ns], failing on a missing path. *)
Fixpoint Node_get (ns : list Node) (p : Path.t) : option Node :=
  match p with
  | [] => None
  | i :: p' =>
      match ns !! i with
      | None => None
      | Some n =>
          match p', n with
          | [], _ => Some n
          | _ :: _, ElementNode cs _ _ => Node_get cs p'
          | _ :: _, TextNode _ => None
          end
      end
  end.

(** Modelled from the spec: [Node.leaf], absent from the sources; the
    text node at [p], failing when there is none. *)
Definition Node_leaf (v : Value) (p : Path.t) : option Text :=
  match Node_get (nodes v) p with
  | Some (TextNode t) => Some t
  | _ => None
  end.

(** Modelled from the spec: [getAncestors], absent from the sources; the
    entries from below the root down to the node at [p] (inclusive). *)
Fixpoint levels (ns : list Node) (pre p : Path.t)
  : option (list ElementEntry) :=
  match p with
  | [] => Some []
  | i :: p' =>
      match ns !! i with
      | None => None
      | Some n =>
          match p', n with
          | [], _ => Some [(n, pre ++ [i])]
          | _ :: _, ElementNode cs _ _ =>
              match levels cs (pre ++ [i]) p' with
              | Some l => Some ((n, pre ++ [i]) :: l)
              | None => None
              end
          | _ :: _, TextNode _ => None
          end
      end
  end.

(** Modelled from the spec: the editor's [isInline] and [isVoid], absent
    from the sources; a block is an element that is not inline. *)
Definition isBlock (n : Node) : bool :=
  match n with ElementNode _ false _ => true | _ => false end.

Definition isVoidElement (n : Node) : bool :=
  match n with ElementNode _ _ true => true | _ => false end.

(** Modelled from the spec: [getClosestBlock], absent from the sources;
    the nearest non-inline element among the ancestors of [p]. *)
Definition getClosestBlock (v : Value) (p : Path.t)
  : option (option ElementEntry) :=
  match levels (nodes v) [] p with
  | None => None
  | Some l =>
      Some (last (filter (fun e => isBlock (fst e) = true) (removelast l)))
  end.

(** Modelled from the spec: [getFurthestVoid], absent from the sources;
    the outermost void element among [p] and its ancestors. *)
Definition getFurthestVoid (v : Value) (p : Path.t)
  : option (option ElementEntry) :=
  match levels (nodes v) [] p with
  | None => None
  | Some l => Some (head (filter (fun e => isVoidElement (fst e) = true) l))
  end.

(** The text entries below a node, in document order. *)
Fixpoint textsOf (n : Node) (p : Path.t) : list TextEntry :=
  match n with
  | TextNode t => [(t, p)]
  | ElementNode cs _ _ =>
      (fix go (l : list Node) (i : nat) : list TextEntry :=
         match l with
         | [] => []
         | c :: l' => textsOf c (p ++ [i]) ++ go l' (S i)
         end) cs 0%nat
  end.

Definition root (v : Value) : Node := ElementNode (nodes v) false false.

Definition allTexts (v : Value) : list TextEntry := textsOf (root v) [].

(** Modelled from the spec: [getNextText], absent from the sources; the
    first text, in document order, after the node at [p] and outside it. *)
Definition getNextText (v : Value) (p : Path.t) : option TextEntry :=
  head (filter (fun e => Path.isAfter (snd e) p = true
                         /\ Path.isAncestor p (snd e) = false)
               (allTexts v)).

(** Modelled from the spec: [getPreviousText], absent from the sources;
    the last text, in document order, before the node at [p]. *)
Definition getPreviousText (v : Value) (p : Path.t) : option TextEntry :=
  last (filter (fun e => Path.isBefore (snd e) p = true) (allTexts v)).

(** The subtree at [p]; the empty path is the whole value. *)
Definition ancestorAt (v : Value) (p : Path.t) : option Node :=
  match p with
  | [] => Some (root v)
  | _ => Node_get (nodes v) p
  end.

(** Modelled from the spec: [isAtStartOfPath] and [isAtEndOfPath], absent
    from the sources; the point is the first (last) place of the node at
    [p], with nothing left to traverse inside it. *)
Definition isAtStartOfPath (v : Value) (pt : Point) (p : Path.t) : bool :=
  match ancestorAt v p with
  | Some n =>
      match head (textsOf n p) with
      | Some (_, tp) => Path.eqb (path pt) tp && (offset pt =? 0)
      | None => false
      end
  | None => false
  end.

Definition isAtEndOfPath (v : Value) (pt : Point) (p : Path.t) : bool :=
  match ancestorAt v p with
  | Some n =>
      match last (textsOf n p) with
      | Some (t, tp) =>
          Path.eqb (path pt) tp && (offset pt =? JsString.length (text t))
      | None => false
      end
  | None => false
  end.

(** Modelled from the spec: [Node.text], absent from the sources; the
    concatenated text of a subtree, a void subtree giving the empty
    string. *)
Fixpoint Node_text (n : Node) : string :=
  match n with
  | TextNode t => text t
  | ElementNode cs _ true => EmptyString
  | ElementNode cs _ false =>
      (fix go (l : list Node) : string :=
         match l with
         | [] => EmptyString
         | c :: l' => String.append (Node_text c) (go l')
         end) cs
  end.

(** Modelled from the spec: [Node.offset], absent from the sources; the
    number of characters of [r] that precede the relative path [p]. *)
Fixpoint Node_offset (r : Node) (p : Path.t) : Z :=
  match p, r with
  | i :: p', ElementNode cs _ _ =>
      fold_right (fun c acc => JsString.length (Node_text c) + acc) 0
                 (take i cs)
      + match cs !! i with
        | Some c => Node_offset c p'
        | None => 0
        end
  | _, _ => 0
  end.

(** Modelled from the spec: [getRange], absent from the sources; the
    range from the start to the end of the text at [p]. *)
Definition getRange (v : Value) (p : Path.t) : option Range :=
  match Node_leaf v p with
  | Some t =>
      Some (mkRange (mkPoint p 0) (mkPoint p (JsString.length (text t))) None)
  | None => None
  end.

(** Modelled from the spec: [Range.isCollapsed], absent from the sources;
    a range is collapsed iff its anchor equals its focus. *)
Definition Range_isCollapsed (r : Range) : bool :=
  bool_decide (anchor r = focus r).

(** The options of [Node.texts]. *)
Record TextsOptions := mkTextsOptions {
  opt_path : option Path.t;
  opt_range : option Range;
  opt_reverse : bool
}.

(** Modelled from the spec: [Node.texts], absent from the sources; the
    text entries in document order (or reverse), optionally scoped to a
    range or to the subtree at a path. *)
Definition Node_texts_spec (v : Value) (o : TextsOptions) : list TextEntry :=
  let scoped :=
    match opt_range o, opt_path o with
    | Some r, _ =>
        let a := path (anchor r) in
        let f := path (focus r) in
        let lo := if Path.isBefore f a then f else a in
        let hi := if Path.isBefore f a then a else f in
        filter (fun e => Path.isBefore (snd e) lo = false
                         /\ Path.isAfter (snd e) hi = false) (allTexts v)
    | None, Some p =>
        filter (fun e => p = snd e \/ Path.isAncestor p (snd e) = true)
               (allTexts v)
    | None, None => allTexts v
    end in
  if opt_reverse o then rev scoped else scoped.

(** The outcome of a call. *)
Inductive outcome (A : Type) : Type :=
| Ok (a : A)
| Throw
| Timeout.
Arguments Ok {A} a.
Arguments Throw {A}.
Arguments Timeout {A}.

(** *** Active marks *)

Section Marks.

Context {Mark : Type} `{EqDecision Mark}.

(** [Node.texts] is not part of the sources: the queries are
    parametrised by it. *)
Variable Node_texts : Value -> TextsOptions -> list TextEntry.

(** The store of mark arrays: [marks] fields and local variables hold
    locations of it. *)
Definition heap := list (list Mark).

(** Which arrays of the store are frozen ([Object.freeze], which immer's
    [produce] applies to the values it returns).  A query freezes no array;
    the methods that update an array in place raise a [TypeError] on a
    frozen one. *)
Variable frozen : loc -> bool.

Definition deref (h : heap) (l : loc) : list Mark := h !!! l.

(** [[]]: a fresh empty array. *)
Definition alloc (h : heap) : (loc * heap)%type := (length h, h ++ [[]]).

(** [a.push(m)]; [None] is the [TypeError] of a frozen array. *)
Definition push (l : loc) (m : Mark) (h : heap) : option heap :=
  if frozen l then None else Some (<[l := deref h l ++ [m]]> h).

(** [a.splice(i, 1)]; [None] is the [TypeError] of a frozen array. *)
Definition splice1 (l : loc) (i : nat) (h : heap) : option heap :=
  if frozen l then None else Some (<[l := delete i (deref h l)]> h).

(** Modelled from the spec: [Mark.exists], absent from the sources;
    whether the mark is present in the array. *)
Definition Mark_exists (m : Mark) (ms : list Mark) : bool :=
  bool_decide (m ∈ ms).

(** [for (const mark of marks) if (!Mark.exists(mark, marks))
    result.push(mark)]: the array iterator reads [marks] afresh at each
    index, so the loop is by index, with fuel. *)
Fixpoint unionPass (fuel i : nat) (result marks : loc) (h : heap)
  : outcome heap :=
  match deref h marks !! i with
  | None => Ok h
  | Some mark =>
      match fuel with
      | O => Timeout
      | S fuel' =>
          if Mark_exists mark (deref h marks)
          then unionPass fuel' (S i) result marks h
          else
            match push result mark h with
            | Some h' => unionPass fuel' (S i) result marks h'
            | None => Throw
            end
      end
  end.

(** [for (let i = result.length - 1; i >= 0; i--)], called with
    [n = result.length]; [result[i]] is always defined there.  [None] is
    the [TypeError] of [splice]. *)
Fixpoint intersectPass (n : nat) (result marks : loc) (h : heap)
  : option heap :=
  match n with
  | O => Some h
  | S i =>
      match deref h result !! i with
      | Some existing =>
          if Mark_exists existing (deref h marks)
          then intersectPass i result marks h
          else
            match splice1 result i h with
            | Some h' => intersectPass i result marks h'
            | None => None
            end
      | None => intersectPass i result marks h
      end
  end.

(** The loop [for (const [node] of Node.texts(value, { range }))]. *)
Fixpoint marksLoop (union : bool) (entries : list TextEntry)
    (first : bool) (result : loc) (h : heap) : outcome (loc * heap)%type :=
  match entries with
  | [] => Ok (result, h)
  | (node, _) :: rest =>
      if first then marksLoop union rest false (marks node) h
      else if negb union && (length (deref h result) =? 0)%nat
      then Ok (result, h)
      else if union then
        match unionPass (length (deref h (marks node))) 0
                        result (marks node) h with
        | Ok h' => marksLoop union rest false result h'
        | Throw => Throw
        | Timeout => Timeout
        end
      else
        match intersectPass (length (deref h result)) result (marks node) h
        with
        | Some h' => marksLoop union rest false result h'
        | None => Throw
        end
  end.

(** The range whose texts are folded: the selection, or the previous
    text of the same block when the selection is collapsed at the start
    of a text. *)
Definition marksRange (v : Value) (sel : Range) : outcome Range :=
  if Range_isCollapsed sel && (offset (anchor sel) =? 0) then
    match getClosestBlock v (path (anchor sel)) with
    | None => Throw
    | Some closestBlock =>
        match closestBlock, getPreviousText v (path (anchor sel)) with
        | Some (_, blockPath), Some (_, prevPath) =>
            if Path.isAncestor blockPath prevPath then
              match getRange v prevPath with
              | Some r => Ok r
              | None => Throw
              end
            else Ok sel
        | _, _ => Ok sel
        end
    end
  else Ok sel.

Definition getActiveMarks (union : bool) (v : Value) (h : heap)
  : outcome (loc * heap)%type :=
  match selection v with
  | None => Ok (alloc h)
  | Some sel =>
      match range_marks sel with
      | Some l => Ok (l, h)
      | None =>
          let '(result, h1) := alloc h in
          match marksRange v sel with
          | Ok range =>
              marksLoop union
                (Node_texts v (mkTextsOptions None (Some range) false))
                true result h1
          | Throw => Throw
          | Timeout => Timeout
          end
      end
  end.

End Marks.

(** **** A concrete document: one block with two marked texts *)

Definition markedTexts : Value :=
  mkValue
    [ElementNode [TextNode (mkText "a" 0%nat); TextNode (mkText "b" 1%nat)]
                 false false]
    (Some (mkRange (mkPoint [0; 0]%nat 0) (mkPoint [0; 1]%nat 1) None)).

Definition markedStore : list (list string) :=
  [["bold"; "italic"]; ["italic"; "code"]]%string.

(** Plain arrays: none is frozen. *)
Definition notFrozen (l : loc) : bool := false.

(** The store as immer's [produce] leaves it: every array is frozen. *)
Definition allFrozen (l : loc) : bool := true.

(** *** Positions *)

Inductive Unit := UnitOffset | UnitCharacter | UnitWord | UnitLine.

(** How one turn of the [while (true)] loop ends. *)
Inductive control :=
| Break
| Next (point : Point)
| Raise.

Record iteration := mkIteration {
  yielded : list Point;
  after : control
}.

(** How the generator stands after some turns of the loop. *)
Inductive status :=
| Finished
| Raised
| Suspended (point : Point).

Section Positions.

(** [Node.texts], [String.getCharacterDistance] and
    [String.getWordDistance] are not part of the sources: the generator is
    parametrised by them. *)
Variable Node_texts : Value -> TextsOptions -> list TextEntry.
Variable getCharacterDistance : string -> Z.
Variable getWordDistance : string -> Z.

(** The path to skip, if any: the furthest void around the point, else
    the closest block when the point is at its far edge. *)
Definition skipPathOf (reverse : bool) (v : Value) (point : Point)
    (furthestVoid closestBlock : option ElementEntry) : option Path.t :=
  match furthestVoid, closestBlock with
  | Some (_, voidPath), _ => Some voidPath
  | None, Some (_, blockPath) =>
      if (negb reverse && isAtEndOfPath v point blockPath)
         || (reverse && isAtStartOfPath v point blockPath)
      then Some blockPath
      else None
  | None, None => None
  end.

(** [if (skipPath) { ... }]: [None] is the [break]; otherwise the point
    the generator moved to and yielded, if it did. *)
Definition skipStep (reverse : bool) (v : Value) (skipPath : option Path.t)
  : option (option Point) :=
  match skipPath with
  | None => Some None
  | Some sp =>
      match (if reverse then getPreviousText v sp else getNextText v sp) with
      | None => None
      | Some (textNode, textPath) =>
          Some (Some (mkPoint textPath
                        (if reverse then JsString.length (text textNode)
                         else 0)))
      end
  end.

(** The travel distance [d]. *)
Definition distance (unit : Unit) (remainingText : string) : Z :=
  match unit with
  | UnitOffset => 1
  | UnitCharacter => getCharacterDistance remainingText
  | UnitWord => getWordDistance remainingText
  | UnitLine => JsString.length remainingText
  end.

(** [for (const [textNode, textPath] of this.texts({ path, reverse }))]:
    every entry with [t + length >= d] moves the point and yields it. *)
Fixpoint textsPass (reverse : bool) (d t : Z) (entries : list TextEntry)
    (point : Point) : Point * list Point :=
  match entries with
  | [] => (point, [])
  | (textNode, textPath) :: rest =>
      let length := JsString.length (text textNode) in
      if t + length >=? d then
        let point' :=
          mkPoint textPath (if reverse then length - (d - t) else d - t) in
        let r := textsPass reverse d t rest point' in
        (fst r, point' :: snd r)
      else textsPass reverse d t rest point
  end.

(** The part of the loop body after the skip; [path] and [offset] are
    those of the point the turn started from, [point] the current one. *)
Definition travel (unit : Unit) (reverse : bool) (v : Value)
    (path : Path.t) (offset : Z) (closestBlock : option ElementEntry)
    (point : Point) : iteration :=
  match Node_leaf v path with
  | None => mkIteration [] Raise
  | Some node =>
      let root_rootPath :=
        match closestBlock with
        | Some (block, blockPath) => (block, blockPath)
        | None => (root v, [])
        end in
      let rootText := Node_text (fst root_rootPath) in
      match Path.relative path (snd root_rootPath) with
      | None => mkIteration [] Raise
      | Some relPath =>
          let relOffset := Node_offset (fst root_rootPath) relPath in
          let rootOffset := relOffset + offset in
          let remainingText :=
            if reverse
            then JsString.reverse (JsString.slice rootText 0 (Some rootOffset))
            else JsString.slice rootText rootOffset None in
          let d := distance unit remainingText in
          let newOffset := if reverse then offset - d else offset + d in
          let inside :=
            (negb reverse && (newOffset <=? JsString.length (text node)))
            || (reverse && (newOffset >=? 0)) in
          let point1 :=
            if inside then mkPoint (Queries.path point) newOffset
            else point in
          let t :=
            if reverse then offset
            else JsString.length (text node) - offset in
          let r :=
            textsPass reverse d t
              (Node_texts v (mkTextsOptions (Some path) None reverse))
              point1 in
          mkIteration ((if inside then [point1] else []) ++ snd r)
                      (Next (fst r))
      end
  end.

(** One turn of [while (true)]. *)
Definition positionsBody (unit : Unit) (reverse : bool) (v : Value)
    (point : Point) : iteration :=
  let path := path point in
  let offset := offset point in
  match getFurthestVoid v path, getClosestBlock v path with
  | Some furthestVoid, Some closestBlock =>
      match skipStep reverse v
              (skipPathOf reverse v point furthestVoid closestBlock) with
      | None => mkIteration [] Break
      | Some skipped =>
          let it :=
            travel unit reverse v path offset closestBlock
                   (default point skipped) in
          mkIteration (option_list skipped ++ yielded it) (after it)
      end
  | _, _ => mkIteration [] Raise
  end.

(** [fuel] turns of the loop: the points yielded, and how the generator
    stands. *)
Fixpoint positionsLoop (fuel : nat) (unit : Unit) (reverse : bool)
    (v : Value) (point : Point) : list Point * status :=
  match fuel with
  | O => ([], Suspended point)
  | S fuel' =>
      let it := positionsBody unit reverse v point in
      match after it with
      | Break => (yielded it, Finished)
      | Raise => (yielded it, Raised)
      | Next point' =>
          let r := positionsLoop fuel' unit reverse v point' in
          (yielded it ++ fst r, snd r)
      end
  end.

Definition positions (fuel : nat) (v : Value) (point : option Point)
    (unit : Unit) (reverse : bool) : list Point * status :=
  match point with
  | Some point => positionsLoop fuel unit reverse v point
  | None =>
      match Node_texts v (mkTextsOptions None None reverse) with
      | (textNode, textPath) :: _ =>
          positionsLoop fuel unit reverse v
            (mkPoint textPath
               (if reverse then JsString.length (text textNode) else 0))
      | [] => ([], Raised)
      end
  end.

(** The point must skip a path, and no text lies beyond that path in the
    direction of travel. *)
Definition noFurtherText (reverse : bool) (v : Value) (point : Point) : Prop :=
  exists (furthestVoid closestBlock : option ElementEntry) (skipPath : Path.t),
    getFurthestVoid v (path point) = Some furthestVoid
    /\ getClosestBlock v (path point) = Some closestBlock
    /\ skipPathOf reverse v point furthestVoid closestBlock = Some skipPath
    /\ (if reverse then getPreviousText v skipPath
        else getNextText v skipPath) = None.

End Positions.

(** Modelled from the spec: [String.getCharacterDistance], absent from the
    sources; the length of the first character cluster, one code unit for
    ASCII text. *)
Definition asciiCharacterDistance (s : string) : Z :=
  match s with
  | EmptyString => 0
  | String _ _ => 1
  end.

Definition isSpace (c : Ascii.ascii) : bool :=
  Ascii.eqb c (Ascii.ascii_of_nat 32).

Fixpoint spaceRun (s : string) : Z :=
  match s with
  | String c s' => if isSpace c then 1 + spaceRun s' else 0
  | EmptyString => 0
  end.

(** Modelled from the spec: [String.getWordDistance], absent from the
    sources; the length of the first word with the run of white space
    that trails it. *)
Fixpoint asciiWordDistance (s : string) : Z :=
  match s with
  | EmptyString => 0
  | String c s' => if isSpace c then spaceRun s else 1 + asciiWordDistance s'
  end.

(** The generator over the modelled helpers. *)
Definition positionsSpec : nat -> Value -> option Point -> Unit -> bool
                           -> list Point * status :=
  positions Node_texts_spec asciiCharacterDistance asciiWordDistance.

(** The document [[Text "a", Void, Text "b"]]; the void element is an
    inline or a block. *)
Definition voidDocument (inline : bool) : Value :=
  mkValue
    [TextNode (mkText "a" 0%nat);
     ElementNode [TextNode (mkText "" 1%nat)] inline true;
     TextNode (mkText "b" 2%nat)]
    None.

(** Two blocks with an empty text each. *)
Definition emptyBlocks : Value :=
  mkValue
    [ElementNode [TextNode (mkText "" 0%nat)] false false;
     ElementNode [TextNode (mkText "" 1%nat)] false false]
    None.

(** One block with the text ["ab"]. *)
Definition singleBlock : Value :=
  mkValue [ElementNode [TextNode (mkText "ab" 0%nat)] false false] None.

(** The block of [markedTexts] with a cursor at the start of the second
    text. *)
Definition cursorAfterFirst : Value :=
  mkValue (nodes markedTexts)
    (Some (mkRange (mkPoint [0; 1]%nat 0) (mkPoint [0; 1]%nat 0) None)).

End Queries.

(** ** The [Value] record and its selection-repairing operations

    The class [Value] of the sources calls the [Document], [Range] and
    [Point] models, which are not part of the sources; these follow
    sections 3, 4.3 and 4.4 of the specification.  A [None] result is a
    thrown error. *)

Module Legacy.

Definition Key := string.

Inductive Object := DocumentObject | BlockObject | InlineObject.

(** A text leaf, or a document, block or inline with child nodes. *)
Inductive Node :=
| Text (key : Key) (text : string)
| Element (object : Object) (key : Key) (type : string) (nodes : list Node).

Definition TextLeaf : Type := Key * string.

(** *** Points and ranges *)

(** Every field is nullable: [unset()] clears them all. *)
Record Point := mkPoint {
  key : option Key;
  path : option Path.t;
  offset : option Z
}.

Record Range := mkRange { anchor : Point; focus : Point }.

#[global] Instance Object_eq_dec : EqDecision Object.
Proof. solve_decision. Defined.

#[global] Instance Point_eq_dec : EqDecision Point.
Proof. solve_decision. Defined.

#[global] Instance Range_eq_dec : EqDecision Range.
Proof. solve_decision. Defined.

(** A nullable number in an arithmetic or comparison: [null] counts as 0. *)
Definition toNumber (o : option Z) : Z := default 0 o.

(** Modelled from the spec: [Point.moveTo], [setOffset], [setPath] and
    [unset], absent from the sources; pure, each returns a new point.  The
    path is a cache of where the key is: a point moved to another key has
    no path (null) until it is resolved again, a point moved along its own
    node keeps it. *)
Definition moveTo (k : Key) (o : Z) (p : Point) : Point :=
  mkPoint (Some k) (if decide (key p = Some k) then path p else None)
          (Some o).

Definition setOffset (o : Z) (p : Point) : Point :=
  mkPoint (key p) (path p) (Some o).

Definition setPath (q : option Path.t) (p : Point) : Point :=
  mkPoint (key p) q (offset p).

Definition unsetPoint : Point := mkPoint None None None.

(** Modelled from the spec: a point is set when it refers to a node by
    key, the path being only a cache; a range is set when both points are. *)
Definition Point_isSet (p : Point) : bool := bool_decide (is_Some (key p)).

Definition Range_isSet (r : Range) : bool :=
  Point_isSet (anchor r) && Point_isSet (focus r).

(** Modelled from the spec: [Range.unset], absent from the sources; marks
    the range inert. *)
Definition Range_unset (r : Range) : Range := mkRange unsetPoint unsetPoint.

(** Modelled from the spec: [Range.updatePoints], absent from the sources;
    applies the function to the anchor and to the focus. *)
Definition updatePoints (f : Point -> option Point) (r : Range)
  : option Range :=
  match f (anchor r), f (focus r) with
  | Some a, Some b => Some (mkRange a b)
  | _, _ => None
  end.

(** Modelled from the spec: [Range.moveAnchorTo] and [moveFocusTo], absent
    from the sources; [moveTo] applied to the anchor (the focus). *)
Definition moveAnchorTo (k : Key) (o : Z) (r : Range) : Range :=
  mkRange (moveTo k o (anchor r)) (focus r).

Definition moveFocusTo (k : Key) (o : Z) (r : Range) : Range :=
  mkRange (anchor r) (moveTo k o (focus r)).

(** Modelled from the spec: document order on points, by path (compared
    lexicographically), then by offset.  A point whose path is null is not
    known to come before another. *)
Definition pointBefore (p q : Point) : bool :=
  match path p, path q with
  | Some a, Some b =>
      match Path.compare a b with
      | Lt => true
      | Gt => false
      | Eq => toNumber (offset p) <? toNumber (offset q)
      end
  | _, _ => false
  end.

(** Modelled from the spec: [start] and [end] are the anchor and the focus
    sorted into document order.  The key is the identity of the node: two
    points on the same key are ordered by their offsets, points on
    different keys by their paths; a range that is not set, or that has a
    point without a path, is not backward. *)
Definition Range_isBackward (r : Range) : bool :=
  Range_isSet r
  && (if decide (key (anchor r) = key (focus r))
      then toNumber (offset (focus r)) <? toNumber (offset (anchor r))
      else pointBefore (focus r) (anchor r)).

(** Modelled from the spec: [Range.start], [end], [moveStartTo] and
    [moveEndTo], absent from the sources; the start is the focus of a
    backward range and the anchor otherwise, the end is the other point. *)
Definition Range_start (r : Range) : Point :=
  if Range_isBackward r then focus r else anchor r.

Definition Range_end (r : Range) : Point :=
  if Range_isBackward r then anchor r else focus r.

Definition moveStartTo (k : Key) (o : Z) (r : Range) : Range :=
  if Range_isBackward r then moveFocusTo k o r else moveAnchorTo k o r.

Definition moveEndTo (k : Key) (o : Z) (r : Range) : Range :=
  if Range_isBackward r then moveAnchorTo k o r else moveFocusTo k o r.

(** *** The document tree *)

Definition keyOf (n : Node) : Key :=
  match n with
  | Text k _ => k
  | Element _ k _ _ => k
  end.

Definition nodesOf (n : Node) : list Node :=
  match n with
  | Text _ _ => []
  | Element _ _ _ cs => cs
  end.

Definition isText (n : Node) : bool :=
  match n with
  | Text _ _ => true
  | Element _ _ _ _ => false
  end.

(** The text leaves of a subtree, in document order. *)
Fixpoint texts (n : Node) : list TextLeaf :=
  match n with
  | Text k s => [(k, s)]
  | Element _ _ _ cs => flat_map texts cs
  end.

Definition textKeys (n : Node) : list Key := map fst (texts n).

(** The keys of all the nodes of a subtree. *)
Fixpoint allKeys (n : Node) : list Key :=
  match n with
  | Text k _ => [k]
  | Element _ k _ cs => k :: flat_map allKeys cs
  end.

(** Every node with its path, in document order. *)
Fixpoint entries (n : Node) (p : Path.t) : list (Key * Path.t) :=
  match n with
  | Text k _ => [(k, p)]
  | Element _ k _ cs =>
      (k, p) ::
      (fix go (l : list Node) (i : nat) : list (Key * Path.t) :=
         match l with
         | [] => []
         | c :: l' => entries c (p ++ [i]) ++ go l' (S i)
         end) cs 0%nat
  end.

(** Modelled from the spec: [getPath], absent from the sources; the
    current path of the node with the given key. *)
Definition getPath (doc : Node) (k : Key) : option Path.t :=
  snd <$> head (filter (fun e => fst e = k) (entries doc [])).

(** Modelled from the spec: [hasNode], absent from the sources; whether
    the key is that of the node or of one of its descendants. *)
Definition hasNode (n : Node) (k : option Key) : bool :=
  match k with
  | Some k => bool_decide (k ∈ allKeys n)
  | None => false
  end.

Fixpoint getDescendant (ns : list Node) (p : Path.t) : option Node :=
  match p with
  | [] => None
  | i :: p' =>
      match ns !! i with
      | None => None
      | Some n =>
          match p' with
          | [] => Some n
          | _ :: _ => getDescendant (nodesOf n) p'
          end
      end
  end.

(** Modelled from the spec: [getNode] and [assertNode], absent from the
    sources; the node at a path, the empty path being the document. *)
Definition assertNode (doc : Node) (p : Path.t) : option Node :=
  match p with
  | [] => Some doc
  | _ :: _ => getDescendant (nodesOf doc) p
  end.

(** Modelled from the spec: [getFirstText] and [getLastText], absent from
    the sources; the first (last) text leaf of a subtree, if any. *)
Definition getFirstText (n : Node) : option TextLeaf := head (texts n).

Definition getLastText (n : Node) : option TextLeaf := last (texts n).

Fixpoint previousIn (k : Key) (prev : option TextLeaf) (l : list TextLeaf)
  : option TextLeaf :=
  match l with
  | [] => None
  | t :: l' => if decide (fst t = k) then prev else previousIn k (Some t) l'
  end.

Fixpoint nextIn (k : Key) (l : list TextLeaf) : option TextLeaf :=
  match l with
  | [] => None
  | t :: l' => if decide (fst t = k) then head l' else nextIn k l'
  end.

(** Modelled from the spec: [getPreviousText] and [getNextText], absent
    from the sources; the text leaf before (after) the text with the given
    key, in document order. *)
Definition getPreviousText (doc : Node) (k : Key) : option TextLeaf :=
  previousIn k None (texts doc).

Definition getNextText (doc : Node) (k : Key) : option TextLeaf :=
  nextIn k (texts doc).

(** *** Operations of the document

    The operations of [Document] are absent from the sources; they follow
    the table of section 4.4 of the specification.  An operation whose
    precondition fails raises an error. *)

(** The node at a path replaced by a list of nodes computed from it. *)
Fixpoint updateL (f : Node -> option (list Node)) (p : Path.t)
    (ns : list Node) : option (list Node) :=
  match p with
  | [] => None
  | i :: p' =>
      match ns !! i with
      | None => None
      | Some n =>
          match p' with
          | [] =>
              match f n with
              | Some r => Some (take i ns ++ r ++ drop (S i) ns)
              | None => None
              end
          | _ :: _ =>
              match n with
              | Element o k ty cs =>
                  match updateL f p' cs with
                  | Some cs' =>
                      Some (take i ns ++ [Element o k ty cs'] ++ drop (S i) ns)
                  | None => None
                  end
              | Text _ _ => None
              end
          end
      end
  end.

(** Insert a node at a path, the later siblings moving up by one. *)
Fixpoint insertL (node : Node) (p : Path.t) (ns : list Node)
  : option (list Node) :=
  match p with
  | [] => None
  | i :: p' =>
      match p' with
      | [] =>
          if (i <=? length ns)%nat
          then Some (take i ns ++ [node] ++ drop i ns)
          else None
      | _ :: _ =>
          match ns !! i with
          | Some (Element o k ty cs) =>
              match insertL node p' cs with
              | Some cs' =>
                  Some (take i ns ++ [Element o k ty cs'] ++ drop (S i) ns)
              | None => None
              end
          | _ => None
          end
      end
  end.

(** A node merged into its predecessor of the same kind. *)
Definition mergeNodes (one two : Node) : option Node :=
  match one, two with
  | Text k1 s1, Text _ s2 => Some (Text k1 (String.append s1 s2))
  | Element o1 k1 ty1 cs1, Element o2 _ _ cs2 =>
      if decide (o1 = o2) then Some (Element o1 k1 ty1 (cs1 ++ cs2)) else None
  | _, _ => None
  end.

Fixpoint mergeL (p : Path.t) (ns : list Node) : option (list Node) :=
  match p with
  | [] => None
  | i :: p' =>
      match p' with
      | [] =>
          match i with
          | O => None
          | S j =>
              match ns !! j, ns !! i with
              | Some one, Some two =>
                  match mergeNodes one two with
                  | Some m => Some (take j ns ++ [m] ++ drop (S i) ns)
                  | None => None
                  end
              | _, _ => None
              end
          end
      | _ :: _ =>
          match ns !! i with
          | Some (Element o k ty cs) =>
              match mergeL p' cs with
              | Some cs' =>
                  Some (take i ns ++ [Element o k ty cs'] ++ drop (S i) ns)
              | None => None
              end
          | _ => None
          end
      end
  end.

Definition onNodes (g : list Node -> option (list Node)) (doc : Node)
  : option Node :=
  match doc with
  | Element o k ty cs =>
      match g cs with
      | Some cs' => Some (Element o k ty cs')
      | None => None
      end
  | Text _ _ => None
  end.

(** Modelled from the spec: [Document.splitNode], absent from the sources;
    the node is replaced by two siblings, its content partitioned at
    [position]; the successor has the fresh key [newKey] and takes the
    [properties]. *)
Definition splitParts (newKey : Key) (position : Z)
    (properties : option string) (n : Node) : option (list Node) :=
  match n with
  | Text k s =>
      Some [Text k (JsString.slice s 0 (Some position));
            Text newKey (JsString.slice s position None)]
  | Element o k ty cs =>
      Some [Element o k ty (take (Z.to_nat position) cs);
            Element o newKey (default ty properties)
                    (drop (Z.to_nat position) cs)]
  end.

Definition Document_splitNode (newKey : Key) (p : Path.t) (position : Z)
    (properties : option string) (doc : Node) : option Node :=
  onNodes (updateL (splitParts newKey position properties) p) doc.

(** Modelled from the spec: [Document.mergeNode], absent from the sources;
    the node is merged into its previous sibling of the same kind, then
    removed. *)
Definition Document_mergeNode (p : Path.t) (doc : Node) : option Node :=
  onNodes (mergeL p) doc.

(** Modelled from the spec: [Document.removeNode], absent from the
    sources; the subtree is removed from its parent's children. *)
Definition Document_removeNode (p : Path.t) (doc : Node) : option Node :=
  onNodes (updateL (fun _ => Some []) p) doc.

(** Modelled from the spec: [Document.insertNode], absent from the
    sources; the node is inserted at the path, whose parent must exist. *)
Definition Document_insertNode (p : Path.t) (node : Node) (doc : Node)
  : option Node :=
  onNodes (insertL node p) doc.

(** Modelled from the spec: [Document.moveNode], absent from the sources;
    the subtree is taken out and inserted at [newPath], an index past the
    end of the destination's children meaning their end; [newIndex] only
    qualifies a destination given by key. *)
Definition Document_moveNode (p newPath : Path.t) (newIndex : nat)
    (doc : Node) : option Node :=
  match assertNode doc p, Document_removeNode p doc with
  | Some node, Some doc1 =>
      match assertNode doc1 (removelast newPath), last newPath with
      | Some parent, Some i =>
          Document_insertNode
            (removelast newPath ++ [Nat.min i (length (nodesOf parent))])
            node doc1
      | _, _ => None
      end
  | _, _ => None
  end.

(** Modelled from the spec: [Document.setNode], absent from the sources;
    a shallow merge of the properties, here the [type] of an element; the
    key and the content stay. *)
Definition setProperties (properties : option string) (n : Node) : Node :=
  match n with
  | Element o k ty cs => Element o k (default ty properties) cs
  | Text k s => Text k s
  end.

Definition Document_setNode (p : Path.t) (properties : option string)
    (doc : Node) : option Node :=
  onNodes (updateL (fun n => Some [setProperties properties n]) p) doc.

(** Modelled from the spec: [Document.insertText] and [removeText], absent
    from the sources; the string is spliced into (out of) the text at the
    path, [removeText] requiring that [text] is the slice it removes. *)
Definition Document_insertText (p : Path.t) (offset : Z) (text : string)
    (doc : Node) : option Node :=
  onNodes
    (updateL
       (fun n =>
          match n with
          | Text k s =>
              Some [Text k (String.append (JsString.slice s 0 (Some offset))
                              (String.append text
                                 (JsString.slice s offset None)))]
          | Element _ _ _ _ => None
          end) p) doc.

Definition Document_removeText (p : Path.t) (offset : Z) (text : string)
    (doc : Node) : option Node :=
  onNodes
    (updateL
       (fun n =>
          match n with
          | Text k s =>
              if decide (JsString.slice s offset
                           (Some (offset + JsString.length text)) = text)
              then Some [Text k (String.append
                                   (JsString.slice s 0 (Some offset))
                                   (JsString.slice s
                                      (offset + JsString.length text) None))]
              else None
          | Element _ _ _ _ => None
          end) p) doc.

(** Modelled from the spec: [resolvePath] of a point, absent from the
    sources; a null path is computed again from the key, which fails when
    the key no longer exists. *)
Definition resolvePoint (doc : Node) (p : Point) : option Point :=
  match path p, key p with
  | Some _, _ => Some p
  | None, None => Some p
  | None, Some k =>
      match getPath doc k with
      | Some q => Some (setPath (Some q) p)
      | None => None
      end
  end.

(** Modelled from the spec: [createSelection] and [createAnnotation],
    absent from the sources; the range with its points resolved against the
    document. *)
Definition createSelection (doc : Node) (r : Range) : option Range :=
  updatePoints (resolvePoint doc) r.

Definition createAnnotation (doc : Node) (r : Range) : option Range :=
  updatePoints (resolvePoint doc) r.

(** *** The class [Value] *)

Record Value := mkValue {
  document : Node;
  selection : Range;
  annotations : list (string * Range)
}.

Definition setDocument (doc : Node) (value : Value) : Value :=
  mkValue doc (selection value) (annotations value).

(** What an iterator does to one annotation; [Some None] is a null
    result, which [anns.filter] drops. *)
Definition mapAnnotation (iterator : Range -> option (option Range))
    (document : Node) (annotation : Range) : option (option Range) :=
  match (if Range_isSet annotation then iterator annotation
         else Some (Some annotation)) with
  | None => None
  | Some None => Some None
  | Some (Some n) =>
      if bool_decide (n <> annotation) then
        match createAnnotation document n with
        | Some n' => Some (Some n')
        | None => None
        end
      else Some (Some n)
  end.

Fixpoint mapAnnotations (iterator : Range -> option (option Range))
    (document : Node) (anns : list (string * Range))
  : option (list (string * Range)) :=
  match anns with
  | [] => Some []
  | (name, annotation) :: rest =>
      match mapAnnotation iterator document annotation,
            mapAnnotations iterator document rest with
      | Some n, Some rest' =>
          Some (match n with
                | Some n' => (name, n') :: rest'
                | None => rest'
                end)
      | _, _ => None
      end
  end.

Definition mapRanges (iterator : Range -> option (option Range))
    (value : Value) : option Value :=
  let document := document value in
  let selection := selection value in
  match (if Range_isSet selection then iterator selection
         else Some (Some selection)) with
  | None => None
  | Some sel =>
      let sel := match sel with
                 | Some s => s
                 | None => Range_unset selection
                 end in
      match (if bool_decide (sel <> selection)
             then createSelection document sel else Some sel) with
      | None => None
      | Some sel =>
          match mapAnnotations iterator document (annotations value) with
          | Some anns => Some (mkValue document sel anns)
          | None => None
          end
      end
  end.

Definition mapPoints (iterator : Point -> option Point) (value : Value)
  : option Value :=
  mapRanges (fun range =>
               match updatePoints iterator range with
               | Some r => Some (Some r)
               | None => None
               end) value.

(** [range.updatePoints(point => point.setPath(null))] *)
Definition invalidatePaths (range : Range) : Range :=
  mkRange (setPath None (anchor range)) (setPath None (focus range)).

(** [PathUtils.decrement]: the path of the previous sibling. *)
Definition decrement (p : Path.t) : option Path.t :=
  match last p with
  | Some (S j) => Some (removelast p ++ [j])
  | _ => None
  end.

(** The iterator of [mergeNode]. *)
Definition mergeNodeRange (one two : option Node) (range : Range)
  : option (option Range) :=
  match two with
  | None => None
  | Some (Text k2 _) =>
      match one with
      | Some (Text k1 s1) =>
          let max := JsString.length s1 in
          let range :=
            if decide (key (anchor range) = Some k2)
            then moveAnchorTo k1 (max + toNumber (offset (anchor range))) range
            else range in
          let range :=
            if decide (key (focus range) = Some k2)
            then moveFocusTo k1 (max + toNumber (offset (focus range))) range
            else range in
          Some (Some (invalidatePaths range))
      | _ => None
      end
  | Some (Element _ _ _ _) => Some (Some (invalidatePaths range))
  end.

Definition mergeNode (p : Path.t) (value : Value) : option Value :=
  let document := document value in
  match Document_mergeNode p document with
  | None => None
  | Some newDocument =>
      match decrement p with
      | None => None
      | Some withPath =>
          let one := assertNode document withPath in
          let two := assertNode document p in
          mapRanges (mergeNodeRange one two) (setDocument newDocument value)
      end
  end.

(** The iterator of [splitNode]. *)
Definition splitNodeRange (newDocument node : Node) (position : Z)
    (range : Range) : option (option Range) :=
  let next := getNextText newDocument (keyOf node) in
  let start := Range_start range in
  let end_ := Range_end range in
  let step1 :=
    if bool_decide (Some (keyOf node) = key start)
       && (position <=? toNumber (offset start))
    then match next with
         | Some next =>
             Some (moveStartTo (fst next) (toNumber (offset start) - position)
                               range)
         | None => None
         end
    else Some range in
  match step1 with
  | None => None
  | Some range =>
      let step2 :=
        if bool_decide (Some (keyOf node) = key end_)
           && (position <=? toNumber (offset end_))
        then match next with
             | Some next =>
                 Some (moveEndTo (fst next) (toNumber (offset end_) - position)
                                 range)
             | None => None
             end
        else Some range in
      match step2 with
      | None => None
      | Some range => Some (Some (invalidatePaths range))
      end
  end.

(** [newKey] is the key the key generator gives to the new sibling. *)
Definition splitNode (newKey : Key) (p : Path.t) (position : Z)
    (properties : option string) (value : Value) : option Value :=
  let document := document value in
  match Document_splitNode newKey p position properties document,
        assertNode document p with
  | Some newDocument, Some node =>
      mapRanges (splitNodeRange newDocument node position)
                (setDocument newDocument value)
  | _, _ => None
  end.

(** [prev ? move(prev.key, prev.text.length) : next ? move(next.key, 0)
    : range.unset()] *)
Definition relocate (move : Key -> Z -> Range -> Range)
    (prev next : option TextLeaf) (range : Range) : Range :=
  match prev with
  | Some prev => move (fst prev) (JsString.length (snd prev)) range
  | None =>
      match next with
      | Some next => move (fst next) 0 range
      | None => Range_unset range
      end
  end.

(** The iterator of [removeNode]. *)
Definition removeNodeRange (node : Node) (prev next : option TextLeaf)
    (range : Range) : option (option Range) :=
  let anchor := anchor range in
  let focus := focus range in
  let range :=
    if hasNode node (key anchor) then relocate moveAnchorTo prev next range
    else range in
  let range :=
    if hasNode node (key focus) then relocate moveFocusTo prev next range
    else range in
  Some (Some (invalidatePaths range)).

(** [node.object === 'text' ? node : node.getFirstText() || node] *)
Definition firstOf (node : Node) : Key :=
  match node with
  | Text k _ => k
  | Element _ k _ _ =>
      match getFirstText node with
      | Some t => fst t
      | None => k
      end
  end.

Definition lastOf (node : Node) : Key :=
  match node with
  | Text k _ => k
  | Element _ k _ _ =>
      match getLastText node with
      | Some t => fst t
      | None => k
      end
  end.

Definition removeNode (p : Path.t) (value : Value) : option Value :=
  let document := document value in
  match assertNode document p with
  | None => None
  | Some node =>
      let prev := getPreviousText document (firstOf node) in
      let next := getNextText document (lastOf node) in
      match Document_removeNode p document with
      | None => None
      | Some document =>
          mapRanges (removeNodeRange node prev next)
                    (setDocument document value)
      end
  end.

Definition moveNode (p newPath : Path.t) (newIndex : nat) (value : Value)
  : option Value :=
  if Path.eqb p newPath then Some value
  else
    match Document_moveNode p newPath newIndex (document value) with
    | None => None
    | Some document =>
        mapPoints (fun point => Some (setPath None point))
                  (setDocument document value)
    end.

(** The iterator of [removeText]. *)
Definition removeTextPoint (node : Node) (offset : Z) (text : string)
    (point : Point) : option Point :=
  let length := JsString.length text in
  let start := offset in
  let end_ := offset + length in
  if decide (key point <> Some (keyOf node)) then Some point
  else if toNumber (Legacy.offset point) >=? end_
  then Some (setOffset (toNumber (Legacy.offset point) - length) point)
  else if toNumber (Legacy.offset point) >? start
  then Some (setOffset start point)
  else Some point.

Definition removeText (p : Path.t) (offset : Z) (text : string)
    (value : Value) : option Value :=
  let document := document value in
  match assertNode document p with
  | None => None
  | Some node =>
      match Document_removeText p offset text document with
      | None => None
      | Some document =>
          mapPoints (removeTextPoint node offset text)
                    (setDocument document value)
      end
  end.

Definition setNode (p : Path.t) (properties : option string) (value : Value)
  : option Value :=
  match Document_setNode p properties (document value) with
  | None => None
  | Some document => Some (setDocument document value)
  end.

Definition insertNode (p : Path.t) (node : Node) (value : Value)
  : option Value :=
  match Document_insertNode p node (document value) with
  | None => None
  | Some document =>
      mapRanges (fun range => Some (Some (invalidatePaths range)))
                (setDocument document value)
  end.

(** The iterator of [insertText]; [point.path.equals] of a null path is
    an error. *)
Definition insertTextPoint (p : Path.t) (offset : Z) (text : string)
    (point : Point) : option Point :=
  match path point with
  | None => None
  | Some q =>
      if Path.eqb q p && (toNumber (Legacy.offset point) >=? offset)
      then Some (setOffset (toNumber (Legacy.offset point)
                            + JsString.length text) point)
      else Some point
  end.

Definition insertText (p : Path.t) (offset : Z) (text : string)
    (value : Value) : option Value :=
  match Document_insertText p offset text (document value) with
  | None => None
  | Some document =>
      mapPoints (insertTextPoint p offset text) (setDocument document value)
  end.

(** *** What the operations do to a point *)

(** Same keys and offsets, point for point; the paths may differ. *)
Definition samePlace (p q : Point) : Prop :=
  key q = key p /\ offset q = offset p.

Definition samePlaces (r r' : Range) : Prop :=
  samePlace (anchor r) (anchor r') /\ samePlace (focus r) (focus r').

(** What [splitNode] does to a point: [k] is the key of the split text,
    [k'] that of its successor. *)
Definition relocated (k k' : Key) (position : Z) (pt pt' : Point) : Prop :=
  (key pt = Some k -> position <= toNumber (offset pt) ->
   key pt' = Some k' /\ offset pt' = Some (toNumber (offset pt) - position))
  /\ (key pt = Some k -> toNumber (offset pt) < position ->
      key pt' = key pt /\ offset pt' = offset pt)
  /\ (key pt <> Some k -> key pt' = key pt /\ offset pt' = offset pt).

(** Both points of the range are on the text [k] at or after [position],
    and the range runs backward: the focus comes before the anchor. *)
Definition backwardAfter (k : Key) (position : Z) (r : Range) : Prop :=
  key (anchor r) = Some k
  /\ key (focus r) = Some k
  /\ position <= toNumber (offset (focus r))
  /\ toNumber (offset (focus r)) < toNumber (offset (anchor r)).

#[global] Instance backwardAfter_dec (k : Key) (position : Z) (r : Range) :
  Decision (backwardAfter k position r).
Proof. unfold backwardAfter. apply _. Defined.

(** Where [removeNode] puts a point that was inside the removed node: at
    the end of the previous text, else at the start of the next one. *)
Definition placedAt (prev next : option TextLeaf) (pt' : Point) : Prop :=
  match prev, next with
  | Some t, _ =>
      key pt' = Some (fst t) /\ offset pt' = Some (JsString.length (snd t))
  | None, Some t => key pt' = Some (fst t) /\ offset pt' = Some 0
  | None, None => False
  end.

(** *** Sequences of operations *)

Inductive Operation :=
| SplitNode (newKey : Key) (p : Path.t) (position : Z)
            (properties : option string)
| MergeNode (p : Path.t)
| InsertNode (p : Path.t) (node : Node)
| RemoveNode (p : Path.t)
| MoveNode (p newPath : Path.t) (newIndex : nat)
| SetNode (p : Path.t) (properties : option string)
| InsertText (p : Path.t) (offset : Z) (text : string)
| RemoveText (p : Path.t) (offset : Z) (text : string).

Definition applyOperation (op : Operation) (value : Value) : option Value :=
  match op with
  | SplitNode newKey p position properties =>
      splitNode newKey p position properties value
  | MergeNode p => mergeNode p value
  | InsertNode p node => insertNode p node value
  | RemoveNode p => removeNode p value
  | MoveNode p newPath newIndex => moveNode p newPath newIndex value
  | SetNode p properties => setNode p properties value
  | InsertText p offset text => insertText p offset text value
  | RemoveText p offset text => removeText p offset text value
  end.

Fixpoint applyOperations (ops : list Operation) (value : Value)
  : option Value :=
  match ops with
  | [] => Some value
  | op :: ops' =>
      match applyOperation op value with
      | Some value' => applyOperations ops' value'
      | None => None
      end
  end.

(** The text keys of every document met along the way are not repeated. *)
Fixpoint uniqueKeysAlong (ops : list Operation) (value : Value) : bool :=
  bool_decide (NoDup (textKeys (document value)))
  && match ops with
     | [] => true
     | op :: ops' =>
         match applyOperation op value with
         | Some value' => uniqueKeysAlong ops' value'
         | None => true
         end
     end.

(** The key of the point is that of a text of the document. *)
Definition resolves (doc : Node) (pt : Point) : Prop :=
  exists k, key pt = Some k /\ k ∈ textKeys doc.

Definition selectionResolves (value : Value) : Prop :=
  resolves (document value) (anchor (selection value))
  /\ resolves (document value) (focus (selection value)).

Definition selectionUnset (value : Value) : Prop :=
  selection value = mkRange unsetPoint unsetPoint.

(** *** A concrete document

    Two paragraphs, the first with the texts ["word"] and ["more"], the
    second with ["last"]; the selection runs backward inside the first
    text, from offset 3 to offset 1. *)

Definition sampleDocument : Node :=
  Element DocumentObject "d" ""
    [Element BlockObject "p" "paragraph"
       [Text "a" "word"; Text "b" "more"];
     Element BlockObject "q" "paragraph" [Text "c" "last"]].

Definition pointAt (k : Key) (p : Path.t) (o : Z) : Point :=
  mkPoint (Some k) (Some p) (Some o).

Definition sampleValue : Value :=
  mkValue sampleDocument
    (mkRange (pointAt "a" [0; 0]%nat 3) (pointAt "a" [0; 0]%nat 1)) [].

Definition sampleForward : Value :=
  mkValue sampleDocument
    (mkRange (pointAt "b" [0; 1]%nat 3) (pointAt "a" [0; 0]%nat 1)) [].

Definition sampleOperations : list Operation :=
  [SplitNode "n" [0; 0]%nat 2 None;
   InsertText [0; 1]%nat 0 "s";
   RemoveNode [0; 1]%nat;
   MergeNode [0; 1]%nat;
   MoveNode [1]%nat [0]%nat 0;
   SetNode [0]%nat (Some "quote"%string);
   InsertNode [2]%nat (Element BlockObject "r" "paragraph" [Text "e" ""]);
   RemoveText [1; 0]%nat 0 "wo"].

Definition afterRemoveText : Value :=
  Eval vm_compute in
    default sampleValue (removeText [0; 0]%nat 1 "or" sampleValue).

Definition afterMergeNode : Value :=
  Eval vm_compute in default sampleValue (mergeNode [0; 1]%nat sampleForward).

Definition afterSplitNode : Value :=
  Eval vm_compute in
    default sampleValue (splitNode "n" [0; 0]%nat 2 None sampleValue).

(** The selection runs backward inside the text ["word"], from offset 3
    to offset 2. *)
Definition sampleBackward : Value :=
  mkValue sampleDocument
    (mkRange (pointAt "a" [0; 0]%nat 3) (pointAt "a" [0; 0]%nat 2)) [].

Definition afterSplitBackward : Value :=
  Eval vm_compute in
    default sampleBackward (splitNode "n" [0; 0]%nat 2 None sampleBackward).

Definition afterRemoveNode : Value :=
  Eval vm_compute in default sampleValue (removeNode [0; 0]%nat sampleValue).

Definition afterOperations : Value :=
  Eval vm_compute in
    default sampleValue (applyOperations sampleOperations sampleValue).

(** *** What the operations keep *)

(** The place of a point is fresh: its path is null, or the path its key
    has in the document. *)
Definition pathFresh (doc : Node) (pt : Point) : Prop :=
  path pt = None
  \/ exists k, key pt = Some k /\ path pt = getPath doc k.

(** The path and the key of a point agree on whether the point is on the
    text with key [k] at path [p]. *)
Definition agrees (p : Path.t) (k : Key) (pt : Point) : Prop :=
  path pt = Some p <-> key pt = Some k.

(** The point is on a text of the document, at an offset within it. *)
Definition inBounds (doc : Node) (pt : Point) : Prop :=
  exists (k : Key) (s : string),
    key pt = Some k /\ (k, s) ∈ texts doc
    /\ 0 <= toNumber (offset pt) <= JsString.length s.

(** The value with the range [r] in the place of its selection. *)
Definition withSelection (r : Range) (value : Value) : Value :=
  mkValue (document value) r (annotations value).

(** The two points of the range are on texts of the document, or the
    range is unset. *)
Definition rangeRepaired (doc : Node) (r : Range) : Prop :=
  (resolves doc (anchor r) /\ resolves doc (focus r))
  \/ r = mkRange unsetPoint unsetPoint.

Definition annotationsRepaired (value : Value) : Prop :=
  forall a, a ∈ annotations value -> rangeRepaired (document value) (snd a).

(** *** Building a value *)

(** Every text leaf with its path, in document order. *)
Fixpoint textEntries (n : Node) (p : Path.t) : list (TextLeaf * Path.t) :=
  match n with
  | Text k s => [((k, s), p)]
  | Element _ _ _ cs =>
      (fix go (l : list Node) (i : nat) : list (TextLeaf * Path.t) :=
         match l with
         | [] => []
         | c :: l' => textEntries c (p ++ [i]) ++ go l' (S i)
         end) cs 0%nat
  end.

(** Modelled from the spec: [Document.firstText], absent from the sources;
    the first text of the document with its path, if there is one. *)
Definition firstText (doc : Node) : option (TextLeaf * Path.t) :=
  head (textEntries doc []).

(** Modelled from the spec: [Document.createPoint], absent from the
    sources; the point resolved against the document. *)
Definition createPoint (doc : Node) (pt : Point) : option Point :=
  resolvePoint doc pt.

(** Modelled from the spec: [Range.setPoints], absent from the sources. *)
Definition setPoints (a f : Point) (r : Range) : Range := mkRange a f.

(** [Value.fromJSON]: the arguments are the [document], [selection] and
    [annotations] of the object once [Document.fromJSON] and
    [Annotation.createMap], which are not part of the sources, have read
    them; a missing [selection] is the unset range. *)
Definition fromJSON (document : Node) (selection : Range)
    (annotations : list (string * Range)) : option Value :=
  match createSelection document selection with
  | None => None
  | Some selection =>
      let selection :=
        if Range_isSet selection then Some selection
        else
          let selection :=
            match firstText document with
            | Some (firstText, firstPath) =>
                match createPoint document
                        (mkPoint (Some (fst firstText)) (Some firstPath)
                                 (Some 0)) with
                | Some start => Some (setPoints start start selection)
                | None => None
                end
            | None => Some selection
            end in
          match selection with
          | Some selection => createSelection document selection
          | None => None
          end in
      match selection with
      | Some selection => Some (mkValue document selection annotations)
      | None => None
      end
  end.

(** *** The map of annotations

    [annotations] is an [Immutable.Map] from the key of an annotation to
    the annotation: a list of pairs with no key twice, in the order the
    keys were put in. *)

Fixpoint Map_set (k : string) (r : Range) (m : list (string * Range))
  : list (string * Range) :=
  match m with
  | [] => [(k, r)]
  | e :: m' => if decide (fst e = k) then (k, r) :: m' else e :: Map_set k r m'
  end.

Definition Map_delete (k : string) (m : list (string * Range))
  : list (string * Range) :=
  filter (fun e => fst e <> k) m.

(** [addAnnotation(annotation)]: the points are normalized against the
    document, which is modelled from the spec as resolving them. *)
Definition addAnnotation (key : string) (annotation : Range) (value : Value)
  : option Value :=
  match updatePoints (resolvePoint (document value)) annotation with
  | Some annotation =>
      Some (mkValue (document value) (selection value)
              (Map_set key annotation (annotations value)))
  | None => None
  end.

(** [removeAnnotation(annotation)] *)
Definition removeAnnotation (key : string) (value : Value) : Value :=
  mkValue (document value) (selection value)
    (Map_delete key (annotations value)).

(** *** More concrete values *)

(** A value with two annotations beside the selection of [sampleValue]. *)
Definition annotatedValue : Value :=
  mkValue sampleDocument
    (mkRange (pointAt "a" [0; 0]%nat 3) (pointAt "a" [0; 0]%nat 1))
    [("comment"%string,
      mkRange (pointAt "b" [0; 1]%nat 0) (pointAt "c" [1; 0]%nat 2));
     ("draft"%string, mkRange unsetPoint unsetPoint)].

Definition sampleBlock : Node :=
  Element BlockObject "r" "paragraph" [Text "e" ""].

Definition unsetValue : Value :=
  mkValue sampleDocument (mkRange unsetPoint unsetPoint) [].

Definition afterUnsetRemoveNode : Value :=
  Eval vm_compute in
    default sampleValue (applyOperation (RemoveNode [0; 0]%nat) unsetValue).

Definition afterInsertNode : Value :=
  Eval vm_compute in
    default sampleValue (insertNode [2]%nat sampleBlock sampleValue).

Definition afterInsertRemoveNode : Value :=
  Eval vm_compute in default sampleValue (removeNode [2]%nat afterInsertNode).


Definition afterInsertText : Value :=
  Eval vm_compute in
    default sampleValue (insertText [0; 0]%nat 2 "xy" sampleValue).

Definition afterInsertRemoveText : Value :=
  Eval vm_compute in
    default sampleValue (removeText [0; 0]%nat 2 "xy" afterInsertText).

Definition afterSplitMergeNode : Value :=
  Eval vm_compute in default sampleValue (mergeNode [0; 1]%nat afterSplitNode).

Definition afterAnnotatedMerge : Value :=
  Eval vm_compute in
    default sampleValue (mergeNode [0; 1]%nat annotatedValue).

Definition afterAnnotatedOperations : Value :=
  Eval vm_compute in
    default sampleValue (applyOperations sampleOperations annotatedValue).

Definition afterFromJSON : Value :=
  Eval vm_compute in
    default sampleValue
      (fromJSON sampleDocument (mkRange unsetPoint unsetPoint) []).

Definition afterAddAnnotation : Value :=
  Eval vm_compute in
    default sampleValue
      (addAnnotation "note"
         (mkRange (mkPoint (Some "c"%string) None (Some 1))
                  (mkPoint (Some "c"%string) None (Some 3)))
         annotatedValue).

End Legacy.

(** ** Properties of JavaScript strings *)

Module JsStringFacts.

Lemma String_length_append (a b : string) :
  String.length (String.append a b)
  = (String.length a + String.length b)%nat.
Proof. induction a as [|c a IH]; [done|]. simpl. by rewrite IH. Qed.

Lemma append_String (c : Ascii.ascii) (a b : string) :
  String.append (String c a) b = String c (String.append a b).
Proof. reflexivity. Qed.

Lemma append_empty_r (a : string) : String.append a EmptyString = a.
Proof. induction a as [|c a IH]; [done|]. by rewrite append_String, IH. Qed.

Lemma substring_0_length (s : string) :
  String.substring 0 (String.length s) s = s.
Proof. induction s as [|c s IH]; [done|]. cbn. by rewrite IH. Qed.

Lemma substring_0_0 (s : string) : String.substring 0 0 s = EmptyString.
Proof. by destruct s. Qed.

Lemma substring_split (n : nat) (s : string) :
  (n <= String.length s)%nat ->
  String.append (String.substring 0 n s)
                (String.substring n (String.length s - n) s) = s.
Proof.
  revert n. induction s as [|c s IH]; intros n Hn.
  - by destruct n.
  - destruct n as [|n].
    + simpl. by rewrite substring_0_length.
    + simpl in *. rewrite append_String, IH by lia. done.
Qed.

Lemma String_length_substring (n m : nat) (s : string) :
  (n + m <= String.length s)%nat ->
  String.length (String.substring n m s) = m.
Proof.
  revert n m. induction s as [|c s IH]; intros n m Hnm.
  - cbn in Hnm. destruct n, m; try done; lia.
  - destruct n as [|n].
    + destruct m as [|m]; [done|]. simpl in *. rewrite IH by lia. done.
    + simpl in *. apply IH. lia.
Qed.

Lemma substring_append_l (a b : string) :
  String.substring 0 (String.length a) (String.append a b) = a.
Proof.
  induction a as [|c a IH]; [by rewrite substring_0_0|]. simpl.
  by rewrite IH.
Qed.

Lemma substring_append_r (a b : string) (n m : nat) :
  String.substring (String.length a + n) m (String.append a b)
  = String.substring n m b.
Proof. induction a as [|c a IH]; [done|]. simpl. by rewrite IH. Qed.

Lemma length_nonneg (s : string) : 0 <= JsString.length s.
Proof. unfold JsString.length. lia. Qed.

Lemma length_append (a b : string) :
  JsString.length (String.append a b) = JsString.length a + JsString.length b.
Proof. unfold JsString.length. rewrite String_length_append. lia. Qed.

(** [s.slice(0, o) + s.slice(o)] is [s], whatever [o] is. *)
Lemma slice_split (s : string) (o : Z) :
  String.append (JsString.slice s 0 (Some o)) (JsString.slice s o None) = s.
Proof.
  unfold JsString.slice, JsString.length.
  assert (JsString.clampIndex (Z.of_nat (String.length s)) 0 = 0) as ->.
  { unfold JsString.clampIndex. rewrite Z.ltb_irrefl. lia. }
  assert (exists c : nat,
             JsString.clampIndex (Z.of_nat (String.length s)) o = Z.of_nat c
             /\ (c <= String.length s)%nat) as (c & -> & Hc).
  { unfold JsString.clampIndex.
    destruct (o <? 0) eqn:Ho.
    - exists (Z.to_nat (Z.max (Z.of_nat (String.length s) + o) 0)). lia.
    - apply Z.ltb_ge in Ho.
      exists (Z.to_nat (Z.min o (Z.of_nat (String.length s)))). lia. }
  rewrite Z.sub_0_r, Nat2Z.id. change (Z.to_nat 0) with 0%nat.
  replace (Z.to_nat (Z.of_nat (String.length s) - Z.of_nat c))
    with (String.length s - c)%nat by lia.
  destruct (0 <? Z.of_nat c) eqn:H0c;
    destruct (Z.of_nat c <? Z.of_nat (String.length s)) eqn:Hcl.
  - by apply substring_split.
  - apply Z.ltb_ge in Hcl. assert (c = String.length s) as -> by lia.
    rewrite substring_0_length. apply append_empty_r.
  - apply Z.ltb_ge in H0c. assert (c = 0%nat) as -> by lia.
    rewrite Nat.sub_0_r. apply substring_0_length.
  - apply Z.ltb_ge in H0c, Hcl.
    assert (String.length s = 0%nat) as Hs by lia.
    by destruct s.
Qed.

Lemma length_slice_prefix (s : string) (o : Z) :
  0 <= o <= JsString.length s ->
  JsString.length (JsString.slice s 0 (Some o)) = o.
Proof.
  intros Ho. unfold JsString.slice, JsString.clampIndex, JsString.length in *.
  rewrite Z.ltb_irrefl.
  assert ((o <? 0) = false) as -> by (apply Z.ltb_ge; lia).
  rewrite !Z.min_l by lia. rewrite Z.sub_0_r.
  destruct (0 <? o) eqn:H0.
  - rewrite String_length_substring; lia.
  - apply Z.ltb_ge in H0. simpl. lia.
Qed.

Lemma length_slice_suffix (s : string) (o : Z) :
  0 <= o <= JsString.length s ->
  JsString.length (JsString.slice s o None) = JsString.length s - o.
Proof.
  intros Ho.
  pose proof (f_equal JsString.length (slice_split s o)) as Hsplit.
  rewrite length_append, length_slice_prefix in Hsplit by done.
  unfold JsString.length in *. lia.
Qed.

(** The three parts of [a + t + b], cut at [a.length] and at
    [a.length + t.length]. *)
Lemma slice_append_prefix (a b : string) :
  JsString.slice (String.append a b) 0 (Some (JsString.length a)) = a.
Proof.
  unfold JsString.slice, JsString.clampIndex, JsString.length.
  rewrite Z.ltb_irrefl.
  assert ((Z.of_nat (String.length a) <? 0) = false) as ->
    by (apply Z.ltb_ge; lia).
  rewrite String_length_append, !Z.min_l by lia. rewrite Z.sub_0_r.
  destruct (0 <? Z.of_nat (String.length a)) eqn:H0.
  - rewrite Nat2Z.id. apply substring_append_l.
  - apply Z.ltb_ge in H0. destruct a; [done|]. simpl in H0. lia.
Qed.

Lemma append_inj_r (a x y : string) :
  String.append a x = String.append a y -> x = y.
Proof.
  induction a as [|c a IH]; [done|]. rewrite !append_String.
  intros [= H]. by apply IH.
Qed.

Lemma slice_append_suffix (a b : string) :
  JsString.slice (String.append a b) (JsString.length a) None = b.
Proof.
  pose proof (slice_split (String.append a b) (JsString.length a)) as Hs.
  rewrite slice_append_prefix in Hs. by apply append_inj_r in Hs.
Qed.

Lemma slice_append_middle (a t b : string) :
  JsString.slice (String.append a (String.append t b))
    (JsString.length a) (Some (JsString.length a + JsString.length t)) = t.
Proof.
  unfold JsString.slice, JsString.clampIndex, JsString.length.
  assert ((Z.of_nat (String.length a) <? 0) = false) as ->
    by (apply Z.ltb_ge; lia).
  assert ((Z.of_nat (String.length a) + Z.of_nat (String.length t) <? 0)
          = false) as -> by (apply Z.ltb_ge; lia).
  rewrite !String_length_append, !Z.min_l by lia.
  destruct (_ <? _) eqn:Hlt.
  - replace (Z.to_nat (Z.of_nat (String.length a) + Z.of_nat (String.length t)
                       - Z.of_nat (String.length a)))
      with (String.length t) by lia.
    rewrite Nat2Z.id.
    replace (String.length a) with (String.length a + 0)%nat at 1 by lia.
    rewrite substring_append_r. apply substring_append_l.
  - apply Z.ltb_ge in Hlt. destruct t; [done|]. simpl in Hlt. lia.
Qed.

(** When [text] is the slice of [s] from [o >= 0], taking it out shortens
    [s] by [text.length], and a text that is not empty lies within [s]. *)
Lemma slice_removed (s text : string) (o : Z) :
  0 <= o ->
  JsString.slice s o (Some (o + JsString.length text)) = text ->
  JsString.length
    (String.append (JsString.slice s 0 (Some o))
                   (JsString.slice s (o + JsString.length text) None))
  = JsString.length s - JsString.length text
  /\ (0 < JsString.length text ->
      o + JsString.length text <= JsString.length s).
Proof.
  intros Ho Hslice.
  pose proof (length_nonneg s) as Hs. pose proof (length_nonneg text) as Ht.
  assert (0 < JsString.length text ->
          o + JsString.length text <= JsString.length s) as Hin.
  { clear Hs Ht. intros Hpos.
    pose proof (f_equal String.length Hslice) as Hlen.
    unfold JsString.slice, JsString.clampIndex, JsString.length in *.
    assert ((o <? 0) = false) as Ho' by (apply Z.ltb_ge; lia).
    assert ((o + Z.of_nat (String.length text) <? 0) = false) as Ho''
      by (apply Z.ltb_ge; lia).
    rewrite Ho', Ho'' in Hlen.
    destruct (_ <? _) eqn:Hlt in Hlen.
    - apply Z.ltb_lt in Hlt.
      rewrite String_length_substring in Hlen by lia. lia.
    - simpl in Hlen. lia. }
  split; [|exact Hin].
  destruct (decide (0 < JsString.length text)) as [Hpos|Hzero].
  - specialize (Hin Hpos).
    rewrite length_append, length_slice_prefix, length_slice_suffix
      by (unfold JsString.length in *; lia).
    unfold JsString.length in *. lia.
  - assert (JsString.length text = 0) as ->
      by (unfold JsString.length in *; lia).
    rewrite Z.add_0_r, slice_split. lia.
Qed.

End JsStringFacts.

(** ** Properties of the editor queries *)

Module QueriesFacts.

Import Queries.

Section MarksFacts.

Context {Mark : Type} `{EqDecision Mark}.

(** [Node.texts] is not part of the sources: the properties hold for
    every such function, and for every choice of frozen arrays. *)
Variable Node_texts : Value -> TextsOptions -> list TextEntry.
Variable frozen : loc -> bool.

Local Abbreviation heap := (list (list Mark)).

(** *** The store under the two passes *)

Lemma deref_lookup (h : heap) (l : loc) (ms : list Mark) :
  h !! l = Some ms -> deref h l = ms.
Proof. intros Hl. unfold deref. by apply list_lookup_total_correct. Qed.

Lemma alloc_lookup_old (h : heap) (l : loc) (ms : list Mark) :
  h !! l = Some ms -> snd (alloc h) !! l = Some ms.
Proof.
  intros Hl. unfold alloc, Queries.heap in *. cbn [snd].
  rewrite lookup_app_l; [done|]. by eapply lookup_lt_Some.
Qed.

Lemma alloc_lookup_new (h : heap) :
  snd (alloc h) !! fst (alloc h) = Some [].
Proof.
  unfold alloc, Queries.heap in *. cbn [fst snd].
  rewrite lookup_app_r; [|lia]. by rewrite Nat.sub_diag.
Qed.

(** A mark taken from [marks] always exists in [marks]: the union pass
    never pushes, whatever the two arrays are. *)
Lemma unionPass_noop (fuel i : nat) (result marks : loc) (h : heap) :
  (length (deref h marks) - i <= fuel)%nat ->
  unionPass frozen fuel i result marks h = Ok h.
Proof.
  revert i. induction fuel as [|fuel IH]; intros i Hfuel; simpl.
  - destruct (deref h marks !! i) as [mark|] eqn:Hi; [|done].
    apply lookup_lt_Some in Hi. lia.
  - destruct (deref h marks !! i) as [mark|] eqn:Hi; [|done].
    assert (Mark_exists mark (deref h marks) = true) as ->.
    { apply bool_decide_eq_true. eapply list_elem_of_lookup_2. exact Hi. }
    apply IH. lia.
Qed.

(** In union mode the loop returns the array of the first text node,
    and the store as it found it. *)
Lemma marksLoop_union (entries : list TextEntry) (first : bool)
    (result : loc) (h : heap) :
  marksLoop frozen true entries first result h
  = Ok (match entries with
        | e :: _ => if first then marks (fst e) else result
        | [] => result
        end, h).
Proof.
  revert first result. induction entries as [|[node p] rest IH];
    intros first result; simpl; [done|].
  destruct first.
  - rewrite IH. by destruct rest.
  - rewrite unionPass_noop by lia. rewrite IH. by destruct rest.
Qed.

(** The intersection of [[A; B]] with [[B; C]] takes [A] out of the first
    array with [splice], which a frozen array refuses. *)
Lemma intersectPass_two (A B C : Mark) (l1 l2 : loc) (h : heap) :
  h !! l1 = Some [A; B] ->
  h !! l2 = Some [B; C] ->
  A <> B -> A <> C -> B <> C ->
  intersectPass frozen 2 l1 l2 h
  = if frozen l1 then None else Some (<[l1 := [B]]> h).
Proof.
  intros H1 H2 HAB HAC HBC.
  assert (l1 <> l2) as Hne by (intros ->; congruence).
  simpl. rewrite (deref_lookup _ _ _ H1), (deref_lookup _ _ _ H2). simpl.
  assert (Mark_exists B [B; C] = true) as ->.
  { apply bool_decide_eq_true. apply list_elem_of_here. }
  assert (Mark_exists A [B; C] = false) as ->.
  { apply bool_decide_eq_false. rewrite !elem_of_cons, elem_of_nil. tauto. }
  unfold splice1. destruct (frozen l1); [done|].
  by rewrite (deref_lookup _ _ _ H1).
Qed.

Lemma marksLoop_intersect_two (A B C : Mark) (t1 t2 : Text)
    (p1 p2 : Path.t) (result : loc) (h : heap) :
  h !! marks t1 = Some [A; B] ->
  h !! marks t2 = Some [B; C] ->
  A <> B -> A <> C -> B <> C ->
  marksLoop frozen false [(t1, p1); (t2, p2)] true result h
  = if frozen (marks t1) then Throw
    else Ok (marks t1, <[marks t1 := [B]]> h).
Proof.
  intros H1 H2 HAB HAC HBC. cbn [marksLoop negb andb].
  rewrite (deref_lookup _ _ _ H1). cbn [length Nat.eqb].
  rewrite (intersectPass_two A B C) by done.
  by destruct (frozen (marks t1)).
Qed.

(** *** [getActiveMarks] *)

(** C9.  With no selection ([selection == null]) [getActiveMarks] returns,
    for either [union] option and without raising an error, a fresh empty
    array of marks; every array of the store is as it was. *)
Theorem getActiveMarks_no_selection (union : bool) (ns : list Node) (h : heap) :
  exists (l : loc) (h' : heap),
    getActiveMarks Node_texts frozen union (mkValue ns None) h = Ok (l, h')
    /\ h' !! l = Some []
    /\ forall l' ms, h !! l' = Some ms -> h' !! l' = Some ms.
Proof.
  exists (fst (alloc h)), (snd (alloc h)). split; [reflexivity|]. split.
  - apply alloc_lookup_new.
  - intros l' ms. apply alloc_lookup_old.
Qed.

(** C1.  On a non-collapsed selection without explicit marks whose range
    spans two text nodes with marks [[A; B]] and [[B; C]], the code with
    [union: true] returns [[A; B]], the marks of the first node, not the
    union [[A; B; C]]: the inner loop asks [Mark.exists(mark, marks)] of the
    array it takes [mark] from, so nothing is ever pushed.  With
    [union: false] it returns the intersection [[B]], unless the array of
    the first node is frozen: the [splice] that takes [A] out of it is then
    a [TypeError]. *)
Theorem getActiveMarks_two_nodes
    (v : Value) (sel : Range) (t1 t2 : Text) (p1 p2 : Path.t)
    (A B C : Mark) (h : heap) :
  selection v = Some sel ->
  range_marks sel = None ->
  Range_isCollapsed sel = false ->
  Node_texts v (mkTextsOptions None (Some sel) false) = [(t1, p1); (t2, p2)] ->
  h !! marks t1 = Some [A; B] ->
  h !! marks t2 = Some [B; C] ->
  A <> B -> A <> C -> B <> C ->
  (exists (l : loc) (h' : heap),
      getActiveMarks Node_texts frozen true v h = Ok (l, h')
      /\ h' !! l = Some [A; B])
  /\ (if frozen (marks t1)
      then getActiveMarks Node_texts frozen false v h = Throw
      else exists (l : loc) (h' : heap),
          getActiveMarks Node_texts frozen false v h = Ok (l, h')
          /\ h' !! l = Some [B]).
Proof.
  intros Hsel Hm Hcol Htexts H1 H2 HAB HAC HBC.
  unfold getActiveMarks. rewrite Hsel, Hm.
  destruct (alloc h) as [result h1] eqn:Halloc.
  assert (h1 = snd (alloc h)) as Hh1 by (by rewrite Halloc).
  unfold marksRange. rewrite Hcol. cbn [andb]. rewrite Htexts. split.
  - exists (marks t1), h1. rewrite marksLoop_union. split; [done|].
    rewrite Hh1. by apply alloc_lookup_old.
  - rewrite (marksLoop_intersect_two A B C);
      try (rewrite Hh1; by apply alloc_lookup_old); try done.
    destruct (frozen (marks t1)); [done|].
    exists (marks t1), (<[marks t1 := [B]]> h1).
    split; [done|]. unfold Queries.heap in *. apply list_lookup_insert_eq.
    rewrite Hh1. eapply lookup_lt_Some. by apply alloc_lookup_old.
Qed.

(** C5.  [getActiveMarks] is not read-only: [result = marks] makes the
    result an alias of the first text node's array, and the intersection
    [splice]s it.  On two text nodes with marks [[A; B]] and [[B; C]] the
    call with [union: false] leaves the first text node of the document
    with the marks [[B]]; when the array of that node is frozen, the
    [splice] is a [TypeError] and the call does not return. *)
Theorem getActiveMarks_intersection_mutates_tree
    (v : Value) (sel : Range) (t1 t2 : Text) (p1 p2 : Path.t)
    (A B C : Mark) (h : heap) :
  selection v = Some sel ->
  range_marks sel = None ->
  Range_isCollapsed sel = false ->
  Node_texts v (mkTextsOptions None (Some sel) false) = [(t1, p1); (t2, p2)] ->
  h !! marks t1 = Some [A; B] ->
  h !! marks t2 = Some [B; C] ->
  A <> B -> A <> C -> B <> C ->
  if frozen (marks t1)
  then getActiveMarks Node_texts frozen false v h = Throw
  else exists (l : loc) (h' : heap),
      getActiveMarks Node_texts frozen false v h = Ok (l, h')
      /\ deref h (marks t1) = [A; B]
      /\ deref h' (marks t1) = [B].
Proof.
  intros Hsel Hm Hcol Htexts H1 H2 HAB HAC HBC.
  unfold getActiveMarks. rewrite Hsel, Hm.
  destruct (alloc h) as [result h1] eqn:Halloc.
  assert (h1 = snd (alloc h)) as Hh1 by (by rewrite Halloc).
  unfold marksRange. rewrite Hcol. cbn [andb]. rewrite Htexts.
  rewrite (marksLoop_intersect_two A B C);
    try (rewrite Hh1; by apply alloc_lookup_old); try done.
  destruct (frozen (marks t1)); [done|].
  exists (marks t1), (<[marks t1 := [B]]> h1).
  split; [done|]. split; [by apply deref_lookup|].
  apply deref_lookup. unfold Queries.heap in *. apply list_lookup_insert_eq.
  rewrite Hh1. eapply lookup_lt_Some. by apply alloc_lookup_old.
Qed.

End MarksFacts.

(** No array of the store is frozen: plain objects. *)
Lemma getActiveMarks_two_nodes_witness :
  (exists (l : loc) (h' : list (list string)),
      getActiveMarks Node_texts_spec notFrozen true markedTexts markedStore
      = Ok (l, h')
      /\ h' !! l = Some ["bold"; "italic"]%string)
  /\ (exists (l : loc) (h' : list (list string)),
      getActiveMarks Node_texts_spec notFrozen false markedTexts markedStore
      = Ok (l, h')
      /\ h' !! l = Some ["italic"]%string).
Proof.
  apply (getActiveMarks_two_nodes Node_texts_spec notFrozen markedTexts
           (mkRange (mkPoint [0; 0]%nat 0) (mkPoint [0; 1]%nat 1) None)
           (mkText "a" 0%nat) (mkText "b" 1%nat) [0; 0]%nat [0; 1]%nat
           "bold"%string "italic"%string "code"%string markedStore);
    first [ by vm_compute | reflexivity ].
Defined.

Lemma getActiveMarks_intersection_mutates_tree_witness :
  exists (l : loc) (h' : list (list string)),
    getActiveMarks Node_texts_spec notFrozen false markedTexts markedStore
    = Ok (l, h')
    /\ deref markedStore 0%nat = ["bold"; "italic"]%string
    /\ deref h' 0%nat = ["italic"]%string.
Proof.
  apply (getActiveMarks_intersection_mutates_tree Node_texts_spec notFrozen
           markedTexts
           (mkRange (mkPoint [0; 0]%nat 0) (mkPoint [0; 1]%nat 1) None)
           (mkText "a" 0%nat) (mkText "b" 1%nat) [0; 0]%nat [0; 1]%nat
           "bold"%string "italic"%string "code"%string markedStore);
    first [ by vm_compute | reflexivity ].
Defined.

(** *** When the generator ends *)

Section PositionsFacts.

Variable Node_texts : Value -> TextsOptions -> list TextEntry.
Variable getCharacterDistance : string -> Z.
Variable getWordDistance : string -> Z.

Local Abbreviation travel' :=
  (travel Node_texts getCharacterDistance getWordDistance).
Local Abbreviation positionsBody' :=
  (positionsBody Node_texts getCharacterDistance getWordDistance).
Local Abbreviation positionsLoop' :=
  (positionsLoop Node_texts getCharacterDistance getWordDistance).

Lemma travel_not_break (unit : Unit) (reverse : bool) (v : Value)
    (p : Path.t) (o : Z) (closestBlock : option ElementEntry) (point : Point) :
  after (travel' unit reverse v p o closestBlock point) <> Break.
Proof.
  unfold travel. destruct (Node_leaf v p); [|discriminate].
  destruct (Path.relative p _); discriminate.
Qed.

Lemma skipStep_None (reverse : bool) (v : Value) (skipPath : option Path.t) :
  skipStep reverse v skipPath = None
  <-> exists sp, skipPath = Some sp
        /\ (if reverse then getPreviousText v sp else getNextText v sp) = None.
Proof.
  unfold skipStep. split.
  - destruct skipPath as [sp|]; [|discriminate]. intros Hs. exists sp.
    split; [done|].
    destruct (if reverse then getPreviousText v sp else getNextText v sp)
      as [[textNode textPath]|]; [discriminate|done].
  - intros (sp & -> & ->). done.
Qed.

Lemma positionsBody_break (unit : Unit) (reverse : bool) (v : Value)
    (point : Point) :
  after (positionsBody' unit reverse v point) = Break
  <-> noFurtherText reverse v point.
Proof.
  unfold positionsBody, noFurtherText. split.
  - destruct (getFurthestVoid v (path point)) as [fv|]; [|discriminate].
    destruct (getClosestBlock v (path point)) as [cb|]; [|discriminate].
    destruct (skipStep reverse v (skipPathOf reverse v point fv cb))
      as [skipped|] eqn:Hskip.
    + cbn [after]. intros Habs. by apply travel_not_break in Habs.
    + intros _. apply skipStep_None in Hskip as (sp & Hsp & Hnone).
      by exists fv, cb, sp.
  - intros (fv & cb & sp & -> & -> & Hsp & Hnone).
    assert (skipStep reverse v (skipPathOf reverse v point fv cb) = None)
      as -> by (apply skipStep_None; by exists sp).
    done.
Qed.

Lemma positionsLoop_not_finished (reverse : bool) (v : Value) :
  (forall point, ~ noFurtherText reverse v point) ->
  forall (fuel : nat) (unit : Unit) (point : Point),
    snd (positionsLoop' fuel unit reverse v point) <> Finished.
Proof.
  intros Hfurther fuel unit. induction fuel as [|fuel IH]; intros point.
  - discriminate.
  - cbn [positionsLoop].
    destruct (after (positionsBody' unit reverse v point))
      as [|next|] eqn:Hafter.
    + apply positionsBody_break in Hafter. by apply Hfurther in Hafter.
    + cbn [snd]. apply IH.
    + discriminate.
Qed.

(** In [voidDocument] the only path to skip is that of the void element,
    and the text ["b"] follows it. *)
Lemma voidDocument_further_text (inline : bool) (point : Point) :
  ~ noFurtherText false (voidDocument inline) point.
Proof.
  intros (fv & cb & sp & Hfv & Hcb & Hsp & Hnone).
  destruct point as [p o]. cbn [path] in *.
  unfold getFurthestVoid, getClosestBlock in *.
  destruct (levels (nodes (voidDocument inline)) [] p) as [l|] eqn:Hl;
    [|done].
  injection Hfv as <-. injection Hcb as <-.
  assert (In l [ [];
                 [(TextNode (mkText "a" 0%nat), [0%nat])];
                 [(ElementNode [TextNode (mkText "" 1%nat)] inline true,
                   [1%nat])];
                 [(ElementNode [TextNode (mkText "" 1%nat)] inline true,
                   [1%nat]);
                  (TextNode (mkText "" 1%nat), [1%nat; 0%nat])];
                 [(TextNode (mkText "b" 2%nat), [2%nat])] ]) as Hcases.
  { destruct p as [|i p]; [injection Hl as <-; cbn; tauto|].
    cbn in Hl.
    destruct i as [|[|[|i]]]; cbn in Hl.
    - destruct p; [|done]. injection Hl as <-. cbn; tauto.
    - destruct p as [|j p].
      + injection Hl as <-. cbn; tauto.
      + cbn in Hl. destruct j as [|j]; cbn in Hl; [|done].
        destruct p; [|done]. injection Hl as <-. cbn; tauto.
    - destruct p; [|done]. injection Hl as <-. cbn; tauto.
    - done. }
  cbn [In] in Hcases.
  destruct inline;
    repeat (destruct Hcases as [<-|Hcases];
            [vm_compute in Hsp; try discriminate|]);
    try done.
  all: injection Hsp as <-; by vm_compute in Hnone.
Qed.

(** C2.  On the document [[Text "a", Void, Text "b"]] the generator never
    finishes, whatever [Node.texts] and the distance functions are and
    whether the void is an inline or a block: the texts ["a"] and ["b"]
    have no closest block, so the only skip is over the void, beyond which
    the text ["b"] always lies, and the [break] is never reached.  The
    sequence is not one of exactly three points. *)
Theorem positions_voidDocument_never_finishes (inline : bool) (fuel : nat) :
  snd (positions Node_texts getCharacterDistance getWordDistance
         fuel (voidDocument inline) (Some (mkPoint [0%nat] 0))
         UnitCharacter false)
  <> Finished.
Proof.
  cbn [positions]. apply positionsLoop_not_finished.
  apply voidDocument_further_text.
Qed.

End PositionsFacts.

(** *** A block with one text

    Away from the end of the block a turn of the loop yields twice: the
    point one offset further, then, from the loop over the texts, the
    point at [d - t] of the same text, one offset before the place the
    turn started from. *)
Lemma singleBlock_turn (o : Z) :
  o <= 1 ->
  positionsBody Node_texts_spec asciiCharacterDistance asciiWordDistance
    UnitOffset false singleBlock (mkPoint [0; 0]%nat o)
  = mkIteration [mkPoint [0; 0]%nat (o + 1); mkPoint [0; 0]%nat (o - 1)]
                (Next (mkPoint [0; 0]%nat (o - 1))).
Proof.
  intros Ho. unfold positionsBody. cbn [path offset].
  change (getFurthestVoid singleBlock [0; 0]%nat)
    with (Some (@None ElementEntry)).
  change (getClosestBlock singleBlock [0; 0]%nat)
    with (Some (Some (ElementNode [TextNode (mkText "ab" 0%nat)] false false,
                      [0%nat]))).
  cbv beta iota.
  unfold skipPathOf. cbn [negb andb orb].
  assert (isAtEndOfPath singleBlock (mkPoint [0; 0]%nat o) [0%nat] = false)
    as ->.
  { change (isAtEndOfPath singleBlock (mkPoint [0; 0]%nat o) [0%nat])
      with (true && (o =? 2)). cbn [andb]. apply Z.eqb_neq. lia. }
  cbn [orb skipStep option_list default app].
  unfold travel.
  change (Node_leaf singleBlock [0; 0]%nat) with (Some (mkText "ab" 0%nat)).
  cbv beta iota. cbn [fst snd].
  change (Path.relative [0; 0]%nat [0%nat]) with (Some [0%nat]).
  cbv beta iota zeta. cbn [negb andb orb distance text].
  change (JsString.length "ab") with 2.
  change (Node_texts_spec singleBlock
            (mkTextsOptions (Some [0; 0]%nat) None false))
    with [(mkText "ab" 0%nat, [0; 0]%nat)].
  assert ((o + 1 <=? 2) = true) as -> by (apply Z.leb_le; lia).
  cbn [orb textsPass text path].
  change (JsString.length "ab") with 2.
  assert ((2 - o + 2 >=? 1) = true) as ->
      by (rewrite Z.geb_leb; apply Z.leb_le; lia).
  cbn [fst snd app].
  replace (1 - (2 - o)) with (o - 1) by lia. reflexivity.
Qed.

Lemma flat_map_seq_S {A : Type} (f : nat -> list A) (n : nat) :
  flat_map f (seq 1 n) = flat_map (fun i => f (S i)) (seq 0 n).
Proof.
  rewrite <- seq_shift. induction (seq 0 n) as [|i l IH]; [done|].
  cbn [map flat_map]. by rewrite IH.
Qed.

Lemma singleBlock_loop (n : nat) (o : Z) :
  o <= 1 ->
  positionsLoop Node_texts_spec asciiCharacterDistance asciiWordDistance
    n UnitOffset false singleBlock (mkPoint [0; 0]%nat o)
  = (flat_map (fun i : nat =>
                 [mkPoint [0; 0]%nat (o + 1 - Z.of_nat i);
                  mkPoint [0; 0]%nat (o - 1 - Z.of_nat i)]) (seq 0 n),
     Suspended (mkPoint [0; 0]%nat (o - Z.of_nat n))).
Proof.
  revert o. induction n as [|n IH]; intros o Ho.
  - cbn. by rewrite Z.sub_0_r.
  - cbn [positionsLoop]. rewrite singleBlock_turn by done.
    cbn [after yielded].
    rewrite IH by lia. cbn [fst snd seq flat_map].
    rewrite flat_map_seq_S. f_equal.
    + cbn [app Z.of_nat]. rewrite !Z.sub_0_r. do 2 f_equal.
      apply flat_map_ext. intros i.
      replace (o - 1 + 1 - Z.of_nat i) with (o + 1 - Z.of_nat (S i)) by lia.
      replace (o - 1 - 1 - Z.of_nat i) with (o - 1 - Z.of_nat (S i)) by lia.
      done.
    + do 2 f_equal. lia.
Qed.

(** C3.  The sequence is neither finite nor free of repetitions.  On one
    block with the text ["ab"], from the start and by offsets, the yield
    of the moved point is not followed by [continue]: the loop over the
    texts of the same turn yields once more, at [d - t] of the same text.
    The generator yields the offsets 1, -1, 0, -2, -1, -3, ...: after [n]
    turns it has yielded [2 * n] positions on a document of two characters
    and stands at offset [- n], it never finishes, and it has yielded the
    position at offset -1 twice within its first three turns. *)
Theorem positions_singleBlock_never_finishes (n : nat) :
  positionsSpec n singleBlock None UnitOffset false
  = (flat_map (fun i : nat =>
                 [mkPoint [0; 0]%nat (1 - Z.of_nat i);
                  mkPoint [0; 0]%nat (-1 - Z.of_nat i)]) (seq 0 n),
     Suspended (mkPoint [0; 0]%nat (- Z.of_nat n)))
  /\ fst (positionsSpec 3 singleBlock None UnitOffset false)
     = [mkPoint [0; 0]%nat 1; mkPoint [0; 0]%nat (-1);
        mkPoint [0; 0]%nat 0; mkPoint [0; 0]%nat (-2);
        mkPoint [0; 0]%nat (-1); mkPoint [0; 0]%nat (-3)]
  /\ JsString.length (Node_text (root singleBlock)) = 2.
Proof.
  split; [|by vm_compute].
  unfold positionsSpec, positions.
  change (Node_texts_spec singleBlock (mkTextsOptions None None false))
    with [(mkText "ab" 0%nat, [0; 0]%nat)].
  cbv beta iota. rewrite singleBlock_loop by lia. done.
Qed.

(** *** More about [getActiveMarks] *)

Section MarksMore.

Context {Mark : Type} `{EqDecision Mark}.
Variable Node_texts : Value -> TextsOptions -> list TextEntry.
Variable frozen : loc -> bool.

Local Abbreviation heap := (list (list Mark)).

Lemma deref_alloc (h : heap) (l : loc) :
  deref (snd (alloc h)) l = deref h l.
Proof.
  unfold deref, alloc, Queries.heap. cbn [snd].
  destruct (decide (l < length h)%nat) as [Hlt|Hge].
  - by rewrite lookup_total_app_l.
  - rewrite lookup_total_app_r by lia.
    rewrite (list_lookup_total_alt h), (proj2 (lookup_ge_None h l)) by lia.
    cbn. by destruct (l - length h)%nat as [|[|n]].
Qed.

(** X1.  With [union: true] the call returns the marks array of the first
    text node of the range itself, or a fresh empty array when the range
    has no text, and changes no array of the store, however many text
    nodes the range has and whichever arrays are frozen. *)
Theorem getActiveMarks_union_returns_first_marks
    (v : Value) (sel range : Range) (h : heap) :
  selection v = Some sel ->
  range_marks sel = None ->
  marksRange v sel = Ok range ->
  getActiveMarks Node_texts frozen true v h
  = Ok (match Node_texts v (mkTextsOptions None (Some range) false) with
        | e :: _ => marks (fst e)
        | [] => length h
        end, h ++ [[]]).
Proof.
  intros Hsel Hmarks Hrange. unfold getActiveMarks.
  rewrite Hsel, Hmarks. cbn [alloc]. rewrite Hrange.
  by rewrite marksLoop_union.
Qed.

Lemma take_delete_here {A : Type} (l : list A) (i : nat) :
  (i <= length l)%nat -> take i (delete i l) = take i l.
Proof.
  intros Hi. rewrite delete_take_drop.
  rewrite take_app_le by (rewrite length_take; lia).
  rewrite take_take. f_equal. lia.
Qed.

Lemma drop_delete_here {A : Type} (l : list A) (i : nat) :
  (i <= length l)%nat -> drop i (delete i l) = drop (S i) l.
Proof.
  intros Hi. rewrite delete_take_drop.
  rewrite drop_app_ge by (rewrite length_take; lia).
  rewrite length_take. replace (i - i `min` length l)%nat with 0%nat by lia.
  done.
Qed.

(** One pass of the intersection on an array that is not frozen keeps, in
    their order, the marks of [result] that exist in [marks], and touches
    no other array. *)
Lemma intersectPass_filter (n : nat) (result marks : loc) (h : heap) :
  frozen result = false ->
  result <> marks ->
  (result < length h)%nat ->
  (n <= length (deref h result))%nat ->
  intersectPass frozen n result marks h
  = Some (<[result := filter (fun m => m ∈ deref h marks)
                             (take n (deref h result))
                      ++ drop n (deref h result)]> h).
Proof.
  intros Hplain Hne Hlt. revert h Hlt.
  induction n as [|i IH]; intros h Hlt Hn.
  - cbn [intersectPass take filter app drop]. unfold deref. f_equal.
    symmetry. apply list_insert_id. by apply list_lookup_lookup_total_lt.
  - cbn [intersectPass].
    destruct (deref h result !! i) as [existing|] eqn:Hi.
    2: { apply lookup_ge_None in Hi. lia. }
    rewrite (take_S_r _ _ _ Hi), filter_app, filter_cons, filter_nil.
    unfold Mark_exists.
    destruct (decide (existing ∈ deref h marks)) as [Hin|Hout].
    + rewrite bool_decide_eq_true_2 by done.
      rewrite IH by (done || lia). rewrite <- app_assoc. cbn [app].
      by rewrite (drop_S _ _ _ Hi).
    + rewrite bool_decide_eq_false_2 by done.
      unfold splice1. rewrite Hplain.
      match goal with
      | |- context [intersectPass _ _ _ _ ?x] => set (h1 := x)
      end.
      assert (deref h1 result = delete i (deref h result)) as Hres.
      { unfold h1, deref. apply list_lookup_total_insert_eq. done. }
      assert (deref h1 marks = deref h marks) as Hmarks.
      { unfold h1, deref. by apply list_lookup_total_insert_ne. }
      rewrite (IH h1).
      * rewrite Hres, Hmarks. unfold h1, Queries.heap in *.
        rewrite list_insert_insert_eq. do 2 f_equal.
        rewrite take_delete_here, drop_delete_here, app_nil_r by lia.
        done.
      * unfold h1, Queries.heap in *. by rewrite length_insert.
      * rewrite Hres, length_delete by done. lia.
Qed.

Lemma deref_frame (h h' : heap) (l : loc) :
  h' !! l = h !! l -> deref h' l = deref h l.
Proof.
  intros Hl. unfold deref, Queries.heap. rewrite !list_lookup_total_alt.
  f_equal. exact Hl.
Qed.

Lemma intersectPass_self (n : nat) (result : loc) (h : heap) :
  intersectPass frozen n result result h = Some h.
Proof.
  induction n as [|i IH]; [done|]. cbn [intersectPass].
  destruct (deref h result !! i) as [existing|] eqn:Hi; [|done].
  unfold Mark_exists. rewrite bool_decide_eq_true_2; [done|].
  by eapply list_elem_of_lookup_2.
Qed.

(** One pass of the intersection on a frozen array goes through when
    there is nothing to take out, and raises the error of [splice]
    otherwise; the store is as it was. *)
Lemma intersectPass_frozen (n : nat) (result marks : loc) (h : heap) :
  frozen result = true ->
  (n <= length (deref h result))%nat ->
  intersectPass frozen n result marks h
  = if decide (Forall (fun m => m ∈ deref h marks) (take n (deref h result)))
    then Some h else None.
Proof.
  intros Hfrozen. induction n as [|i IH]; intros Hn.
  - cbn [intersectPass take]. by rewrite decide_True.
  - cbn [intersectPass].
    destruct (deref h result !! i) as [existing|] eqn:Hi.
    2: { apply lookup_ge_None in Hi. lia. }
    rewrite (take_S_r _ _ _ Hi). unfold Mark_exists.
    destruct (decide (existing ∈ deref h marks)) as [Hin|Hout].
    + rewrite bool_decide_eq_true_2 by done. rewrite IH by lia.
      destruct (decide (Forall _ (take i _))) as [Hall|Hnot].
      * rewrite decide_True; [done|].
        apply Forall_app. split; [done|].
        by apply (Forall_singleton (fun m => m ∈ deref h marks)).
      * rewrite decide_False; [done|].
        intros Hall. apply Hnot. by apply Forall_app in Hall as [? _].
    + rewrite bool_decide_eq_false_2 by done.
      unfold splice1. rewrite Hfrozen.
      rewrite decide_False; [done|].
      intros Hall. apply Forall_app in Hall as [_ Hall].
      apply Hout. by apply (Forall_singleton (fun m => m ∈ deref h marks)).
Qed.

Lemma filter_ext_in {A : Type} (P Q : A -> Prop)
    `{!forall x, Decision (P x)} `{!forall x, Decision (Q x)} (l : list A) :
  (forall x, x ∈ l -> (P x <-> Q x)) -> filter P l = filter Q l.
Proof.
  induction l as [|x l IH]; intros Hext; [done|].
  rewrite !filter_cons.
  rewrite IH by (intros y Hy; apply Hext; by apply list_elem_of_further).
  destruct (decide (P x)) as [HP|HP], (decide (Q x)) as [HQ|HQ]; try done.
  - exfalso. apply HQ, Hext; [apply list_elem_of_here|done].
  - exfalso. apply HP, Hext; [apply list_elem_of_here|done].
Qed.

Lemma filter_all {A : Type} (P : A -> Prop) `{!forall x, Decision (P x)}
    (l : list A) :
  filter P l = l <-> Forall P l.
Proof.
  split.
  - intros <-. apply Forall_forall. intros x Hx.
    by apply list_elem_of_filter in Hx as [? _].
  - induction 1 as [|x l Hx _ IH]; [done|].
    rewrite filter_cons_True by done. by rewrite IH.
Qed.

(** The intersection loop, past the first text node, on an array that is
    not frozen: the array [result] keeps, in their order, its marks that
    exist in the array of every node left; no other array changes. *)
Lemma marksLoop_intersect (entries : list TextEntry) (result : loc)
    (h : heap) :
  frozen result = false ->
  (result < length h)%nat ->
  exists h' : heap,
    marksLoop frozen false entries false result h = Ok (result, h')
    /\ deref h' result
       = filter (fun m => Forall (fun e : TextEntry =>
                                    m ∈ deref h (marks (fst e))) entries)
                (deref h result)
    /\ length h' = length h
    /\ forall l, l <> result -> h' !! l = h !! l.
Proof.
  intros Hplain. revert h.
  induction entries as [|[node p] rest IH]; intros h Hlt.
  - exists h. split; [done|]. split; [|done].
    symmetry. apply filter_all, Forall_forall. by intros.
  - cbn [marksLoop negb andb].
    destruct (length (deref h result) =? 0)%nat eqn:Hempty.
    + apply Nat.eqb_eq in Hempty. exists h. split; [done|]. split; [|done].
      apply length_zero_iff_nil in Hempty. by rewrite Hempty.
    + assert (exists h1,
                 intersectPass frozen (length (deref h result)) result
                   (marks node) h = Some h1
                 /\ deref h1 result
                    = filter (fun m => m ∈ deref h (marks node))
                             (deref h result)
                 /\ length h1 = length h
                 /\ forall l, l <> result -> h1 !! l = h !! l)
        as (h1 & -> & Hres & Hlen & Hframe).
      { destruct (decide (result = marks node)) as [<-|Hne].
        - rewrite intersectPass_self. exists h. split; [done|].
          split; [|done]. symmetry. apply filter_all, Forall_forall.
          by intros.
        - rewrite intersectPass_filter by done. eexists. split; [done|].
          rewrite firstn_all, skipn_all, app_nil_r.
          unfold Queries.heap in *.
          split; [|split].
          + unfold deref. by apply list_lookup_total_insert_eq.
          + by rewrite length_insert.
          + intros l Hl. by apply list_lookup_insert_ne. }
      destruct (IH h1 ltac:(lia)) as (h' & Hloop & Hres' & Hlen' & Hframe').
      exists h'. split; [exact Hloop|]. split; [|split].
      * rewrite Hres', Hres, list_filter_filter. apply filter_ext_in.
        intros m Hm. rewrite Forall_cons. cbn [fst].
        split.
        -- intros [H1 H2]. split; [done|].
           eapply Forall_impl; [exact H1|]. intros e He.
           destruct (decide (marks (fst e) = result)) as [->|Hne]; [done|].
           assert (deref h1 (marks (fst e)) = deref h (marks (fst e)))
             as Heq by (by apply deref_frame, Hframe).
           by rewrite <- Heq.
        -- intros [H1 H2]. split; [|done].
           eapply Forall_impl; [exact H2|]. intros e He.
           destruct (decide (marks (fst e) = result)) as [->|Hne].
           ++ rewrite Hres. by apply list_elem_of_filter.
           ++ assert (deref h1 (marks (fst e)) = deref h (marks (fst e)))
                as Heq by (by apply deref_frame, Hframe).
              by rewrite Heq.
      * lia.
      * intros l Hl. by rewrite Hframe', Hframe.
Qed.

(** The intersection loop, past the first text node, on a frozen array:
    it returns, the store as it found it, when every mark of [result]
    exists in the array of every node left, and raises the error of
    [splice] otherwise. *)
Lemma marksLoop_frozen (entries : list TextEntry) (result : loc) (h : heap) :
  frozen result = true ->
  marksLoop frozen false entries false result h
  = if decide (Forall (fun m => Forall (fun e : TextEntry =>
                                          m ∈ deref h (marks (fst e))) entries)
                      (deref h result))
    then Ok (result, h) else Throw.
Proof.
  intros Hfrozen. induction entries as [|[node p] rest IH].
  - cbn [marksLoop]. rewrite decide_True; [done|].
    apply Forall_forall. by intros.
  - cbn [marksLoop negb andb].
    destruct (length (deref h result) =? 0)%nat eqn:Hempty.
    + apply Nat.eqb_eq, length_zero_iff_nil in Hempty. rewrite Hempty.
      by rewrite decide_True.
    + rewrite intersectPass_frozen by done. rewrite firstn_all.
      destruct (decide (Forall (fun m => m ∈ deref h (marks node))
                               (deref h result))) as [Hall|Hnot].
      * rewrite IH.
        destruct (decide (Forall _ (deref h result))) as [Hrest|Hnot].
        -- rewrite decide_True; [done|].
           rewrite Forall_forall in Hall, Hrest |- *. intros m Hm.
           apply Forall_cons. split; [by apply Hall|by apply Hrest].
        -- rewrite decide_False; [done|].
           intros Hboth. apply Hnot. eapply Forall_impl; [exact Hboth|].
           intros m Hm. by apply Forall_cons in Hm as [_ ?].
      * rewrite decide_False; [done|].
        intros Hboth. apply Hnot. eapply Forall_impl; [exact Hboth|].
        intros m Hm. by apply Forall_cons in Hm as [? _].
Qed.

(** X2.  With [union: false], on a range with the text node [first]
    followed by the text nodes [rest], the call works on the marks array
    of [first] itself: it leaves in it, in their order, the marks that
    exist in the array of every node of [rest], and returns it; the other
    arrays of the store are unchanged.  When the array of [first] is frozen
    and holds a mark to take out, the call raises the error of [splice]
    instead. *)
Theorem getActiveMarks_intersection
    (v : Value) (sel range : Range) (first : Text) (p : Path.t)
    (rest : list TextEntry) (h : heap) :
  selection v = Some sel ->
  range_marks sel = None ->
  marksRange v sel = Ok range ->
  Node_texts v (mkTextsOptions None (Some range) false) = (first, p) :: rest ->
  (marks first < length h)%nat ->
  let kept :=
    filter (fun m => Forall (fun e : TextEntry =>
                               m ∈ deref h (marks (fst e))) rest)
           (deref h (marks first)) in
  (frozen (marks first) = false \/ kept = deref h (marks first) ->
   exists h' : heap,
     getActiveMarks Node_texts frozen false v h = Ok (marks first, h')
     /\ deref h' (marks first) = kept
     /\ forall l, l <> marks first -> (l < length h)%nat -> h' !! l = h !! l)
  /\ (frozen (marks first) = true -> kept <> deref h (marks first) ->
      getActiveMarks Node_texts frozen false v h = Throw).
Proof.
  intros Hsel Hmarks Hrange Htexts Hlt kept. unfold getActiveMarks.
  rewrite Hsel, Hmarks. cbn [alloc]. rewrite Hrange, Htexts.
  cbn [marksLoop fst].
  assert (filter (fun m => Forall (fun e : TextEntry =>
                     m ∈ deref (h ++ [[]]) (marks (fst e))) rest)
                 (deref (h ++ [[]]) (marks first)) = kept) as Hkept.
  { change (h ++ [[]]) with (snd (alloc h)). rewrite deref_alloc.
    apply list_filter_iff. intros m.
    apply Forall_proper; [|done]. intros e. by rewrite deref_alloc. }
  destruct (frozen (marks first)) eqn:Hfrozen.
  - rewrite marksLoop_frozen by done.
    rewrite <- (decide_ext _ _ _ _ (filter_all _ _)), Hkept.
    change (h ++ [[]]) with (snd (alloc h)). rewrite deref_alloc. split.
    + intros [?|Heq]; [done|]. rewrite decide_True by done.
      eexists. split; [done|]. rewrite deref_alloc. split; [done|].
      intros l Hl Hlh. cbn [alloc snd]. unfold Queries.heap in *.
      by rewrite lookup_app_l.
    + intros _ Hne. by rewrite decide_False.
  - split; [|done]. intros _.
    destruct (marksLoop_intersect rest (marks first) (h ++ [[]]))
      as (h' & Hloop & Hres & _ & Hframe); [done| |].
    { rewrite length_app. lia. }
    exists h'. split; [exact Hloop|]. split.
    + by rewrite Hres.
    + intros l Hl Hlh. rewrite Hframe by done.
      unfold Queries.heap in *. by rewrite lookup_app_l.
Qed.

(** X3.  A collapsed selection at offset 0 of a text carries the marks of
    the previous text when that text lies in the same block: the call
    returns the marks array of the previous text.  When the previous text
    lies in another block, it returns the marks array of the text the
    selection is in. *)
Theorem getActiveMarks_carries_previous_marks
    (union : bool) (v : Value) (sel r : Range) (block : Node)
    (blockPath prevPath : Path.t) (prev own : Text) (h : heap) :
  selection v = Some sel ->
  range_marks sel = None ->
  Range_isCollapsed sel = true ->
  offset (anchor sel) = 0 ->
  getClosestBlock v (path (anchor sel)) = Some (Some (block, blockPath)) ->
  getPreviousText v (path (anchor sel)) = Some (prev, prevPath) ->
  getRange v prevPath = Some r ->
  Node_texts v (mkTextsOptions None (Some r) false) = [(prev, prevPath)] ->
  Node_texts v (mkTextsOptions None (Some sel) false)
  = [(own, path (anchor sel))] ->
  getActiveMarks Node_texts frozen union v h
  = Ok (marks (if Path.isAncestor blockPath prevPath then prev else own),
        h ++ [[]]).
Proof.
  intros Hsel Hmarks Hcol Hoff Hblock Hprev Hrange Hr Hown.
  unfold getActiveMarks. rewrite Hsel, Hmarks. cbn [alloc].
  unfold marksRange. rewrite Hcol, Hoff, Hblock, Hprev. cbn [andb Z.eqb].
  destruct (Path.isAncestor blockPath prevPath).
  - rewrite Hrange, Hr. by destruct union.
  - rewrite Hown. by destruct union.
Qed.

End MarksMore.

(** *** Void nodes under [positions] *)

Section PositionsMore.

Variable Node_texts : Value -> TextsOptions -> list TextEntry.
Variable getCharacterDistance : string -> Z.
Variable getWordDistance : string -> Z.

(** X5.  A void node is one position: from a point inside a void element,
    the first position the generator yields is the start of the first text
    after the furthest void around the point (the end of the last text
    before it, in reverse), whatever the unit is. *)
Theorem positions_steps_over_void
    (fuel : nat) (unit : Unit) (reverse : bool) (v : Value) (point : Point)
    (void : Node) (voidPath : Path.t) (closestBlock : option ElementEntry)
    (textNode : Text) (textPath : Path.t) :
  getFurthestVoid v (path point) = Some (Some (void, voidPath)) ->
  getClosestBlock v (path point) = Some closestBlock ->
  (if reverse then getPreviousText v voidPath else getNextText v voidPath)
  = Some (textNode, textPath) ->
  head (fst (positions Node_texts getCharacterDistance getWordDistance
               (S fuel) v (Some point) unit reverse))
  = Some (mkPoint textPath
            (if reverse then JsString.length (text textNode) else 0)).
Proof.
  intros Hvoid Hblock Htext. cbn [positions positionsLoop].
  unfold positionsBody. rewrite Hvoid, Hblock.
  cbn [skipPathOf skipStep]. rewrite Htext. cbn [yielded after option_list].
  by destruct (after _).
Qed.

Lemma textsPass_point (reverse : bool) (d t : Z) (entries : list TextEntry)
    (point : Point) :
  fst (textsPass reverse d t entries point)
  = default point (last (snd (textsPass reverse d t entries point))).
Proof.
  revert point. induction entries as [|[textNode textPath] rest IH];
    intros point; [done|].
  cbn [textsPass]. destruct (_ >=? _); [|apply IH].
  cbn [fst snd]. rewrite IH, last_cons. by destruct (last _).
Qed.

(** Every assignment to [point] is followed by [yield point]: after a
    turn the loop stands at the last point it yielded, or where it
    stood. *)
Lemma positionsBody_point (unit : Unit) (reverse : bool) (v : Value)
    (point point' : Point) :
  after (positionsBody Node_texts getCharacterDistance getWordDistance
           unit reverse v point) = Next point' ->
  point' = default point
             (last (yielded (positionsBody Node_texts getCharacterDistance
                               getWordDistance unit reverse v point))).
Proof.
  unfold positionsBody.
  destruct (getFurthestVoid v (path point)) as [fv|]; [|done].
  destruct (getClosestBlock v (path point)) as [cb|]; [|done].
  destruct (skipStep reverse v (skipPathOf reverse v point fv cb))
    as [skipped|]; [|done].
  cbn [yielded after]. unfold travel.
  destruct (Node_leaf v (path point)) as [node|]; [|done].
  destruct (Path.relative (path point) _) as [relPath|]; [|done].
  cbn [yielded after]. intros [= <-]. rewrite textsPass_point.
  rewrite !last_app.
  destruct (last (snd (textsPass _ _ _ _ _))) as [q|]; [done|].
  cbn [default]. destruct (_ || _); [done|]. by destruct skipped.
Qed.

(** X6.  The generator can be resumed: after any number of turns that
    neither end nor raise, it stands at the last point it yielded (at its
    starting point when it has yielded none), and a generator started at
    that point yields what the suspended one goes on to yield. *)
Theorem positions_resumes_from_last_point
    (n m : nat) (unit : Unit) (reverse : bool) (v : Value)
    (point point' : Point) (ys : list Point) :
  positionsLoop Node_texts getCharacterDistance getWordDistance
    n unit reverse v point = (ys, Suspended point') ->
  point' = default point (last ys)
  /\ positionsLoop Node_texts getCharacterDistance getWordDistance
       (n + m) unit reverse v point
     = (ys ++ fst (positionsLoop Node_texts getCharacterDistance
                     getWordDistance m unit reverse v point'),
        snd (positionsLoop Node_texts getCharacterDistance
               getWordDistance m unit reverse v point')).
Proof.
  revert point ys. induction n as [|n IH]; intros point ys Hloop.
  - injection Hloop as <- <-. split; [done|]. cbn [Nat.add app].
    by destruct (positionsLoop _ _ _ _ _ _ _ _).
  - cbn [positionsLoop Nat.add] in *.
    destruct (after (positionsBody _ _ _ unit reverse v point))
      as [|next|] eqn:Hafter; [done| |done].
    destruct (positionsLoop _ _ _ n unit reverse v next) as [zs st] eqn:Hn.
    cbn [fst snd] in Hloop. injection Hloop as <- ->.
    destruct (IH next zs Hn) as [Hpoint Hmore].
    apply positionsBody_point in Hafter. split.
    + rewrite last_app, Hpoint, Hafter. by destruct (last zs).
    + rewrite Hmore. cbn [fst snd]. by rewrite app_assoc.
Qed.

End PositionsMore.

Lemma getActiveMarks_union_returns_first_marks_witness :
  getActiveMarks Node_texts_spec allFrozen true markedTexts markedStore
  = Ok (0%nat, markedStore ++ [[]]).
Proof.
  apply (getActiveMarks_union_returns_first_marks Node_texts_spec allFrozen
           markedTexts
           (mkRange (mkPoint [0; 0]%nat 0) (mkPoint [0; 1]%nat 1) None)
           (mkRange (mkPoint [0; 0]%nat 0) (mkPoint [0; 1]%nat 1) None)
           markedStore); reflexivity.
Defined.

(** On plain arrays the call leaves [["italic"]] in the array of the first
    text; on frozen ones it raises. *)
Lemma getActiveMarks_intersection_witness :
  (exists h' : list (list string),
      getActiveMarks Node_texts_spec notFrozen false markedTexts markedStore
      = Ok (0%nat, h')
      /\ deref h' 0%nat = ["italic"]%string
      /\ forall l, l <> 0%nat -> (l < length markedStore)%nat ->
                   h' !! l = markedStore !! l)
  /\ getActiveMarks Node_texts_spec allFrozen false markedTexts markedStore
     = Throw.
Proof.
  split.
  - destruct (getActiveMarks_intersection Node_texts_spec notFrozen
                markedTexts
                (mkRange (mkPoint [0; 0]%nat 0) (mkPoint [0; 1]%nat 1) None)
                (mkRange (mkPoint [0; 0]%nat 0) (mkPoint [0; 1]%nat 1) None)
                (mkText "a" 0%nat) [0; 0]%nat [(mkText "b" 1%nat, [0; 1]%nat)]
                markedStore) as [Hplain _];
      [reflexivity|reflexivity|reflexivity|reflexivity|cbn; lia|].
    destruct Hplain as (h' & Hcall & Hres & Hframe); [by left|].
    exists h'. split; [exact Hcall|]. split; [|exact Hframe].
    etransitivity; [exact Hres|by vm_compute].
  - destruct (getActiveMarks_intersection Node_texts_spec allFrozen
                markedTexts
                (mkRange (mkPoint [0; 0]%nat 0) (mkPoint [0; 1]%nat 1) None)
                (mkRange (mkPoint [0; 0]%nat 0) (mkPoint [0; 1]%nat 1) None)
                (mkText "a" 0%nat) [0; 0]%nat [(mkText "b" 1%nat, [0; 1]%nat)]
                markedStore) as [_ Hthrow];
      [reflexivity|reflexivity|reflexivity|reflexivity|cbn; lia|].
    apply Hthrow; [reflexivity|]. intros Heq. by vm_compute in Heq.
Defined.

Lemma getActiveMarks_carries_previous_marks_witness :
  getActiveMarks Node_texts_spec allFrozen false cursorAfterFirst markedStore
  = Ok (0%nat, markedStore ++ [[]]).
Proof.
  apply (getActiveMarks_carries_previous_marks Node_texts_spec allFrozen false
           cursorAfterFirst
           (mkRange (mkPoint [0; 1]%nat 0) (mkPoint [0; 1]%nat 0) None)
           (mkRange (mkPoint [0; 0]%nat 0) (mkPoint [0; 0]%nat 1) None)
           (ElementNode [TextNode (mkText "a" 0%nat);
                         TextNode (mkText "b" 1%nat)] false false)
           [0%nat] [0; 0]%nat (mkText "a" 0%nat) (mkText "b" 1%nat)
           markedStore); reflexivity.
Defined.

Lemma positions_steps_over_void_witness :
  head (fst (positionsSpec 1 (voidDocument true)
               (Some (mkPoint [1; 0]%nat 0)) UnitCharacter false))
  = Some (mkPoint [2%nat] 0).
Proof.
  apply (positions_steps_over_void Node_texts_spec asciiCharacterDistance
           asciiWordDistance 0 UnitCharacter false (voidDocument true)
           (mkPoint [1; 0]%nat 0)
           (ElementNode [TextNode (mkText "" 1%nat)] true true) [1%nat]
           None (mkText "b" 2%nat) [2%nat]); reflexivity.
Defined.

Lemma positions_resumes_from_last_point_witness :
  mkPoint [1; 0]%nat 0
  = default (mkPoint [0; 0]%nat 0) (last [mkPoint [1; 0]%nat 0])
  /\ positionsSpec (1 + 1) emptyBlocks (Some (mkPoint [0; 0]%nat 0))
       UnitOffset false
     = ([mkPoint [1; 0]%nat 0]
          ++ fst (positionsSpec 1 emptyBlocks (Some (mkPoint [1; 0]%nat 0))
                    UnitOffset false),
        snd (positionsSpec 1 emptyBlocks (Some (mkPoint [1; 0]%nat 0))
               UnitOffset false)).
Proof.
  apply (positions_resumes_from_last_point Node_texts_spec
           asciiCharacterDistance asciiWordDistance 1 1 UnitOffset false
           emptyBlocks (mkPoint [0; 0]%nat 0) (mkPoint [1; 0]%nat 0)
           [mkPoint [1; 0]%nat 0]). reflexivity.
Defined.

End QueriesFacts.

(** ** Properties of the operations of [Value] *)

Module LegacyFacts.

Import Legacy.

Lemma resolvePoint_samePlace (doc : Node) (p p' : Point) :
  resolvePoint doc p = Some p' -> samePlace p p'.
Proof.
  unfold resolvePoint, samePlace.
  destruct (path p); [intros [= <-]; done|].
  destruct (key p) as [k|] eqn:Hk; [|intros [= <-]; done].
  destruct (getPath doc k); [|done]. intros [= <-]. done.
Qed.

Lemma createSelection_samePlaces (doc : Node) (r r' : Range) :
  createSelection doc r = Some r' -> samePlaces r r'.
Proof.
  unfold createSelection, updatePoints.
  destruct (resolvePoint doc (anchor r)) as [a|] eqn:Ha; [|done].
  destruct (resolvePoint doc (focus r)) as [b|] eqn:Hb; [|done].
  intros [= <-]. split; by eapply resolvePoint_samePlace.
Qed.

Lemma samePlaces_refl (r : Range) : samePlaces r r.
Proof. by repeat split. Qed.

(** [mapRanges] keeps the document; on a set selection it applies the
    iterator and only resolves the result, on an unset one it does
    nothing. *)
Lemma mapRanges_selection (iterator : Range -> option (option Range))
    (value value' : Value) :
  mapRanges iterator value = Some value' ->
  document value' = document value
  /\ if Range_isSet (selection value)
     then exists o,
         iterator (selection value) = Some o
         /\ samePlaces (match o with
                        | Some r => r
                        | None => Range_unset (selection value)
                        end) (selection value')
     else selection value' = selection value.
Proof.
  unfold mapRanges.
  destruct (Range_isSet (selection value)).
  - destruct (iterator (selection value)) as [o|]; [|done].
    set (sel := match o with Some s => s | None => _ end).
    destruct (bool_decide (sel <> selection value)).
    + destruct (createSelection (document value) sel) as [sel'|] eqn:Hc;
        [|done].
      destruct (mapAnnotations _ _ _); [|done]. intros [= <-].
      split; [done|]. exists o. split; [done|].
      by apply createSelection_samePlaces in Hc.
    + destruct (mapAnnotations _ _ _); [|done]. intros [= <-].
      split; [done|]. exists o. split; [done|]. apply samePlaces_refl.
  - rewrite bool_decide_eq_false_2 by (intros Hne; by apply Hne).
    destruct (mapAnnotations _ _ _); [|done]. by intros [= <-].
Qed.

(** *** [removeText] *)

(** C8.  [removeText(path, offset, text)] on a text node, for each point
    of a set selection: a point on that node at or after the end of the
    removed span has its offset reduced by [text.length]; a point strictly
    inside the span is clamped to [offset]; a point on that node at or
    before [offset], and a point on another node, keeps its offset.  No
    point changes its key. *)
Theorem removeText_shifts_points
    (p : Path.t) (offset : Z) (text : string) (value value' : Value)
    (k : Key) (s : string) (point : Range -> Point) :
  assertNode (document value) p = Some (Text k s) ->
  Range_isSet (selection value) = true ->
  removeText p offset text value = Some value' ->
  point = anchor \/ point = focus ->
  let pt := point (selection value) in
  let pt' := point (selection value') in
  let o := toNumber (Legacy.offset pt) in
  key pt' = key pt
  /\ (key pt = Some k -> offset + JsString.length text <= o ->
      Legacy.offset pt' = Some (o - JsString.length text))
  /\ (key pt = Some k -> offset < o < offset + JsString.length text ->
      Legacy.offset pt' = Some offset)
  /\ (key pt = Some k -> o <= offset ->
      toNumber (Legacy.offset pt') = o)
  /\ (key pt <> Some k -> Legacy.offset pt' = Legacy.offset pt).
Proof.
  intros Hnode Hset Hrem Hpoint pt pt' o.
  unfold removeText in Hrem. rewrite Hnode in Hrem.
  destruct (Document_removeText p offset text (document value)) as [doc'|];
    [|done].
  apply mapRanges_selection in Hrem as [_ Hsel].
  cbn [selection setDocument] in Hsel. rewrite Hset in Hsel.
  destruct Hsel as (r & Hit & Hsame).
  unfold updatePoints in Hit.
  destruct (removeTextPoint (Text k s) offset text (anchor (selection value)))
    as [a|] eqn:Ha; [|done].
  destruct (removeTextPoint (Text k s) offset text (focus (selection value)))
    as [b|] eqn:Hb; [|done].
  injection Hit as <-. destruct Hsame as [[Hak Hao] [Hbk Hbo]].
  cbn [anchor focus] in *.
  assert (forall q q' q'',
             removeTextPoint (Text k s) offset text q = Some q' ->
             key q'' = key q' -> Legacy.offset q'' = Legacy.offset q' ->
             key q'' = key q
             /\ (key q = Some k ->
                 offset + JsString.length text <= toNumber (Legacy.offset q) ->
                 Legacy.offset q''
                 = Some (toNumber (Legacy.offset q) - JsString.length text))
             /\ (key q = Some k ->
                 offset < toNumber (Legacy.offset q)
                        < offset + JsString.length text ->
                 Legacy.offset q'' = Some offset)
             /\ (key q = Some k -> toNumber (Legacy.offset q) <= offset ->
                 toNumber (Legacy.offset q'') = toNumber (Legacy.offset q))
             /\ (key q <> Some k -> Legacy.offset q'' = Legacy.offset q))
    as Hpt.
  { intros q q' q'' Hq Hk Ho. rewrite Hk, Ho. clear Hk Ho.
    unfold removeTextPoint in Hq. cbn [keyOf] in Hq.
    destruct (decide (key q <> Some k)) as [Hne|Heq].
    - injection Hq as <-. repeat split; try done.
    - rewrite Z.geb_leb, Z.gtb_ltb in Hq.
      assert (0 <= JsString.length text) as Hlen
          by (unfold JsString.length; lia).
      set (len := JsString.length text) in *. clearbody len.
      destruct (offset + len <=? toNumber (Legacy.offset q)) eqn:Hge.
      + apply Z.leb_le in Hge. injection Hq as <-. cbn.
        repeat split; try done; intros; first [lia | exfalso; lia].
      + apply Z.leb_gt in Hge.
        destruct (offset <? toNumber (Legacy.offset q)) eqn:Hgt.
        * apply Z.ltb_lt in Hgt. injection Hq as <-. cbn.
          repeat split; try done; intros; first [lia | exfalso; lia].
        * apply Z.ltb_ge in Hgt. injection Hq as <-.
          repeat split; try done; intros; first [lia | exfalso; lia]. }
  destruct Hpoint as [-> | ->]; subst pt pt' o; by eapply Hpt.
Qed.

(** *** [mergeNode] *)

Lemma invalidatePaths_samePlaces (r : Range) :
  samePlaces r (invalidatePaths r).
Proof. by repeat split. Qed.

Lemma samePlaces_trans (r1 r2 r3 : Range) :
  samePlaces r1 r2 -> samePlaces r2 r3 -> samePlaces r1 r3.
Proof.
  intros [[H1 H2] [H3 H4]] [[H5 H6] [H7 H8]].
  repeat split; congruence.
Qed.

(** C10.  [mergeNode(path)] moves and re-bases selection points only when
    the merged node [two] is a text: a point on it goes to the predecessor
    [one] with its offset increased by the length of [one]'s text.  When
    [two] is not a text every point leaves the iterator with its key and
    offset and a null path, and ends with that key and offset. *)
Theorem mergeNode_rebases_text_points_only
    (p withPath : Path.t) (value value' : Value) (one two : Node)
    (point : Range -> Point) :
  decrement p = Some withPath ->
  assertNode (document value) withPath = Some one ->
  assertNode (document value) p = Some two ->
  Range_isSet (selection value) = true ->
  mergeNode p value = Some value' ->
  point = anchor \/ point = focus ->
  let pt := point (selection value) in
  let pt' := point (selection value') in
  match two, one with
  | Text k2 _, Text k1 s1 =>
      (key pt = Some k2 ->
       key pt' = Some k1
       /\ offset pt' = Some (JsString.length s1 + toNumber (offset pt)))
      /\ (key pt <> Some k2 -> key pt' = key pt /\ offset pt' = offset pt)
  | Text _ _, Element _ _ _ _ => False
  | Element _ _ _ _, _ =>
      mergeNodeRange (Some one) (Some two) (selection value)
      = Some (Some (invalidatePaths (selection value)))
      /\ path (point (invalidatePaths (selection value))) = None
      /\ key pt' = key pt /\ offset pt' = offset pt
  end.
Proof.
  intros Hdec Hone Htwo Hset Hmerge Hpoint pt pt'.
  unfold mergeNode in Hmerge.
  destruct (Document_mergeNode p (document value)) as [newDocument|]; [|done].
  rewrite Hdec, Hone, Htwo in Hmerge.
  apply mapRanges_selection in Hmerge as [_ Hsel].
  cbn [selection setDocument] in Hsel. rewrite Hset in Hsel.
  destruct Hsel as (o & Hit & Hsame).
  destruct two as [k2 s2|o2 k2 ty2 cs2].
  - destruct one as [k1 s1|o1 k1 ty1 cs1]; [|done].
    cbn [mergeNodeRange] in Hit. injection Hit as <-.
    pose proof (samePlaces_trans _ _ _ (invalidatePaths_samePlaces _) Hsame)
      as [[Hak Hao] [Hfk Hfo]].
    destruct (decide (key (anchor (selection value)) = Some k2)) as [Ha|Ha];
      (destruct (decide (key (focus (_ : Range)) = Some k2)) as [Hf|Hf]);
      cbn in Ha, Hf, Hak, Hao, Hfk, Hfo;
      destruct Hpoint as [-> | ->]; subst pt pt'; split; intros Hk;
      try done; try congruence; split; congruence.
  - cbn [mergeNodeRange] in Hit. injection Hit as <-.
    pose proof (samePlaces_trans _ _ _ (invalidatePaths_samePlaces _) Hsame)
      as [[Hak Hao] [Hfk Hfo]].
    split; [done|]. destruct Hpoint as [-> | ->]; subst pt pt'; done.
Qed.

(** *** Text leaves under the operations of the document *)

Lemma texts_Element (o : Object) (k : Key) (ty : string) (cs : list Node) :
  texts (Element o k ty cs) = flat_map texts cs.
Proof. reflexivity. Qed.

Lemma flat_map_texts_middle (ns : list Node) (i : nat) (n : Node) :
  ns !! i = Some n ->
  flat_map texts ns
  = flat_map texts (take i ns) ++ texts n ++ flat_map texts (drop (S i) ns).
Proof.
  intros Hi. rewrite <- (take_drop_middle ns i n Hi) at 1.
  by rewrite flat_map_app.
Qed.

(** Replacing the node at a path replaces its text leaves, in place. *)
Lemma updateL_texts (f : Node -> option (list Node)) (p : Path.t)
    (ns ns' : list Node) :
  updateL f p ns = Some ns' ->
  exists (n : Node) (r : list Node) (L1 L2 : list TextLeaf),
    getDescendant ns p = Some n
    /\ f n = Some r
    /\ flat_map texts ns = L1 ++ texts n ++ L2
    /\ flat_map texts ns' = L1 ++ flat_map texts r ++ L2.
Proof.
  revert ns ns'. induction p as [|i p IH]; intros ns ns' Hup; [done|].
  cbn [updateL getDescendant] in *.
  destruct (ns !! i) as [n|] eqn:Hi; [|done].
  destruct p as [|j p].
  - destruct (f n) as [r|] eqn:Hf; [|done]. injection Hup as <-.
    exists n, r, (flat_map texts (take i ns)),
      (flat_map texts (drop (S i) ns)).
    split; [done|]. split; [done|]. split.
    + by apply flat_map_texts_middle.
    + by rewrite !flat_map_app.
  - destruct n as [k s|o k ty cs]; [done|].
    destruct (updateL f (j :: p) cs) as [cs'|] eqn:Hcs; [|done].
    injection Hup as <-.
    destruct (IH cs cs' Hcs) as (n & r & L1 & L2 & Hn & Hf & Hcs1 & Hcs2).
    exists n, r, (flat_map texts (take i ns) ++ L1),
      (L2 ++ flat_map texts (drop (S i) ns)).
    split; [done|]. split; [done|]. split.
    + rewrite (flat_map_texts_middle ns i _ Hi), texts_Element, Hcs1.
      by rewrite <- !app_assoc.
    + rewrite !flat_map_app. cbn [flat_map]. rewrite texts_Element, Hcs2.
      by rewrite <- !app_assoc.
Qed.

Lemma assertNode_getDescendant (o : Object) (k : Key) (ty : string)
    (cs : list Node) (p : Path.t) (n : Node) :
  getDescendant cs p = Some n -> assertNode (Element o k ty cs) p = Some n.
Proof. destruct p; [done|]. by intros. Qed.

(** The text leaf after the last of a group is the head of what
    follows the group, when keys are not repeated. *)
Lemma nextIn_app (k : Key) (L1 L2 : list TextLeaf) :
  k ∉ map fst L1 -> nextIn k (L1 ++ L2) = nextIn k L2.
Proof.
  induction L1 as [|t L1 IH]; intros Hk; [done|]. cbn.
  destruct (decide (fst t = k)) as [<-|Hne].
  - exfalso. apply Hk. cbn. apply list_elem_of_here.
  - apply IH. intros Hin. apply Hk. cbn. by apply list_elem_of_further.
Qed.

Lemma nextIn_here (k : Key) (s : string) (L : list TextLeaf) :
  nextIn k ((k, s) :: L) = head L.
Proof. cbn. by rewrite decide_True. Qed.

Lemma previousIn_app (k : Key) (prev : option TextLeaf)
    (L1 L2 : list TextLeaf) :
  k ∉ map fst L1 ->
  previousIn k prev (L1 ++ L2)
  = previousIn k (match last L1 with Some t => Some t | None => prev end) L2.
Proof.
  revert prev. induction L1 as [|t L1 IH]; intros prev Hk; [done|]. cbn.
  destruct (decide (fst t = k)) as [<-|Hne].
  - exfalso. apply Hk. cbn. apply list_elem_of_here.
  - rewrite IH by (intros Hin; apply Hk; cbn; by apply list_elem_of_further).
    f_equal. rewrite last_cons. by destruct (last L1).
Qed.

Lemma previousIn_here (k : Key) (s : string) (prev : option TextLeaf)
    (L : list TextLeaf) :
  previousIn k prev ((k, s) :: L) = prev.
Proof. cbn. by rewrite decide_True. Qed.

(** *** [splitNode] *)

Lemma relocated_moved (k k' : Key) (position : Z) (pt : Point) :
  key pt = Some k -> position <= toNumber (offset pt) ->
  relocated k k' position pt
    (setPath None (moveTo k' (toNumber (offset pt) - position) pt)).
Proof.
  intros Hk Hpos. unfold relocated. cbn. repeat split; intros; try done; lia.
Qed.

Lemma relocated_kept (k k' : Key) (position : Z) (pt : Point) :
  ~ (key pt = Some k /\ position <= toNumber (offset pt)) ->
  relocated k k' position pt (setPath None pt).
Proof.
  intros Hno. unfold relocated. cbn. repeat split; intros; try done.
  all: exfalso; apply Hno; split; [done|lia].
Qed.

Lemma Range_isSet_keys (r : Range) (k1 k2 : Key) :
  key (anchor r) = Some k1 -> key (focus r) = Some k2 -> Range_isSet r = true.
Proof.
  intros Ha Hf. unfold Range_isSet, Point_isSet. rewrite Ha, Hf.
  apply andb_true_iff. split; by apply bool_decide_eq_true.
Qed.

(** A range with one point moved to another key has a point without a
    path: it is not backward, whatever it was. *)
Lemma isBackward_moved_anchor (k k' : Key) (o : Z) (r : Range) :
  k' <> k -> key (anchor r) = Some k -> key (focus r) = Some k ->
  Range_isBackward (moveAnchorTo k' o r) = false.
Proof.
  intros Hne Ha Hf. unfold Range_isBackward, moveAnchorTo, moveTo.
  cbn [anchor focus key path offset]. rewrite Ha, Hf.
  apply andb_false_iff. right.
  repeat case_decide; try congruence.
  unfold pointBefore. cbn [path]. by destruct (path (focus r)).
Qed.

Lemma isBackward_moved_focus (k k' : Key) (o : Z) (r : Range) :
  k' <> k -> key (anchor r) = Some k -> key (focus r) = Some k ->
  Range_isBackward (moveFocusTo k' o r) = false.
Proof.
  intros Hne Ha Hf. unfold Range_isBackward, moveFocusTo, moveTo.
  cbn [anchor focus key path offset]. rewrite Ha, Hf.
  apply andb_false_iff. right.
  repeat case_decide; try congruence. done.
Qed.

Lemma isBackward_same_key (k : Key) (r : Range) :
  key (anchor r) = Some k -> key (focus r) = Some k ->
  Range_isBackward r
  = (toNumber (offset (focus r)) <? toNumber (offset (anchor r))).
Proof.
  intros Ha Hf. unfold Range_isBackward.
  rewrite (Range_isSet_keys r k k Ha Hf). cbn [andb].
  rewrite decide_True by congruence. done.
Qed.

Lemma splitNode_test (k : Key) (position : Z) (pt : Point) :
  bool_decide (Some k = key pt) && (position <=? toNumber (offset pt)) = true
  <-> key pt = Some k /\ position <= toNumber (offset pt).
Proof.
  rewrite andb_true_iff, bool_decide_eq_true, Z.leb_le.
  split; intros [? ?]; done.
Qed.

(** The iterator of [splitNode] on a text node with a successor: each
    point is relocated on its own, unless the range runs backward with its
    two points at or after [position]. *)
Lemma splitNodeRange_relocates (newDocument : Node) (k k' : Key)
    (s s' : string) (position : Z) (r : Range) :
  k' <> k ->
  getNextText newDocument k = Some (k', s') ->
  ~ backwardAfter k position r ->
  exists r',
    splitNodeRange newDocument (Text k s) position r = Some (Some r')
    /\ relocated k k' position (anchor r) (anchor r')
    /\ relocated k k' position (focus r) (focus r').
Proof.
  intros Hne Hnext Hnb. unfold splitNodeRange. cbn [keyOf]. rewrite Hnext.
  cbn [fst].
  unfold Range_start, Range_end, moveStartTo, moveEndTo.
  destruct (Range_isBackward r) eqn:Hb.
  - (* backward: the start is the focus *)
    destruct (bool_decide (Some k = key (focus r))
              && (position <=? toNumber (offset (focus r)))) eqn:Hf.
    + apply splitNode_test in Hf as [Hfk Hfo].
      destruct (bool_decide (Some k = key (anchor r))
                && (position <=? toNumber (offset (anchor r)))) eqn:Ha.
      * apply splitNode_test in Ha as [Hak Hao]. exfalso. apply Hnb.
        rewrite (isBackward_same_key k r Hak Hfk) in Hb.
        apply Z.ltb_lt in Hb. by repeat split.
      * eexists. split; [reflexivity|].
        cbn [anchor focus invalidatePaths moveAnchorTo moveFocusTo].
        split; [|by apply relocated_moved].
        apply relocated_kept. intros Hak. apply splitNode_test in Hak.
        congruence.
    + rewrite Hb.
      assert (~ (key (focus r) = Some k
                 /\ position <= toNumber (offset (focus r)))) as Hnf.
      { intros Hfk. apply splitNode_test in Hfk. congruence. }
      destruct (bool_decide (Some k = key (anchor r))
                && (position <=? toNumber (offset (anchor r)))) eqn:Ha.
      * apply splitNode_test in Ha as [Hak Hao].
        eexists. split; [reflexivity|].
        cbn [anchor focus invalidatePaths moveAnchorTo moveFocusTo].
        split; [by apply relocated_moved|by apply relocated_kept].
      * eexists. split; [reflexivity|].
        cbn [anchor focus invalidatePaths moveAnchorTo moveFocusTo].
        split; [|by apply relocated_kept].
        apply relocated_kept. intros Hak. apply splitNode_test in Hak.
        congruence.
  - (* forward: the start is the anchor *)
    destruct (bool_decide (Some k = key (anchor r))
              && (position <=? toNumber (offset (anchor r)))) eqn:Ha.
    + apply splitNode_test in Ha as [Hak Hao].
      destruct (bool_decide (Some k = key (focus r))
                && (position <=? toNumber (offset (focus r)))) eqn:Hf.
      * apply splitNode_test in Hf as [Hfk Hfo].
        rewrite (isBackward_moved_anchor k k' _ r Hne Hak Hfk).
        eexists. split; [reflexivity|].
        cbn [anchor focus invalidatePaths moveAnchorTo moveFocusTo].
        split; by apply relocated_moved.
      * eexists. split; [reflexivity|].
        cbn [anchor focus invalidatePaths moveAnchorTo moveFocusTo].
        split; [by apply relocated_moved|].
        apply relocated_kept. intros Hfk. apply splitNode_test in Hfk.
        congruence.
    + rewrite Hb.
      assert (~ (key (anchor r) = Some k
                 /\ position <= toNumber (offset (anchor r)))) as Hna.
      { intros Hak. apply splitNode_test in Hak. congruence. }
      destruct (bool_decide (Some k = key (focus r))
                && (position <=? toNumber (offset (focus r)))) eqn:Hf.
      * apply splitNode_test in Hf as [Hfk Hfo].
        eexists. split; [reflexivity|].
        cbn [anchor focus invalidatePaths moveAnchorTo moveFocusTo].
        split; [by apply relocated_kept|by apply relocated_moved].
      * eexists. split; [reflexivity|].
        cbn [anchor focus invalidatePaths moveAnchorTo moveFocusTo].
        split; [by apply relocated_kept|].
        apply relocated_kept. intros Hfk. apply splitNode_test in Hfk.
        congruence.
Qed.

(** On a backward range with its two points at or after [position] the
    start (the focus) is moved first; the range is then no longer backward,
    so that moving the end moves the focus once more, to the place meant
    for the anchor, and the anchor stays where it was. *)
Lemma splitNodeRange_backward (newDocument : Node) (k k' : Key)
    (s s' : string) (position : Z) (r : Range) :
  k' <> k ->
  getNextText newDocument k = Some (k', s') ->
  backwardAfter k position r ->
  splitNodeRange newDocument (Text k s) position r
  = Some (Some (mkRange
                  (setPath None (anchor r))
                  (mkPoint (Some k') None
                     (Some (toNumber (offset (anchor r)) - position))))).
Proof.
  intros Hne Hnext (Hak & Hfk & Hfo & Hlt). unfold splitNodeRange.
  cbn [keyOf]. rewrite Hnext. cbn [fst].
  unfold Range_start, Range_end, moveStartTo, moveEndTo.
  rewrite (isBackward_same_key k r Hak Hfk).
  rewrite (proj2 (Z.ltb_lt _ _) Hlt).
  rewrite (proj2 (splitNode_test k position (focus r))) by done.
  rewrite (proj2 (splitNode_test k position (anchor r))) by (split; [done|lia]).
  rewrite (isBackward_moved_focus k k' _ r Hne Hak Hfk).
  unfold invalidatePaths, moveFocusTo, moveTo, setPath.
  cbn [anchor focus key path offset]. done.
Qed.

(** After the split of a text the next text of the document is the new
    sibling. *)
Lemma Document_splitNode_next (newKey : Key) (p : Path.t) (position : Z)
    (properties : option string) (doc newDocument : Node)
    (k : Key) (s : string) :
  assertNode doc p = Some (Text k s) ->
  NoDup (textKeys doc) ->
  Document_splitNode newKey p position properties doc = Some newDocument ->
  getNextText newDocument k
  = Some (newKey, JsString.slice s position None).
Proof.
  intros Hnode Hnodup Hsplit.
  unfold Document_splitNode, onNodes in Hsplit.
  destruct doc as [kd sd|o kd ty cs]; [done|].
  destruct (updateL _ p cs) as [cs'|] eqn:Hup; [|done].
  injection Hsplit as <-.
  apply updateL_texts in Hup as (n & r & L1 & L2 & Hn & Hr & Hcs & Hcs').
  destruct p as [|i p]; [done|]. cbn [assertNode nodesOf] in Hnode.
  rewrite Hnode in Hn. injection Hn as <-.
  cbn [splitParts] in Hr. injection Hr as <-.
  unfold getNextText. rewrite texts_Element, Hcs'. cbn [flat_map texts app].
  unfold textKeys in Hnodup. rewrite texts_Element, Hcs in Hnodup.
  cbn [texts app] in Hnodup. rewrite map_app in Hnodup.
  apply NoDup_app in Hnodup as (_ & Hdisj & _).
  rewrite nextIn_app.
  - by rewrite nextIn_here.
  - intros Hin. apply (Hdisj _ Hin). cbn. apply list_elem_of_here.
Qed.

(** What [splitNode] of a text does to the selection, in full: its two
    points are relocated one by one, unless the selection runs backward
    with both points at or after [position]. *)
Lemma splitNode_selection
    (newKey : Key) (p : Path.t) (position : Z) (properties : option string)
    (value value' : Value) (k : Key) (s : string) :
  assertNode (document value) p = Some (Text k s) ->
  NoDup (textKeys (document value)) ->
  k <> newKey ->
  Range_isSet (selection value) = true ->
  splitNode newKey p position properties value = Some value' ->
  getNextText (document value') k
  = Some (newKey, JsString.slice s position None)
  /\ (~ backwardAfter k position (selection value) ->
      relocated k newKey position
        (anchor (selection value)) (anchor (selection value'))
      /\ relocated k newKey position
           (focus (selection value)) (focus (selection value')))
  /\ (backwardAfter k position (selection value) ->
      samePlace (anchor (selection value)) (anchor (selection value'))
      /\ key (focus (selection value')) = Some newKey
      /\ offset (focus (selection value'))
         = Some (toNumber (offset (anchor (selection value))) - position)).
Proof.
  intros Hnode Hnodup Hne Hset Hsplit.
  unfold splitNode in Hsplit.
  destruct (Document_splitNode newKey p position properties (document value))
    as [newDocument|] eqn:Hdoc; [|done].
  rewrite Hnode in Hsplit.
  pose proof (Document_splitNode_next _ _ _ _ _ _ _ _ Hnode Hnodup Hdoc)
    as Hnext.
  apply mapRanges_selection in Hsplit as [Hdoc' Hsel].
  cbn [selection document setDocument] in Hsel, Hdoc'.
  rewrite Hset in Hsel. destruct Hsel as (o & Hit & Hsame).
  assert (newKey <> k) as Hne' by congruence.
  split; [by rewrite Hdoc'|]. split.
  - intros Hnb.
    destruct (splitNodeRange_relocates newDocument k newKey s _ position
                (selection value) Hne' Hnext Hnb) as (r' & Hr' & Hra & Hrf).
    rewrite Hr' in Hit. injection Hit as <-.
    destruct Hsame as [[Hak Hao] [Hfk Hfo]].
    unfold relocated in *. rewrite Hak, Hao, Hfk, Hfo. by split.
  - intros Hba.
    rewrite (splitNodeRange_backward newDocument k newKey s _ position
               (selection value) Hne' Hnext Hba) in Hit.
    injection Hit as <-.
    destruct Hsame as [[Hak Hao] [Hfk Hfo]]. cbn in Hak, Hao, Hfk, Hfo.
    unfold samePlace. by rewrite Hak, Hao, Hfk, Hfo.
Qed.

(** X26.  [splitNode(path, position)] on a text node, for each point of a
    set selection that does not run backward with both points on the split
    text at or after [position]: a point on the split node at or after
    [position] goes to the newly created successor (the next text of the
    new document) with its offset reduced by [position]; a point on it
    strictly before [position], and a point on another node, keeps its key
    and offset. *)
Theorem splitNode_relocates_points
    (newKey : Key) (p : Path.t) (position : Z) (properties : option string)
    (value value' : Value) (k : Key) (s : string) (point : Range -> Point) :
  assertNode (document value) p = Some (Text k s) ->
  NoDup (textKeys (document value)) ->
  k <> newKey ->
  Range_isSet (selection value) = true ->
  ~ backwardAfter k position (selection value) ->
  splitNode newKey p position properties value = Some value' ->
  point = anchor \/ point = focus ->
  let pt := point (selection value) in
  let pt' := point (selection value') in
  getNextText (document value') k
  = Some (newKey, JsString.slice s position None)
  /\ (key pt = Some k -> position <= toNumber (offset pt) ->
      key pt' = Some newKey
      /\ offset pt' = Some (toNumber (offset pt) - position))
  /\ (key pt = Some k -> toNumber (offset pt) < position ->
      key pt' = key pt /\ offset pt' = offset pt)
  /\ (key pt <> Some k -> key pt' = key pt /\ offset pt' = offset pt).
Proof.
  intros Hnode Hnodup Hne Hset Hnb Hsplit Hpoint pt pt'.
  destruct (splitNode_selection _ _ _ _ _ _ _ _ Hnode Hnodup Hne Hset Hsplit)
    as (Hnext & Hrel & _).
  destruct (Hrel Hnb) as [Hra Hrf]. split; [done|].
  destruct Hpoint as [-> | ->]; subst pt pt'; assumption.
Qed.

(** *** [removeNode] *)

Lemma mapRanges_selection_exact (iterator : Range -> option (option Range))
    (value value' : Value) :
  mapRanges iterator value = Some value' ->
  Range_isSet (selection value) = true ->
  exists o,
    iterator (selection value) = Some o
    /\ let r := match o with
                | Some r => r
                | None => Range_unset (selection value)
                end in
       selection value' = r
       \/ createSelection (document value) r = Some (selection value').
Proof.
  unfold mapRanges. intros Hmap Hset. rewrite Hset in Hmap.
  destruct (iterator (selection value)) as [o|]; [|done].
  set (sel := match o with Some s => s | None => _ end) in *.
  exists o. split; [done|].
  destruct (bool_decide (sel <> selection value)).
  - destruct (createSelection (document value) sel) as [sel'|] eqn:Hc;
      [|done].
    destruct (mapAnnotations _ _ _); [|done]. injection Hmap as <-.
    by right.
  - destruct (mapAnnotations _ _ _); [|done]. injection Hmap as <-.
    by left.
Qed.

Lemma createSelection_unset (doc : Node) (r : Range) :
  createSelection doc (mkRange unsetPoint unsetPoint) = Some r ->
  r = mkRange unsetPoint unsetPoint.
Proof. cbn. by intros [= <-]. Qed.

(** Removing the node at a path removes its text leaves, and only them. *)
Lemma Document_removeNode_texts (p : Path.t) (doc doc' node : Node) :
  assertNode doc p = Some node ->
  Document_removeNode p doc = Some doc' ->
  exists L1 L2 : list TextLeaf,
    texts doc = L1 ++ texts node ++ L2 /\ texts doc' = L1 ++ L2.
Proof.
  intros Hnode Hrem. unfold Document_removeNode, onNodes in Hrem.
  destruct doc as [kd sd|o kd ty cs]; [done|].
  destruct (updateL _ p cs) as [cs'|] eqn:Hup; [|done].
  injection Hrem as <-.
  apply updateL_texts in Hup as (n & r & L1 & L2 & Hn & Hr & Hcs & Hcs').
  destruct p as [|i p]; [done|]. cbn [assertNode nodesOf] in Hnode.
  rewrite Hnode in Hn. injection Hn as <-. injection Hr as <-.
  exists L1, L2. by rewrite !texts_Element.
Qed.

Lemma firstOf_head (node : Node) (t : TextLeaf) (T : list TextLeaf) :
  texts node = t :: T -> firstOf node = fst t.
Proof.
  destruct node as [k s|o k ty cs]; cbn [firstOf].
  - by intros [= <- <-].
  - unfold getFirstText. by intros ->.
Qed.

Lemma lastOf_last (node : Node) (t : TextLeaf) (T : list TextLeaf) :
  texts node = T ++ [t] -> lastOf node = fst t.
Proof.
  destruct node as [k s|o k ty cs]; cbn [lastOf].
  - cbn. destruct T as [|u [|w T]]; [by intros [= <-]|done|done].
  - unfold getLastText. intros ->. by rewrite last_snoc.
Qed.

(** With keys that are not repeated, the texts before and after the
    removed subtree are its nearest neighbours. *)
Lemma removed_neighbours (doc node : Node) (L1 L2 : list TextLeaf) :
  NoDup (textKeys doc) ->
  texts doc = L1 ++ texts node ++ L2 ->
  texts node <> [] ->
  getPreviousText doc (firstOf node) = last L1
  /\ getNextText doc (lastOf node) = head L2.
Proof.
  unfold textKeys, getPreviousText, getNextText.
  intros Hnodup Hdoc Hne. rewrite Hdoc in *. split.
  - destruct (texts node) as [|[k s] T] eqn:HT; [done|].
    rewrite (firstOf_head _ _ _ HT). cbn [fst].
    rewrite map_app in Hnodup. apply NoDup_app in Hnodup as (_ & Hdisj & _).
    rewrite previousIn_app.
    + cbn [app]. rewrite previousIn_here. by destruct (last L1).
    + intros Hin. apply (Hdisj _ Hin). cbn. apply list_elem_of_here.
  - destruct (texts node) as [|t0 T0] eqn:HT using rev_ind; [done|].
    clear IHT0. destruct t0 as [k s].
    rewrite (lastOf_last _ _ _ HT). cbn [fst].
    assert (NoDup (map fst ((L1 ++ T0) ++ (k, s) :: L2))) as Hnodup'.
    { rewrite <- !app_assoc in Hnodup |- *. exact Hnodup. }
    transitivity (nextIn k ((L1 ++ T0) ++ (k, s) :: L2)).
    { f_equal. by rewrite <- !app_assoc. }
    clear Hnodup. rename Hnodup' into Hnodup.
    rewrite map_app in Hnodup. apply NoDup_app in Hnodup as (_ & Hdisj & _).
    rewrite nextIn_app.
    + cbn [app]. by rewrite nextIn_here.
    + intros Hin. apply (Hdisj _ Hin). cbn. apply list_elem_of_here.
Qed.

(** C7.  [removeNode(path)], on a set selection of a document whose text
    keys are not repeated.  The text leaves of the removed node go, the
    others stay, and [prev] and [next] are the last text before and the
    first text after the removed ones.  The anchor and the focus are
    treated independently: a point whose key lies inside the removed node
    goes to the end of [prev] if there is one, else to offset 0 of [next];
    a point outside keeps its key and offset.  When a point lies inside
    and there is neither [prev] nor [next], the range becomes unset. *)
Theorem removeNode_relocates_points
    (p : Path.t) (value value' : Value) (node : Node) :
  assertNode (document value) p = Some node ->
  NoDup (textKeys (document value)) ->
  Range_isSet (selection value) = true ->
  removeNode p value = Some value' ->
  let prev := getPreviousText (document value) (firstOf node) in
  let next := getNextText (document value) (lastOf node) in
  let inside (pt : Point) := hasNode node (key pt) in
  let a := anchor (selection value) in
  let f := focus (selection value) in
  (exists L1 L2 : list TextLeaf,
      texts (document value) = L1 ++ texts node ++ L2
      /\ texts (document value') = L1 ++ L2
      /\ (texts node <> [] -> prev = last L1 /\ next = head L2))
  /\ (prev = None -> next = None ->
      inside a = true \/ inside f = true ->
      selection value' = mkRange unsetPoint unsetPoint)
  /\ (is_Some prev \/ is_Some next
      \/ (inside a = false /\ inside f = false) ->
      forall point : Range -> Point,
        point = anchor \/ point = focus ->
        (inside (point (selection value)) = true ->
         placedAt prev next (point (selection value')))
        /\ (inside (point (selection value)) = false ->
            samePlace (point (selection value)) (point (selection value')))).
Proof.
  intros Hnode Hnodup Hset Hrem prev next inside a f.
  unfold removeNode in Hrem. rewrite Hnode in Hrem.
  fold prev next in Hrem.
  destruct (Document_removeNode p (document value)) as [doc'|] eqn:Hdoc;
    [|done].
  destruct (Document_removeNode_texts _ _ _ _ Hnode Hdoc)
    as (L1 & L2 & HL & HL').
  pose proof (mapRanges_selection _ _ _ Hrem) as [Hdoc' _].
  cbn [document setDocument] in Hdoc'.
  apply mapRanges_selection_exact in Hrem as (o & Hit & Hsel); [|done].
  cbn [selection document setDocument] in Hit, Hsel.
  unfold removeNodeRange in Hit. injection Hit as <-.
  fold a f in Hsel. fold (inside a) (inside f) in Hsel.
  split.
  { exists L1, L2. split; [done|]. split; [by rewrite Hdoc'|].
    intros Hne. by apply removed_neighbours. }
  split.
  - intros Hp Hn Hin. rewrite Hp, Hn in Hsel. cbv zeta in Hsel.
    assert (invalidatePaths
              (if inside f
               then relocate moveFocusTo None None
                      (if inside a
                       then relocate moveAnchorTo None None (selection value)
                       else selection value)
               else if inside a
                    then relocate moveAnchorTo None None (selection value)
                    else selection value)
            = mkRange unsetPoint unsetPoint) as Hunset.
    { destruct Hin as [-> | ->]; [by destruct (inside f)|].
      by destruct (inside a). }
    rewrite Hunset in Hsel. destruct Hsel as [Hsel|Hsel]; [done|].
    by apply createSelection_unset in Hsel.
  - intros Hcases point Hpoint. cbv zeta in Hsel.
    match type of Hsel with
    | selection value' = ?r \/ _ =>
        assert (samePlaces r (selection value')) as Hsame
          by (destruct Hsel as [-> | Hsel];
              [apply samePlaces_refl|by apply createSelection_samePlaces in Hsel])
    end.
    clear Hsel. destruct Hsame as [[Hak Hao] [Hfk Hfo]].
    unfold placedAt, samePlace.
    destruct (inside a) eqn:Ha, (inside f) eqn:Hf,
      prev as [[kp sp]|], next as [[kn sn]|];
      cbn in Hak, Hao, Hfk, Hfo;
      destruct Hpoint as [-> | ->]; fold a f; rewrite ?Ha, ?Hf;
      (split; [intros Hi|intros Hi]); try done;
      try (destruct Hcases as [[? [=]]|[[? [=]]|[[=] [=]]]]).
Qed.

(** *** Text keys under the operations of the document *)

Lemma updateL_keys (f : Node -> option (list Node)) (p : Path.t)
    (ns ns' : list Node) :
  (forall n r k, f n = Some r ->
                 k ∈ map fst (texts n) -> k ∈ map fst (flat_map texts r)) ->
  updateL f p ns = Some ns' ->
  forall k, k ∈ map fst (flat_map texts ns) ->
            k ∈ map fst (flat_map texts ns').
Proof.
  intros Hf Hup k.
  apply updateL_texts in Hup as (n & r & L1 & L2 & _ & Hr & -> & ->).
  rewrite !map_app, !elem_of_app. intros [?|[?|?]]; eauto.
Qed.

Lemma onNodes_keys (g : list Node -> option (list Node)) (doc doc' : Node) :
  (forall ns ns', g ns = Some ns' ->
     forall k, k ∈ map fst (flat_map texts ns) ->
               k ∈ map fst (flat_map texts ns')) ->
  onNodes g doc = Some doc' ->
  forall k, k ∈ textKeys doc -> k ∈ textKeys doc'.
Proof.
  intros Hg Hon k. unfold onNodes in Hon.
  destruct doc as [kd sd|o kd ty cs]; [done|].
  destruct (g cs) as [cs'|] eqn:Hcs; [|done]. injection Hon as <-.
  unfold textKeys. rewrite !texts_Element. by eapply Hg.
Qed.

Lemma flat_map_take_drop (i : nat) (cs : list Node) :
  flat_map texts (take i cs) ++ flat_map texts (drop i cs)
  = flat_map texts cs.
Proof. by rewrite <- flat_map_app, take_drop. Qed.

Lemma Document_splitNode_keys (newKey : Key) (p : Path.t) (position : Z)
    (properties : option string) (doc doc' : Node) :
  Document_splitNode newKey p position properties doc = Some doc' ->
  forall k, k ∈ textKeys doc -> k ∈ textKeys doc'.
Proof.
  apply onNodes_keys. intros ns ns'. apply updateL_keys.
  intros n r k Hr. destruct n as [kn s|o kn ty cs]; injection Hr as <-.
  - cbn. rewrite !elem_of_cons. tauto.
  - cbn [flat_map texts]. by rewrite app_nil_r, flat_map_take_drop.
Qed.

Lemma Document_setNode_keys (p : Path.t) (properties : option string)
    (doc doc' : Node) :
  Document_setNode p properties doc = Some doc' ->
  forall k, k ∈ textKeys doc -> k ∈ textKeys doc'.
Proof.
  apply onNodes_keys. intros ns ns'. apply updateL_keys.
  intros n r k [= <-]. cbn [flat_map]. rewrite app_nil_r.
  by destruct n.
Qed.

Lemma Document_insertText_keys (p : Path.t) (offset : Z) (text : string)
    (doc doc' : Node) :
  Document_insertText p offset text doc = Some doc' ->
  forall k, k ∈ textKeys doc -> k ∈ textKeys doc'.
Proof.
  apply onNodes_keys. intros ns ns'. apply updateL_keys.
  intros n r k Hr. destruct n as [kn s|o kn ty cs]; [|done].
  by injection Hr as <-.
Qed.

Lemma Document_removeText_keys (p : Path.t) (offset : Z) (text : string)
    (doc doc' : Node) :
  Document_removeText p offset text doc = Some doc' ->
  forall k, k ∈ textKeys doc -> k ∈ textKeys doc'.
Proof.
  apply onNodes_keys. intros ns ns'. apply updateL_keys.
  intros n r k Hr. destruct n as [kn s|o kn ty cs]; [|done].
  destruct (decide _); [|done]. by injection Hr as <-.
Qed.

(** Inserting a node adds its text leaves and keeps the others. *)
Lemma insertL_texts (node : Node) (p : Path.t) (ns ns' : list Node) :
  insertL node p ns = Some ns' ->
  exists L1 L2 : list TextLeaf,
    flat_map texts ns = L1 ++ L2
    /\ flat_map texts ns' = L1 ++ texts node ++ L2.
Proof.
  revert ns ns'. induction p as [|i p IH]; intros ns ns' Hins; [done|].
  cbn [insertL] in Hins. destruct p as [|j p].
  - destruct (i <=? length ns)%nat; [|done]. injection Hins as <-.
    exists (flat_map texts (take i ns)), (flat_map texts (drop i ns)).
    split; [by rewrite flat_map_take_drop|].
    rewrite !flat_map_app. cbn [flat_map]. by rewrite ?app_nil_r.
  - destruct (ns !! i) as [[k s|o k ty cs]|] eqn:Hi; [done| |done].
    destruct (insertL node (j :: p) cs) as [cs'|] eqn:Hcs; [|done].
    injection Hins as <-.
    destruct (IH cs cs' Hcs) as (L1 & L2 & Hcs1 & Hcs2).
    exists (flat_map texts (take i ns) ++ L1),
      (L2 ++ flat_map texts (drop (S i) ns)).
    split.
    + rewrite (flat_map_texts_middle ns i _ Hi), texts_Element, Hcs1.
      by rewrite <- !app_assoc.
    + rewrite !flat_map_app. cbn [flat_map]. rewrite texts_Element, Hcs2.
      by rewrite <- !app_assoc.
Qed.

Lemma Document_insertNode_texts (p : Path.t) (node doc doc' : Node) :
  Document_insertNode p node doc = Some doc' ->
  exists L1 L2 : list TextLeaf,
    texts doc = L1 ++ L2 /\ texts doc' = L1 ++ texts node ++ L2.
Proof.
  unfold Document_insertNode, onNodes. intros Hins.
  destruct doc as [kd sd|o kd ty cs]; [done|].
  destruct (insertL node p cs) as [cs'|] eqn:Hcs; [|done].
  injection Hins as <-. rewrite !texts_Element. by eapply insertL_texts.
Qed.

Lemma Document_insertNode_keys (p : Path.t) (node doc doc' : Node) :
  Document_insertNode p node doc = Some doc' ->
  forall k, k ∈ textKeys doc -> k ∈ textKeys doc'.
Proof.
  intros Hins k. unfold textKeys.
  apply Document_insertNode_texts in Hins as (L1 & L2 & -> & ->).
  rewrite !map_app, !elem_of_app. tauto.
Qed.

Lemma Document_moveNode_keys (p newPath : Path.t) (newIndex : nat)
    (doc doc' : Node) :
  Document_moveNode p newPath newIndex doc = Some doc' ->
  forall k, k ∈ textKeys doc -> k ∈ textKeys doc'.
Proof.
  unfold Document_moveNode. intros Hmove k.
  destruct (assertNode doc p) as [node|] eqn:Hnode; [|done].
  destruct (Document_removeNode p doc) as [doc1|] eqn:Hrem; [|done].
  destruct (assertNode doc1 (removelast newPath)); [|done].
  destruct (last newPath); [|done].
  apply (Document_removeNode_texts _ _ _ _ Hnode) in Hrem
    as (L1 & L2 & HL & HL1).
  apply Document_insertNode_texts in Hmove as (M1 & M2 & HM & HM').
  unfold textKeys. rewrite HL, HM'.
  rewrite HM in HL1.
  assert (forall x, x ∈ map fst (L1 ++ L2) -> x ∈ map fst (M1 ++ M2)) as Hsub
    by (intros x; by rewrite HL1).
  rewrite !map_app, !elem_of_app. intros [Hk|[Hk|Hk]].
  - specialize (Hsub k). rewrite !map_app, !elem_of_app in Hsub. tauto.
  - tauto.
  - specialize (Hsub k). rewrite !map_app, !elem_of_app in Hsub. tauto.
Qed.

Lemma decrement_cons (i j : nat) (p : Path.t) :
  decrement (i :: j :: p) = (fun q => i :: q) <$> decrement (j :: p).
Proof.
  unfold decrement. rewrite last_cons.
  destruct (last (j :: p)) as [[|l]|] eqn:Hlast; try done.
  by apply last_None in Hlast.
Qed.

Lemma mergeNodes_texts (one two m : Node) :
  mergeNodes one two = Some m ->
  ((forall k, k ∈ textKeys m <-> k ∈ textKeys one) /\ isText two = true)
  \/ ((forall k, k ∈ textKeys m <-> k ∈ textKeys one \/ k ∈ textKeys two)
      /\ isText two = false).
Proof.
  destruct one as [k1 s1|o1 k1 ty1 cs1], two as [k2 s2|o2 k2 ty2 cs2];
    cbn [mergeNodes]; try done.
  - intros [= <-]. by left.
  - destruct (decide (o1 = o2)); [|done]. intros [= <-]. right.
    split; [|done]. intros k. unfold textKeys.
    by rewrite !texts_Element, flat_map_app, map_app, elem_of_app.
Qed.

(** Merging a node into its predecessor puts the text leaves of the
    merged node in the place of those of the two. *)
Lemma mergeL_texts (p : Path.t) (ns ns' : list Node) :
  mergeL p ns = Some ns' ->
  exists (withPath : Path.t) (one two m : Node) (L1 L2 : list TextLeaf),
    decrement p = Some withPath
    /\ withPath <> []
    /\ getDescendant ns withPath = Some one
    /\ getDescendant ns p = Some two
    /\ mergeNodes one two = Some m
    /\ flat_map texts ns = L1 ++ texts one ++ texts two ++ L2
    /\ flat_map texts ns' = L1 ++ texts m ++ L2.
Proof.
  revert ns ns'. induction p as [|i p IH]; intros ns ns' Hm; [done|].
  cbn [mergeL] in Hm. destruct p as [|j p].
  - destruct i as [|i]; [done|].
    destruct (ns !! i) as [one|] eqn:Hone; [|done].
    destruct (ns !! S i) as [two|] eqn:Htwo; [|done].
    destruct (mergeNodes one two) as [m|] eqn:Hmerge; [|done].
    injection Hm as <-.
    exists [i], one, two, m, (flat_map texts (take i ns)),
      (flat_map texts (drop (S (S i)) ns)).
    split; [done|]. split; [done|].
    split; [by cbn; rewrite Hone|]. split; [by cbn; rewrite Htwo|].
    split; [done|]. split.
    + rewrite (flat_map_texts_middle ns i _ Hone).
      by rewrite (drop_S ns two (S i) Htwo).
    + rewrite !flat_map_app. cbn [flat_map]. by rewrite ?app_nil_r.
  - destruct (ns !! i) as [[k s|o k ty cs]|] eqn:Hi; [done| |done].
    destruct (mergeL (j :: p) cs) as [cs'|] eqn:Hcs; [|done].
    injection Hm as <-.
    destruct (IH cs cs' Hcs)
      as (withPath & one & two & m & L1 & L2
          & Hdec & Hne & Hone & Htwo & Hmerge & Hcs1 & Hcs2).
    exists (i :: withPath), one, two, m, (flat_map texts (take i ns) ++ L1),
      (L2 ++ flat_map texts (drop (S i) ns)).
    split; [by rewrite decrement_cons, Hdec|]. split; [done|].
    split.
    { cbn [getDescendant]. rewrite Hi. by destruct withPath. }
    split; [by cbn [getDescendant]; rewrite Hi|]. split; [done|]. split.
    + rewrite (flat_map_texts_middle ns i _ Hi), texts_Element, Hcs1.
      by rewrite <- !app_assoc.
    + rewrite !flat_map_app. cbn [flat_map]. rewrite texts_Element, Hcs2.
      by rewrite <- !app_assoc.
Qed.

Lemma nextIn_elem (k : Key) (l : list TextLeaf) (t : TextLeaf) :
  nextIn k l = Some t -> t ∈ l.
Proof.
  induction l as [|u l IH]; [done|]. cbn.
  destruct (decide (fst u = k)).
  - destruct l as [|w l]; [done|]. intros [= <-].
    apply list_elem_of_further, list_elem_of_here.
  - intros Hn. by apply list_elem_of_further, IH.
Qed.

Lemma getNextText_key (doc : Node) (k : Key) (t : TextLeaf) :
  getNextText doc k = Some t -> fst t ∈ textKeys doc.
Proof.
  intros Hn. apply nextIn_elem in Hn. unfold textKeys.
  by apply list_elem_of_fmap_2.
Qed.

(** *** The points stay on texts of the document *)

Lemma resolves_samePlace (doc : Node) (pt pt' : Point) :
  samePlace pt pt' -> resolves doc pt -> resolves doc pt'.
Proof. intros [Hk _] (k & Hpt & Hin). exists k. by rewrite Hk. Qed.

Lemma resolves_keys (doc doc' : Node) (pt pt' : Point) :
  (forall k, k ∈ textKeys doc -> k ∈ textKeys doc') ->
  key pt' = key pt ->
  resolves doc pt -> resolves doc' pt'.
Proof.
  intros Hsub Hk (k & Hpt & Hin). exists k. rewrite Hk. split; [done|].
  by apply Hsub.
Qed.

Lemma resolves_isSet (value : Value) :
  selectionResolves value -> Range_isSet (selection value) = true.
Proof.
  intros [(ka & Ha & _) (kf & Hf & _)]. unfold Range_isSet, Point_isSet.
  rewrite Ha, Hf. by rewrite !bool_decide_eq_true_2.
Qed.

(** An unset selection goes through [mapRanges] untouched. *)
Lemma mapRanges_unset (iterator : Range -> option (option Range))
    (value value' : Value) :
  mapRanges iterator value = Some value' ->
  selectionUnset value -> selectionUnset value'.
Proof.
  unfold selectionUnset. intros Hmap Hun.
  apply mapRanges_selection in Hmap as [_ Hsel].
  rewrite Hun in Hsel. cbn in Hsel. by rewrite Hsel.
Qed.

(** An iterator that leaves every key where it is, on a document that
    keeps its text keys. *)
Lemma mapRanges_resolves (iterator : Range -> option (option Range))
    (doc : Node) (value value' : Value) :
  (forall k, k ∈ textKeys doc -> k ∈ textKeys (document value)) ->
  (forall r r', iterator r = Some (Some r') ->
                key (anchor r') = key (anchor r)
                /\ key (focus r') = key (focus r)) ->
  (forall r, iterator r <> Some None) ->
  resolves doc (anchor (selection value)) ->
  resolves doc (focus (selection value)) ->
  mapRanges iterator value = Some value' ->
  selectionResolves value'.
Proof.
  intros Hsub Hkeys Hnull Ha Hf Hmap.
  assert (Range_isSet (selection value) = true) as Hset.
  { destruct Ha as (ka & Ha & _), Hf as (kf & Hf & _).
    unfold Range_isSet, Point_isSet.
    rewrite Ha, Hf. by rewrite !bool_decide_eq_true_2. }
  apply mapRanges_selection in Hmap as [Hdoc Hsel]. rewrite Hset in Hsel.
  destruct Hsel as (o & Hit & [[Hak _] [Hfk _]]).
  destruct o as [r'|]; [|by apply Hnull in Hit].
  destruct (Hkeys _ _ Hit) as [Hak' Hfk'].
  unfold selectionResolves. rewrite Hdoc. split.
  - eapply resolves_keys; [exact Hsub| |exact Ha]. congruence.
  - eapply resolves_keys; [exact Hsub| |exact Hf]. congruence.
Qed.

Lemma Node_ind' (P : Node -> Prop) :
  (forall k s, P (Text k s)) ->
  (forall o k ty cs, Forall P cs -> P (Element o k ty cs)) ->
  forall n, P n.
Proof.
  intros HT HE. fix IH 1. intros [k s|o k ty cs]; [apply HT|].
  apply HE. induction cs as [|c cs IHcs]; constructor; [apply IH|apply IHcs].
Qed.

Lemma textKeys_allKeys (n : Node) (k : Key) :
  k ∈ textKeys n -> k ∈ allKeys n.
Proof.
  revert k. induction n as [kn s|o kn ty cs IH] using Node_ind'; intros k.
  - done.
  - unfold textKeys. rewrite texts_Element. cbn [allKeys]. intros Hk.
    apply list_elem_of_further. clear kn.
    induction IH as [|c cs Hc _ IHcs]; [done|].
    cbn [flat_map] in *. rewrite map_app, elem_of_app in Hk.
    rewrite elem_of_app. destruct Hk as [Hk|Hk]; [left; by apply Hc|right].
    by apply IHcs.
Qed.

Lemma previousIn_elem (k : Key) (prev : option TextLeaf) (l : list TextLeaf)
    (t : TextLeaf) :
  previousIn k prev l = Some t -> prev = Some t \/ t ∈ l.
Proof.
  revert prev. induction l as [|u l IH]; intros prev; [done|]. cbn.
  destruct (decide (fst u = k)); [by left|].
  intros Hp. apply IH in Hp as [[= <-]|Hin].
  - right. apply list_elem_of_here.
  - right. by apply list_elem_of_further.
Qed.

(** The neighbours [removeNode] moves points to are still in the document
    once the node is removed. *)
Lemma removed_neighbours_survive (doc node : Node) (L1 L2 : list TextLeaf)
    (t : TextLeaf) :
  NoDup (textKeys doc) ->
  texts doc = L1 ++ texts node ++ L2 ->
  getPreviousText doc (firstOf node) = Some t
  \/ getNextText doc (lastOf node) = Some t ->
  fst t ∈ map fst (L1 ++ L2).
Proof.
  intros Hnodup Hdoc Ht. apply list_elem_of_fmap_2.
  destruct (texts node) as [|u T] eqn:HT.
  - cbn [app] in Hdoc. unfold getPreviousText, getNextText in Ht.
    rewrite Hdoc in Ht. destruct Ht as [Ht|Ht].
    + by apply previousIn_elem in Ht as [?|?].
    + by apply nextIn_elem in Ht.
  - destruct (removed_neighbours doc node L1 L2 Hnodup) as [Hp Hn].
    { by rewrite HT. }
    { by rewrite HT. }
    rewrite Hp, Hn in Ht. rewrite elem_of_app. destruct Ht as [Ht|Ht].
    + left. rewrite last_Some in Ht. destruct Ht as [l' ->].
      rewrite elem_of_app. right. apply list_elem_of_here.
    + right. destruct L2 as [|w L2]; [done|]. injection Ht as <-.
      apply list_elem_of_here.
Qed.

Lemma removeNodeRange_keys (node : Node) (prev next : option TextLeaf)
    (r r' : Range) (point : Range -> Point) :
  removeNodeRange node prev next r = Some (Some r') ->
  point = anchor \/ point = focus ->
  r' = mkRange unsetPoint unsetPoint
  \/ (key (point r') = key (point r)
      /\ hasNode node (key (point r)) = false)
  \/ (exists t, (prev = Some t \/ next = Some t)
                /\ key (point r') = Some (fst t)).
Proof.
  unfold removeNodeRange, relocate. intros [= <-] Hpoint.
  destruct (hasNode node (key (anchor r))) eqn:Ha,
           (hasNode node (key (focus r))) eqn:Hf,
           prev as [tp|], next as [tn|];
    destruct Hpoint as [-> | ->]; cbn; rewrite ?Ha, ?Hf; eauto 6.
Qed.

Lemma splitNodeRange_keys (newDocument node : Node) (position : Z)
    (r r' : Range) (point : Range -> Point) :
  splitNodeRange newDocument node position r = Some (Some r') ->
  point = anchor \/ point = focus ->
  key (point r') = key (point r)
  \/ exists t, getNextText newDocument (keyOf node) = Some t
               /\ key (point r') = Some (fst t).
Proof.
  unfold splitNodeRange, Range_start, Range_end, moveStartTo, moveEndTo.
  intros Hr Hpoint.
  destruct (getNextText newDocument (keyOf node)) as [t|].
  - repeat (case_match; simplify_eq);
      destruct Hpoint as [-> | ->]; cbn; eauto.
  - repeat (case_match; simplify_eq);
      destruct Hpoint as [-> | ->]; cbn; eauto.
Qed.

Lemma mapPoints_resolves (iterator : Point -> option Point)
    (doc : Node) (value value' : Value) :
  (forall k, k ∈ textKeys doc -> k ∈ textKeys (document value)) ->
  (forall pt pt', iterator pt = Some pt' -> key pt' = key pt) ->
  resolves doc (anchor (selection value)) ->
  resolves doc (focus (selection value)) ->
  mapPoints iterator value = Some value' ->
  selectionResolves value'.
Proof.
  intros Hsub Hkeys. unfold mapPoints. apply mapRanges_resolves; [done| |].
  - intros r r' Hr. unfold updatePoints in Hr.
    destruct (iterator (anchor r)) as [a|] eqn:Ha; [|done].
    destruct (iterator (focus r)) as [b|] eqn:Hb; [|done].
    injection Hr as <-. split; by apply Hkeys.
  - intros r. by destruct (updatePoints iterator r).
Qed.

Lemma splitNode_resolves (newKey : Key) (p : Path.t) (position : Z)
    (properties : option string) (value value' : Value) :
  selectionResolves value ->
  splitNode newKey p position properties value = Some value' ->
  selectionResolves value'.
Proof.
  intros Hres Hsplit. pose proof (resolves_isSet _ Hres) as Hset.
  destruct Hres as [Ha Hf]. unfold splitNode in Hsplit.
  destruct (Document_splitNode newKey p position properties (document value))
    as [newDocument|] eqn:Hdoc; [|done].
  destruct (assertNode (document value) p) as [node|]; [|done].
  apply mapRanges_selection in Hsplit as [Hdoc' Hsel].
  cbn [selection document setDocument] in Hsel, Hdoc'.
  rewrite Hset in Hsel. destruct Hsel as (o & Hit & [Hsa Hsf]).
  destruct o as [r'|].
  2: { unfold splitNodeRange in Hit. by repeat case_match. }
  pose proof (Document_splitNode_keys _ _ _ _ _ _ Hdoc) as Hsub.
  assert (forall point, point = anchor \/ point = focus ->
            resolves (document value) (point (selection value)) ->
            resolves newDocument (point r')) as Hpt.
  { intros point Hpoint (k & Hk & Hin).
    destruct (splitNodeRange_keys _ _ _ _ _ point Hit Hpoint)
      as [Hsame|(t & Hnext & Hmoved)].
    - exists k. split; [congruence|]. by apply Hsub.
    - exists (fst t). split; [done|]. by eapply getNextText_key. }
  unfold selectionResolves. rewrite Hdoc'. split.
  - eapply resolves_samePlace; [exact Hsa|]. apply (Hpt anchor); auto.
  - eapply resolves_samePlace; [exact Hsf|]. apply (Hpt focus); auto.
Qed.

Lemma mergeNode_resolves (p : Path.t) (value value' : Value) :
  selectionResolves value ->
  mergeNode p value = Some value' ->
  selectionResolves value'.
Proof.
  intros Hres Hmerge. pose proof (resolves_isSet _ Hres) as Hset.
  destruct Hres as [Ha Hf]. unfold mergeNode in Hmerge.
  destruct (Document_mergeNode p (document value)) as [newDocument|] eqn:Hdoc;
    [|done].
  destruct (decrement p) as [withPath|] eqn:Hdec; [|done].
  unfold Document_mergeNode, onNodes in Hdoc.
  destruct (document value) as [kd sd|o kd ty cs] eqn:Hd; [done|].
  destruct (mergeL p cs) as [cs'|] eqn:Hcs; [|done]. injection Hdoc as <-.
  apply mergeL_texts in Hcs
    as (withPath' & one & two & m & L1 & L2
        & Hdec' & Hne & Hone & Htwo & Hm & HL & HL').
  rewrite Hdec in Hdec'. injection Hdec' as <-.
  assert (assertNode (Element o kd ty cs) withPath = Some one) as Hone'
    by (by apply assertNode_getDescendant).
  assert (assertNode (Element o kd ty cs) p = Some two) as Htwo'
    by (by apply assertNode_getDescendant).
  rewrite Hone', Htwo' in Hmerge.
  apply mapRanges_selection in Hmerge as [Hdoc' Hsel].
  cbn [selection document setDocument] in Hsel, Hdoc'.
  rewrite Hset in Hsel. destruct Hsel as (r & Hit & [Hsa Hsf]).
  assert (forall k, k ∈ map fst (L1 ++ texts one ++ texts two ++ L2) ->
            (isText two = true -> Some k <> Some (keyOf two)) ->
            k ∈ map fst (L1 ++ texts m ++ L2)) as Hsub.
  { intros k. rewrite !map_app, !elem_of_app. intros Hk Hk2.
    destruct (mergeNodes_texts _ _ _ Hm) as [[Hone_m Htext]|[Hboth Helem]].
    - destruct Hk as [?|[Hk|[Hk|?]]]; auto.
      + right; left. by apply Hone_m.
      + destruct two as [k2 s2|]; [|done].
        cbn in Hk. apply list_elem_of_singleton in Hk as ->.
        by destruct Hk2.
    - destruct Hk as [?|[Hk|[Hk|?]]]; auto.
      + right; left. apply Hboth. by left.
      + right; left. apply Hboth. by right. }
  assert (forall pt pt', 
            resolves (Element o kd ty cs) pt ->
            (match two, one with
             | Text k2 _, Text k1 _ =>
                 if decide (key pt = Some k2) then key pt' = Some k1
                 else key pt' = key pt
             | Text _ _, Element _ _ _ _ => False
             | Element _ _ _ _, _ => key pt' = key pt
             end) ->
            resolves (Element o kd ty cs') pt') as Hpt.
  { intros pt pt' (k & Hk & Hin) Hcase.
    assert (forall k', k' ∈ map fst (L1 ++ texts m ++ L2) ->
              k' ∈ textKeys (Element o kd ty cs')) as Hnew.
    { intros k'. unfold textKeys. by rewrite texts_Element, HL'. }
    assert (k ∈ map fst (L1 ++ texts one ++ texts two ++ L2)) as Hold.
    { unfold textKeys in Hin. by rewrite texts_Element, HL in Hin. }
    destruct two as [k2 s2|o2 k2 ty2 cs2].
    - destruct one as [k1 s1|]; [|done].
      destruct (decide (key pt = Some k2)) as [Heq|Hneq].
      + exists k1. split; [done|]. apply Hnew. cbn in Hm.
        injection Hm as <-.
        rewrite !map_app, !elem_of_app. right; left. apply list_elem_of_here.
      + exists k. split; [congruence|]. apply Hnew, Hsub; [done|].
        cbn. intros _. congruence.
    - exists k. split; [congruence|]. by apply Hnew, Hsub. }
  unfold selectionResolves. rewrite Hdoc'.
  destruct r as [r|]; [|by destruct two as [|], one as [|]].
  split.
  - eapply resolves_samePlace; [exact Hsa|]. apply (Hpt _ _ Ha).
    destruct two as [k2 s2|], one as [k1 s1|]; cbn in Hit; try done;
      injection Hit as <-; cbn; repeat case_match; try done.
  - eapply resolves_samePlace; [exact Hsf|]. apply (Hpt _ _ Hf).
    destruct two as [k2 s2|], one as [k1 s1|]; cbn in Hit; try done;
      injection Hit as <-; cbn; repeat case_match; try done.
Qed.

Lemma removeNode_resolves (p : Path.t) (value value' : Value) :
  NoDup (textKeys (document value)) ->
  selectionResolves value ->
  removeNode p value = Some value' ->
  selectionResolves value' \/ selectionUnset value'.
Proof.
  intros Hnodup Hres Hrem. pose proof (resolves_isSet _ Hres) as Hset.
  destruct Hres as [Ha Hf]. unfold removeNode in Hrem.
  destruct (assertNode (document value) p) as [node|] eqn:Hnode; [|done].
  destruct (Document_removeNode p (document value)) as [doc'|] eqn:Hdoc;
    [|done].
  destruct (Document_removeNode_texts _ _ _ _ Hnode Hdoc)
    as (L1 & L2 & HL & HL').
  pose proof (mapRanges_selection _ _ _ Hrem) as [Hdoc' _].
  cbn [document setDocument] in Hdoc'.
  apply mapRanges_selection_exact in Hrem as (o & Hit & Hsel); [|done].
  cbn [selection document setDocument] in Hit, Hsel.
  destruct o as [r'|]; [|done]. cbv zeta in Hsel.
  destruct (decide (r' = mkRange unsetPoint unsetPoint)) as [->|Hnot].
  { right. unfold selectionUnset. destruct Hsel as [Hsel|Hsel]; [done|].
    by apply createSelection_unset in Hsel. }
  left.
  assert (samePlaces r' (selection value')) as [Hsa Hsf].
  { destruct Hsel as [-> | Hsel]; [apply samePlaces_refl|].
    by apply createSelection_samePlaces in Hsel. }
  assert (forall point, point = anchor \/ point = focus ->
            resolves (document value) (point (selection value)) ->
            resolves doc' (point r')) as Hpt.
  { intros point Hpoint (k & Hk & Hin).
    destruct (removeNodeRange_keys _ _ _ _ _ point Hit Hpoint)
      as [Hun|[[Hsame Hout]|(t & Ht & Hmoved)]]; [done| |].
    - exists k. split; [congruence|]. unfold textKeys in *.
      rewrite HL'. rewrite HL in Hin.
      rewrite !map_app, !elem_of_app in Hin. rewrite map_app, elem_of_app.
      destruct Hin as [?|[Hin|?]]; auto.
      rewrite Hk in Hout. cbn [hasNode] in Hout.
      apply bool_decide_eq_false in Hout. exfalso. apply Hout.
      by apply textKeys_allKeys.
    - exists (fst t). split; [done|]. unfold textKeys. rewrite HL'.
      by eapply removed_neighbours_survive. }
  unfold selectionResolves. rewrite Hdoc'. split.
  - eapply resolves_samePlace; [exact Hsa|]. apply (Hpt anchor); auto.
  - eapply resolves_samePlace; [exact Hsf|]. apply (Hpt focus); auto.
Qed.

(** One operation keeps the selection on texts of the document, or unset. *)
Lemma applyOperation_resolves (op : Operation) (value value' : Value) :
  NoDup (textKeys (document value)) ->
  selectionResolves value \/ selectionUnset value ->
  applyOperation op value = Some value' ->
  selectionResolves value' \/ selectionUnset value'.
Proof.
  intros Hnodup [Hres|Hun] Hop.
  - destruct op as [newKey p position properties|p|p node|p|p newPath newIndex
                   |p properties|p offset text|p offset text];
      cbn [applyOperation] in Hop.
    + left. by eapply splitNode_resolves.
    + left. by eapply mergeNode_resolves.
    + left. unfold insertNode in Hop.
      destruct (Document_insertNode p node (document value)) as [doc'|] eqn:Hd;
        [|done].
      destruct Hres as [Ha Hf].
      eapply (mapRanges_resolves _ (document value)) in Hop;
        [exact Hop| |by intros r r' [= <-]|done|exact Ha|exact Hf].
      by apply (Document_insertNode_keys _ _ _ _ Hd).
    + by eapply removeNode_resolves.
    + left. unfold moveNode in Hop.
      destruct (Path.eqb p newPath); [by injection Hop as <-|].
      destruct (Document_moveNode p newPath newIndex (document value))
        as [doc'|] eqn:Hd; [|done].
      destruct Hres as [Ha Hf].
      eapply (mapPoints_resolves _ (document value)) in Hop;
        [exact Hop| |by intros pt pt' [= <-]|exact Ha|exact Hf].
      by apply (Document_moveNode_keys _ _ _ _ _ Hd).
    + left. unfold setNode in Hop.
      destruct (Document_setNode p properties (document value))
        as [doc'|] eqn:Hd; [|done].
      injection Hop as <-. destruct Hres as [Ha Hf].
      split; (eapply resolves_keys;
              [by apply (Document_setNode_keys _ _ _ _ Hd)|reflexivity|done]).
    + left. unfold insertText in Hop.
      destruct (Document_insertText p offset text (document value))
        as [doc'|] eqn:Hd; [|done].
      destruct Hres as [Ha Hf].
      eapply (mapPoints_resolves _ (document value)) in Hop;
        [exact Hop| | |exact Ha|exact Hf].
      * by apply (Document_insertText_keys _ _ _ _ _ Hd).
      * intros pt pt'. unfold insertTextPoint.
        repeat case_match; by intros [= <-].
    + left. unfold removeText in Hop.
      destruct (assertNode (document value) p) as [node|]; [|done].
      destruct (Document_removeText p offset text (document value))
        as [doc'|] eqn:Hd; [|done].
      destruct Hres as [Ha Hf].
      eapply (mapPoints_resolves _ (document value)) in Hop;
        [exact Hop| | |exact Ha|exact Hf].
      * by apply (Document_removeText_keys _ _ _ _ _ Hd).
      * intros pt pt'. unfold removeTextPoint.
        repeat case_match; by intros [= <-].
  - right.
    destruct op as [newKey p position properties|p|p node|p|p newPath newIndex
                   |p properties|p offset text|p offset text];
      cbn [applyOperation] in Hop.
    + unfold splitNode in Hop. repeat case_match; try done.
      by eapply mapRanges_unset.
    + unfold mergeNode in Hop. repeat case_match; try done.
      by eapply mapRanges_unset.
    + unfold insertNode in Hop. repeat case_match; try done.
      by eapply mapRanges_unset.
    + unfold removeNode in Hop. repeat case_match; try done.
      by eapply mapRanges_unset.
    + unfold moveNode, mapPoints in Hop. repeat case_match; try done.
      * by injection Hop as <-.
      * by eapply mapRanges_unset.
    + unfold setNode in Hop. repeat case_match; try done.
      by injection Hop as <-.
    + unfold insertText, mapPoints in Hop. repeat case_match; try done.
      by eapply mapRanges_unset.
    + unfold removeText, mapPoints in Hop. repeat case_match; try done.
      by eapply mapRanges_unset.
Qed.

(** C4.  From a selection whose two points are on texts of the document,
    after any sequence of the operations [splitNode], [mergeNode],
    [insertNode], [removeNode], [moveNode], [setNode], [insertText] and
    [removeText] that goes through (no operation raises) on documents
    whose text keys are not repeated, the two points of the selection are
    again on texts of the resulting document, or the selection is unset:
    no point is left on a node that is gone. *)
Theorem operations_keep_selection_resolved
    (ops : list Operation) (value value' : Value) :
  selectionResolves value ->
  uniqueKeysAlong ops value = true ->
  applyOperations ops value = Some value' ->
  selectionResolves value' \/ selectionUnset value'.
Proof.
  intros Hres. assert (selectionResolves value \/ selectionUnset value) as Hinv
    by (by left).
  clear Hres. revert value Hinv.
  induction ops as [|op ops IH]; intros value Hinv Huniq Happly.
  - by injection Happly as <-.
  - cbn [applyOperations uniqueKeysAlong] in *.
    apply andb_true_iff in Huniq as [Hnodup Huniq].
    apply bool_decide_eq_true in Hnodup.
    destruct (applyOperation op value) as [value1|] eqn:Hop; [|done].
    apply (IH value1); [|done|done].
    by eapply applyOperation_resolves.
Qed.

Lemma sampleValue_resolves : selectionResolves sampleValue.
Proof.
  split; exists "a"%string; (split; [reflexivity|]);
    change (textKeys (document sampleValue)) with ["a"; "b"; "c"]%string;
    apply list_elem_of_here.
Defined.

Lemma sampleDocument_unique : NoDup (textKeys sampleDocument).
Proof. apply (bool_decide_unpack _). by vm_compute. Defined.

Lemma removeText_shifts_points_witness :
  removeText [0; 0]%nat 1 "or" sampleValue = Some afterRemoveText
  /\ offset (anchor (selection afterRemoveText)) = Some 1
  /\ offset (focus (selection afterRemoveText)) = Some 1.
Proof.
  split; [reflexivity|].
  destruct (removeText_shifts_points [0; 0]%nat 1 "or" sampleValue
              afterRemoveText "a" "word" anchor) as (_ & Hafter & _);
    [reflexivity|reflexivity|reflexivity|by left|].
  split; [|reflexivity]. apply Hafter; [reflexivity|by vm_compute].
Defined.

Lemma mergeNode_rebases_text_points_only_witness :
  mergeNode [0; 1]%nat sampleForward = Some afterMergeNode
  /\ key (anchor (selection afterMergeNode)) = Some "a"%string
  /\ offset (anchor (selection afterMergeNode)) = Some 7.
Proof.
  split; [reflexivity|].
  destruct (mergeNode_rebases_text_points_only [0; 1]%nat [0; 0]%nat
              sampleForward afterMergeNode
              (Text "a" "word") (Text "b" "more") anchor) as [Hmoved _];
    [reflexivity|reflexivity|reflexivity|reflexivity|reflexivity|by left|].
  by apply Hmoved.
Defined.

Lemma splitNode_relocates_points_witness :
  splitNode "n" [0; 0]%nat 2 None sampleValue = Some afterSplitNode
  /\ key (anchor (selection afterSplitNode)) = Some "n"%string
  /\ offset (anchor (selection afterSplitNode)) = Some 1
  /\ key (focus (selection afterSplitNode)) = Some "a"%string.
Proof.
  split; [reflexivity|].
  destruct (splitNode_relocates_points "n" [0; 0]%nat 2 None sampleValue
              afterSplitNode "a" "word" anchor) as (_ & Hmoved & _);
    [reflexivity|exact sampleDocument_unique|by vm_compute|reflexivity
    |unfold backwardAfter; cbn; lia|reflexivity|by left|].
  destruct Hmoved as [Hk Ho]; [reflexivity|by vm_compute|].
  split; [exact Hk|]. split; [exact Ho|reflexivity].
Defined.

Lemma removeNode_relocates_points_witness :
  removeNode [0; 0]%nat sampleValue = Some afterRemoveNode
  /\ placedAt None (Some ("b", "more")%string)
       (anchor (selection afterRemoveNode))
  /\ placedAt None (Some ("b", "more")%string)
       (focus (selection afterRemoveNode)).
Proof.
  split; [reflexivity|].
  destruct (removeNode_relocates_points [0; 0]%nat sampleValue
              afterRemoveNode (Text "a" "word")) as (_ & _ & Hplaced);
    [reflexivity|exact sampleDocument_unique|reflexivity|reflexivity|].
  split.
  - apply (Hplaced (or_intror (or_introl (ex_intro _ _ eq_refl))) anchor);
      [by left|reflexivity].
  - apply (Hplaced (or_intror (or_introl (ex_intro _ _ eq_refl))) focus);
      [by right|reflexivity].
Defined.

Lemma operations_keep_selection_resolved_witness :
  applyOperations sampleOperations sampleValue = Some afterOperations
  /\ (selectionResolves afterOperations \/ selectionUnset afterOperations).
Proof.
  split; [reflexivity|].
  apply (operations_keep_selection_resolved sampleOperations sampleValue);
    [exact sampleValue_resolves|by vm_compute|reflexivity].
Defined.

Import JsStringFacts.

(** *** Operations that only invalidate paths *)

Lemma resolvePoint_fresh (doc : Node) (pt pt' : Point) :
  resolvePoint doc (setPath None pt) = Some pt' -> pathFresh doc pt'.
Proof.
  unfold resolvePoint, pathFresh. cbn [path key setPath].
  destruct (key pt) as [k|] eqn:Hk.
  - destruct (getPath doc k) as [q|] eqn:Hq; [|done]. intros [= <-].
    right. exists k. by cbn.
  - intros [= <-]. by left.
Qed.

Lemma invalidated_selection (iterator : Range -> option (option Range))
    (value value' : Value) :
  (forall r, iterator r = Some (Some (invalidatePaths r))) ->
  mapRanges iterator value = Some value' ->
  Range_isSet (selection value) = true ->
  samePlaces (selection value) (selection value')
  /\ pathFresh (document value) (anchor (selection value'))
  /\ pathFresh (document value) (focus (selection value')).
Proof.
  intros Hiter Hmap Hset.
  pose proof (mapRanges_selection _ _ _ Hmap) as [_ Hsel].
  rewrite Hset, Hiter in Hsel. destruct Hsel as (o & [= <-] & Hsame).
  split; [exact Hsame|].
  apply mapRanges_selection_exact in Hmap as (o & Ho & Hsel); [|done].
  rewrite Hiter in Ho. injection Ho as <-.
  cbv zeta in Hsel. destruct Hsel as [-> | Hsel].
  - split; by left.
  - unfold createSelection, updatePoints in Hsel.
    cbn [anchor focus invalidatePaths] in Hsel.
    destruct (resolvePoint _ (setPath None (anchor _))) as [a|] eqn:Ha; [|done].
    destruct (resolvePoint _ (setPath None (focus _))) as [b|] eqn:Hb; [|done].
    injection Hsel as <-. cbn [anchor focus].
    split; by eapply resolvePoint_fresh.
Qed.

(** X7.  [insertNode(path, node)] keeps the key and the offset of the two
    points of a set selection and invalidates their paths: once the call
    returns, the path of a point is null or the path its key has in the
    new document. *)
Theorem insertNode_invalidates_paths
    (p : Path.t) (node : Node) (value value' : Value)
    (point : Range -> Point) :
  Range_isSet (selection value) = true ->
  insertNode p node value = Some value' ->
  point = anchor \/ point = focus ->
  samePlace (point (selection value)) (point (selection value'))
  /\ pathFresh (document value') (point (selection value')).
Proof.
  intros Hset Hins Hpoint. unfold insertNode in Hins.
  destruct (Document_insertNode p node (document value)) as [doc'|]; [|done].
  pose proof (mapRanges_selection _ _ _ Hins) as [Hdoc _].
  apply invalidated_selection in Hins as ([Ha Hf] & Hpa & Hpf);
    [|done|done].
  cbn [document selection setDocument] in *. rewrite Hdoc.
  by destruct Hpoint as [-> | ->].
Qed.


(** *** [insertText] *)

Lemma insertTextPoint_Some (p : Path.t) (offset : Z) (text : string)
    (pt pt' : Point) :
  insertTextPoint p offset text pt = Some pt' ->
  is_Some (path pt)
  /\ key pt' = key pt /\ path pt' = path pt
  /\ (path pt = Some p -> offset <= toNumber (Legacy.offset pt) ->
      Legacy.offset pt'
      = Some (toNumber (Legacy.offset pt) + JsString.length text))
  /\ (path pt = Some p -> toNumber (Legacy.offset pt) < offset ->
      Legacy.offset pt' = Legacy.offset pt)
  /\ (path pt <> Some p -> Legacy.offset pt' = Legacy.offset pt).
Proof.
  unfold insertTextPoint, Path.eqb. destruct (path pt) as [q|] eqn:Hq; [|done].
  rewrite Z.geb_leb.
  destruct (decide (q = p)) as [->|Hne].
  - rewrite bool_decide_eq_true_2 by done. cbn [andb].
    destruct (offset <=? toNumber (Legacy.offset pt)) eqn:Hle.
    + apply Z.leb_le in Hle. intros [= <-]. cbn.
      repeat split; try done; intros; first [lia | exfalso; lia | congruence].
    + apply Z.leb_gt in Hle. intros [= <-].
      repeat split; try done; intros; first [lia | exfalso; lia | congruence].
  - rewrite bool_decide_eq_false_2 by done. cbn [andb]. intros [= <-].
    repeat split; try done; intros; congruence.
Qed.

Lemma resolvePoint_path (doc : Node) (pt : Point) :
  is_Some (path pt) -> resolvePoint doc pt = Some pt.
Proof. intros [q Hq]. unfold resolvePoint. by rewrite Hq. Qed.

(** X9.  [insertText(path, offset, text)], for each point of a set
    selection: a point whose path is [path] and whose offset is at or
    after [offset] has its offset increased by [text.length]; a point at
    [path] before [offset], and a point at another path, keeps its offset.
    The points are compared by path, and no point changes its key. *)
Theorem insertText_shifts_points
    (p : Path.t) (offset : Z) (text : string) (value value' : Value)
    (point : Range -> Point) :
  Range_isSet (selection value) = true ->
  insertText p offset text value = Some value' ->
  point = anchor \/ point = focus ->
  let pt := point (selection value) in
  let pt' := point (selection value') in
  let o := toNumber (Legacy.offset pt) in
  key pt' = key pt
  /\ (path pt = Some p -> offset <= o ->
      Legacy.offset pt' = Some (o + JsString.length text))
  /\ (path pt = Some p -> o < offset ->
      Legacy.offset pt' = Legacy.offset pt)
  /\ (path pt <> Some p -> Legacy.offset pt' = Legacy.offset pt).
Proof.
  intros Hset Hins Hpoint pt pt' o. unfold insertText in Hins.
  destruct (Document_insertText p offset text (document value)) as [doc'|];
    [|done].
  unfold mapPoints in Hins.
  apply mapRanges_selection_exact in Hins as (r & Hit & Hsel); [|done].
  cbn [selection document setDocument] in Hit, Hsel.
  unfold updatePoints in Hit.
  destruct (insertTextPoint p offset text (anchor (selection value)))
    as [a|] eqn:Ha; [|done].
  destruct (insertTextPoint p offset text (focus (selection value)))
    as [b|] eqn:Hb; [|done].
  injection Hit as <-. cbv zeta in Hsel.
  apply insertTextPoint_Some in Ha as (Hpa & Ha).
  apply insertTextPoint_Some in Hb as (Hpb & Hb).
  assert (selection value' = mkRange a b) as Hsel'.
  { destruct Hsel as [Hsel|Hsel]; [done|].
    unfold createSelection, updatePoints in Hsel. cbn [anchor focus] in Hsel.
    rewrite !resolvePoint_path in Hsel; [by injection Hsel as <-| |].
    - destruct Hb as (_ & -> & _). exact Hpb.
    - destruct Ha as (_ & -> & _). exact Hpa. }
  subst pt pt' o. rewrite Hsel'.
  destruct Hpoint as [-> | ->]; cbn [anchor focus]; tauto.
Qed.

(** *** [mapRanges] *)

Lemma mapAnnotations_identity (doc : Node) (anns : list (string * Range)) :
  mapAnnotations (fun r => Some (Some r)) doc anns = Some anns.
Proof.
  induction anns as [|[name a] anns IH]; [done|].
  cbn [mapAnnotations]. rewrite IH. unfold mapAnnotation.
  destruct (Range_isSet a);
    by rewrite bool_decide_eq_false_2 by (intros Hne; by apply Hne).
Qed.

(** X10.  [mapRanges] with an iterator that returns the range it is given
    returns the value as it is: neither the selection nor an annotation is
    created again, so nothing can raise. *)
Theorem mapRanges_identity (value : Value) :
  mapRanges (fun r => Some (Some r)) value = Some value.
Proof.
  unfold mapRanges. rewrite mapAnnotations_identity.
  destruct value as [doc sel anns]. cbn [document selection annotations].
  destruct (Range_isSet sel);
    by rewrite bool_decide_eq_false_2 by (intros Hne; by apply Hne).
Qed.

Lemma mapAnnotations_null (doc : Node) (anns : list (string * Range)) :
  mapAnnotations (fun _ => Some None) doc anns
  = Some (filter (fun a => Range_isSet (snd a) = false) anns).
Proof.
  induction anns as [|[name a] anns IH]; [done|].
  cbn [mapAnnotations]. rewrite IH. unfold mapAnnotation.
  destruct (Range_isSet a) eqn:Hset.
  - rewrite filter_cons_False; [done|]. cbn. by rewrite Hset.
  - rewrite bool_decide_eq_false_2 by (intros Hne; by apply Hne).
    rewrite filter_cons_True; [done|]. done.
Qed.

(** X11.  [mapRanges] with an iterator that answers null unsets a set
    selection and drops every set annotation; an unset selection and the
    unset annotations stay as they are, and the document is kept. *)
Theorem mapRanges_null_iterator (value : Value) :
  mapRanges (fun _ => Some None) value
  = Some (mkValue (document value)
            (if Range_isSet (selection value)
             then mkRange unsetPoint unsetPoint
             else selection value)
            (filter (fun a => Range_isSet (snd a) = false)
                    (annotations value))).
Proof.
  unfold mapRanges. rewrite mapAnnotations_null.
  destruct (Range_isSet (selection value)) eqn:Hset.
  - rewrite bool_decide_eq_true_2; [done|].
    intros Heq. rewrite <- Heq in Hset. done.
  - by rewrite bool_decide_eq_false_2 by (intros Hne; by apply Hne).
Qed.

(** X12.  An operation never sets a selection that is not set: when the
    selection is unset (one of its points has no key), every operation
    that goes through leaves it as it is. *)
Theorem applyOperation_leaves_unset_selection
    (op : Operation) (value value' : Value) :
  Range_isSet (selection value) = false ->
  applyOperation op value = Some value' ->
  selection value' = selection value.
Proof.
  intros Hset Hop.
  assert (forall iterator doc,
            mapRanges iterator (setDocument doc value) = Some value' ->
            selection value' = selection value) as Hmap.
  { intros iterator doc Hm. apply mapRanges_selection in Hm as [_ Hsel].
    cbn [selection setDocument] in Hsel. by rewrite Hset in Hsel. }
  destruct op as [newKey p position properties|p|p node|p|p newPath newIndex
                 |p properties|p offset text|p offset text];
    cbn [applyOperation] in Hop.
  - unfold splitNode in Hop. repeat case_match; try done. by eapply Hmap.
  - unfold mergeNode in Hop. repeat case_match; try done. by eapply Hmap.
  - unfold insertNode in Hop. repeat case_match; try done. by eapply Hmap.
  - unfold removeNode in Hop. repeat case_match; try done. by eapply Hmap.
  - unfold moveNode, mapPoints in Hop. repeat case_match; try done.
    + by injection Hop as <-.
    + by eapply Hmap.
  - unfold setNode in Hop. repeat case_match; try done.
    by injection Hop as <-.
  - unfold insertText, mapPoints in Hop. repeat case_match; try done.
    by eapply Hmap.
  - unfold removeText, mapPoints in Hop. repeat case_match; try done.
    by eapply Hmap.
Qed.

(** *** Replacing one child *)

Lemma replaced_lookup (ns r : list Node) (i : nat) (x : Node) :
  (i <= length ns)%nat ->
  (take i ns ++ x :: r) !! i = Some x.
Proof.
  intros Hi. rewrite lookup_app_r by (rewrite length_take; lia).
  rewrite length_take. by replace (i - i `min` length ns)%nat with 0%nat by lia.
Qed.

Lemma replaced_take (ns r : list Node) (i : nat) :
  (i <= length ns)%nat -> take i (take i ns ++ r) = take i ns.
Proof.
  intros Hi. rewrite take_app_le by (rewrite length_take; lia).
  rewrite take_take. f_equal. lia.
Qed.

Lemma replaced_drop (ns r r' : list Node) (i : nat) :
  (i <= length ns)%nat ->
  drop (i + length r) (take i ns ++ r ++ r') = r'.
Proof.
  intros Hi. rewrite drop_app_ge by (rewrite length_take; lia).
  rewrite length_take.
  replace (i + length r - i `min` length ns)%nat with (length r) by lia.
  by rewrite drop_app_length.
Qed.

Lemma replaced_drop1 (ns r' : list Node) (i : nat) (x : Node) :
  (i <= length ns)%nat ->
  drop (S i) (take i ns ++ x :: r') = r'.
Proof.
  intros Hi. replace (S i) with (i + length [x])%nat by (cbn; lia).
  by apply (replaced_drop ns [x]).
Qed.

(** An update that puts one node in the place of the node at [p] is
    undone by an update that puts the old node back. *)
Lemma updateL_undo (f g : Node -> option (list Node)) (p : Path.t)
    (ns ns' : list Node) :
  updateL f p ns = Some ns' ->
  (forall n r, getDescendant ns p = Some n -> f n = Some r ->
               exists n', r = [n'] /\ g n' = Some [n]) ->
  updateL g p ns' = Some ns.
Proof.
  revert ns ns'. induction p as [|i p IH]; intros ns ns' Hup Hfg; [done|].
  cbn [updateL getDescendant] in *.
  destruct (ns !! i) as [n|] eqn:Hi; [|done].
  assert (i <= length ns)%nat as Hlen
      by (apply lookup_lt_Some in Hi; lia).
  destruct p as [|j p].
  - destruct (f n) as [r|] eqn:Hf; [|done]. injection Hup as <-.
    destruct (Hfg n r eq_refl Hf) as (n' & -> & Hg). cbn [app].
    rewrite replaced_lookup by done. rewrite Hg.
    rewrite replaced_take, replaced_drop1 by done.
    f_equal. cbn [app]. by apply take_drop_middle.
  - destruct n as [k s|o k ty cs]; [done|].
    destruct (updateL f (j :: p) cs) as [cs'|] eqn:Hcs; [|done].
    injection Hup as <-.
    rewrite replaced_lookup by done.
    rewrite (IH cs cs' Hcs) by (intros n r Hn; by apply Hfg).
    rewrite replaced_take, replaced_drop1 by done.
    f_equal. cbn [app]. by apply take_drop_middle.
Qed.

(** *** Paths below the first level *)

Lemma updateL_cons (f : Node -> option (list Node)) (j : nat) (p : Path.t)
    (ns : list Node) :
  p <> [] ->
  updateL f (j :: p) ns
  = match ns !! j with
    | Some (Element o k ty cs) =>
        match updateL f p cs with
        | Some cs' => Some (take j ns ++ [Element o k ty cs'] ++ drop (S j) ns)
        | None => None
        end
    | _ => None
    end.
Proof.
  intros Hp. destruct p as [|i p]; [done|]. cbn [updateL].
  by destruct (ns !! j) as [[|]|].
Qed.

Lemma mergeL_cons (j : nat) (p : Path.t) (ns : list Node) :
  p <> [] ->
  mergeL (j :: p) ns
  = match ns !! j with
    | Some (Element o k ty cs) =>
        match mergeL p cs with
        | Some cs' => Some (take j ns ++ [Element o k ty cs'] ++ drop (S j) ns)
        | None => None
        end
    | _ => None
    end.
Proof. intros Hp. by destruct p as [|i p]. Qed.

Lemma insertL_cons (node : Node) (j : nat) (p : Path.t) (ns : list Node) :
  p <> [] ->
  insertL node (j :: p) ns
  = match ns !! j with
    | Some (Element o k ty cs) =>
        match insertL node p cs with
        | Some cs' => Some (take j ns ++ [Element o k ty cs'] ++ drop (S j) ns)
        | None => None
        end
    | _ => None
    end.
Proof. intros Hp. by destruct p as [|i p]. Qed.

Lemma getDescendant_cons (j : nat) (p : Path.t) (ns : list Node) :
  p <> [] ->
  getDescendant ns (j :: p)
  = match ns !! j with
    | Some n => getDescendant (nodesOf n) p
    | None => None
    end.
Proof. intros Hp. by destruct p as [|i p]. Qed.

Lemma snoc_not_nil (q : Path.t) (i : nat) : q ++ [i] <> [].
Proof. by destruct q. Qed.

(** *** Inserting a node, then removing it *)

Lemma insertL_getDescendant (node : Node) (p : Path.t) (ns ns' : list Node) :
  insertL node p ns = Some ns' -> getDescendant ns' p = Some node.
Proof.
  revert ns ns'. induction p as [|i p IH]; intros ns ns' Hins; [done|].
  destruct (decide (p = [])) as [->|Hp].
  - cbn [insertL getDescendant] in *.
    destruct (i <=? length ns)%nat eqn:Hi; [|done]. injection Hins as <-.
    apply Nat.leb_le in Hi. by rewrite replaced_lookup.
  - rewrite insertL_cons in Hins by done. rewrite getDescendant_cons by done.
    destruct (ns !! i) as [[k s|o k ty cs]|] eqn:Hi; [done| |done].
    destruct (insertL node p cs) as [cs'|] eqn:Hcs; [|done].
    injection Hins as <-.
    rewrite replaced_lookup by (apply lookup_lt_Some in Hi; lia).
    cbn [nodesOf]. by apply IH with cs.
Qed.

Lemma insertL_undo (node : Node) (p : Path.t) (ns ns' : list Node) :
  insertL node p ns = Some ns' ->
  updateL (fun _ => Some []) p ns' = Some ns.
Proof.
  revert ns ns'. induction p as [|i p IH]; intros ns ns' Hins; [done|].
  destruct (decide (p = [])) as [->|Hp].
  - cbn [insertL updateL] in *.
    destruct (i <=? length ns)%nat eqn:Hi; [|done]. injection Hins as <-.
    apply Nat.leb_le in Hi. rewrite replaced_lookup by done.
    rewrite replaced_take, replaced_drop1 by done.
    cbn [app]. by rewrite take_drop.
  - rewrite insertL_cons in Hins by done. rewrite updateL_cons by done.
    destruct (ns !! i) as [[k s|o k ty cs]|] eqn:Hi; [done| |done].
    destruct (insertL node p cs) as [cs'|] eqn:Hcs; [|done].
    injection Hins as <-.
    assert (i <= length ns)%nat as Hlen
        by (apply lookup_lt_Some in Hi; lia).
    rewrite replaced_lookup by done. rewrite (IH cs cs' Hcs).
    rewrite replaced_take, replaced_drop1 by done.
    f_equal. cbn [app]. by apply take_drop_middle.
Qed.

(** *** Splitting a node, then merging the two parts *)

Lemma replaced_lookup2 (ns r : list Node) (i : nat) (x y : Node) :
  (i <= length ns)%nat ->
  (take i ns ++ x :: y :: r) !! S i = Some y.
Proof.
  intros Hi. rewrite lookup_app_r by (rewrite length_take; lia).
  rewrite length_take.
  by replace (S i - i `min` length ns)%nat with 1%nat by lia.
Qed.

Lemma replaced_drop2 (ns r' : list Node) (i : nat) (x y : Node) :
  (i <= length ns)%nat ->
  drop (S (S i)) (take i ns ++ x :: y :: r') = r'.
Proof.
  intros Hi. replace (S (S i)) with (i + length [x; y])%nat by (cbn; lia).
  by apply (replaced_drop ns [x; y]).
Qed.

Lemma split_merge_undo (f : Node -> option (list Node)) (q : Path.t)
    (i : nat) (ns ns' : list Node) (n A B : Node) :
  updateL f (q ++ [i]) ns = Some ns' ->
  getDescendant ns (q ++ [i]) = Some n ->
  f n = Some [A; B] ->
  mergeNodes A B = Some n ->
  getDescendant ns' (q ++ [i]) = Some A
  /\ getDescendant ns' (q ++ [S i]) = Some B
  /\ mergeL (q ++ [S i]) ns' = Some ns.
Proof.
  intros Hup Hn Hf Hm. revert ns ns' Hup Hn.
  induction q as [|j q IH]; intros ns ns' Hup Hn.
  - cbn [app updateL getDescendant mergeL] in *.
    destruct (ns !! i) as [n0|] eqn:Hi; [|done]. injection Hn as ->.
    rewrite Hf in Hup. injection Hup as <-.
    assert (i <= length ns)%nat as Hlen
        by (apply lookup_lt_Some in Hi; lia).
    cbn [app]. rewrite replaced_lookup, replaced_lookup2 by done.
    split; [done|]. split; [done|]. rewrite Hm.
    rewrite replaced_take, replaced_drop2 by done.
    f_equal. cbn [app]. by apply take_drop_middle.
  - cbn [app] in *.
    rewrite updateL_cons in Hup by apply snoc_not_nil.
    rewrite getDescendant_cons in Hn by apply snoc_not_nil.
    rewrite !getDescendant_cons, mergeL_cons by apply snoc_not_nil.
    destruct (ns !! j) as [[k s|o k ty cs]|] eqn:Hj; [done| |done].
    destruct (updateL f (q ++ [i]) cs) as [cs'|] eqn:Hcs; [|done].
    injection Hup as <-. cbn [nodesOf] in Hn.
    assert (j <= length ns)%nat as Hlen
        by (apply lookup_lt_Some in Hj; lia).
    cbn [app]. rewrite replaced_lookup by done. cbn [nodesOf].
    destruct (IH cs cs' Hcs Hn) as (HA & HB & Hmerge).
    split; [done|]. split; [done|]. rewrite Hmerge.
    rewrite replaced_take, replaced_drop1 by done.
    f_equal. cbn [app]. by apply take_drop_middle.
Qed.

Lemma assertNode_nonempty (doc : Node) (p : Path.t) :
  p <> [] -> assertNode doc p = getDescendant (nodesOf doc) p.
Proof. by destruct p. Qed.

Lemma samePlaces_isSet (r r' : Range) :
  samePlaces r r' -> Range_isSet r' = Range_isSet r.
Proof.
  intros [[Ha _] [Hf _]]. unfold Range_isSet, Point_isSet. by rewrite Ha, Hf.
Qed.

Lemma samePlaces_sym (r r' : Range) : samePlaces r r' -> samePlaces r' r.
Proof. intros [[? ?] [? ?]]. by repeat split. Qed.

(** *** [insertNode], then [removeNode] *)

Lemma Document_insertNode_undo (p : Path.t) (node doc doc1 : Node) :
  Document_insertNode p node doc = Some doc1 ->
  assertNode doc1 p = Some node /\ Document_removeNode p doc1 = Some doc.
Proof.
  unfold Document_insertNode, Document_removeNode, onNodes. intros Hins.
  destruct doc as [kd sd|o kd ty cs]; [done|].
  destruct (insertL node p cs) as [cs1|] eqn:Hcs; [|done].
  injection Hins as <-. split.
  - rewrite assertNode_nonempty by (intros ->; done).
    by eapply insertL_getDescendant.
  - by rewrite (insertL_undo _ _ _ _ Hcs).
Qed.

(** X13.  [removeNode(path)] undoes [insertNode(path, node)]: when no point
    of the selection is on a key of the inserted node, the document is
    the one before the insertion and the two points of the selection have
    the keys and offsets they had. *)
Theorem removeNode_undoes_insertNode
    (p : Path.t) (node : Node) (value value1 value2 : Value) :
  hasNode node (key (anchor (selection value))) = false ->
  hasNode node (key (focus (selection value))) = false ->
  insertNode p node value = Some value1 ->
  removeNode p value1 = Some value2 ->
  document value2 = document value
  /\ samePlaces (selection value) (selection value2).
Proof.
  intros Ha Hf Hins Hrem. unfold insertNode in Hins.
  destruct (Document_insertNode p node (document value)) as [doc1|] eqn:Hdoc;
    [|done].
  apply Document_insertNode_undo in Hdoc as [Hnode Hundo].
  apply mapRanges_selection in Hins as [Hdoc1 Hsel1].
  cbn [document selection setDocument] in Hdoc1, Hsel1.
  unfold removeNode in Hrem. rewrite Hdoc1, Hnode, Hundo in Hrem.
  apply mapRanges_selection in Hrem as [Hdoc2 Hsel2].
  cbn [document selection setDocument] in Hdoc2, Hsel2.
  split; [done|].
  destruct (Range_isSet (selection value)) eqn:Hset.
  - destruct Hsel1 as (o & [= <-] & Hsame1).
    pose proof (samePlaces_trans _ _ _ (invalidatePaths_samePlaces _) Hsame1)
      as Hs1.
    rewrite (samePlaces_isSet _ _ Hs1), Hset in Hsel2.
    destruct Hsel2 as (o & Hit & Hsame2).
    unfold removeNodeRange in Hit.
    destruct Hs1 as [[Hka Hoa] [Hkf Hof]].
    rewrite Hka, Hkf, Ha, Hf in Hit. injection Hit as <-.
    eapply samePlaces_trans; [|exact Hsame2].
    eapply samePlaces_trans; [|apply invalidatePaths_samePlaces].
    by repeat split.
  - rewrite Hsel1, Hset in Hsel2. rewrite Hsel2. apply samePlaces_refl.
Qed.

(** *** [splitNode], then [mergeNode] *)

Lemma decrement_snoc (q : Path.t) (i : nat) :
  decrement (q ++ [S i]) = Some (q ++ [i]).
Proof. unfold decrement. by rewrite last_snoc, removelast_last. Qed.

(** The iterator of [mergeNode] on two texts. *)
Lemma mergeNodeRange_texts (k1 k2 : Key) (s1 s2 : string) (r : Range) :
  exists r',
    mergeNodeRange (Some (Text k1 s1)) (Some (Text k2 s2)) r = Some (Some r')
    /\ forall point : Range -> Point,
        point = anchor \/ point = focus ->
        (key (point r) = Some k2 ->
         key (point r') = Some k1
         /\ offset (point r')
            = Some (JsString.length s1 + toNumber (offset (point r))))
        /\ (key (point r) <> Some k2 ->
            key (point r') = key (point r)
            /\ offset (point r') = offset (point r)).
Proof.
  eexists. split; [reflexivity|]. intros point Hpoint.
  destruct (decide (key (anchor r) = Some k2)) as [Ha|Ha];
    (destruct (decide (key (focus (_ : Range)) = Some k2)) as [Hf|Hf]);
    cbn in Ha, Hf; destruct Hpoint as [-> | ->];
    split; intros Hk; cbn; try done; try congruence.
Qed.

Lemma Document_splitNode_undo (newKey : Key) (q : Path.t) (i : nat)
    (position : Z) (properties : option string) (doc doc1 : Node)
    (k : Key) (s : string) :
  assertNode doc (q ++ [i]) = Some (Text k s) ->
  Document_splitNode newKey (q ++ [i]) position properties doc = Some doc1 ->
  assertNode doc1 (q ++ [i])
  = Some (Text k (JsString.slice s 0 (Some position)))
  /\ assertNode doc1 (q ++ [S i])
     = Some (Text newKey (JsString.slice s position None))
  /\ Document_mergeNode (q ++ [S i]) doc1 = Some doc.
Proof.
  unfold Document_splitNode, Document_mergeNode, onNodes.
  intros Hnode Hsplit.
  destruct doc as [kd sd|o kd ty cs]; [done|].
  destruct (updateL _ (q ++ [i]) cs) as [cs1|] eqn:Hcs; [|done].
  injection Hsplit as <-.
  rewrite assertNode_nonempty in Hnode by apply snoc_not_nil.
  rewrite !assertNode_nonempty by apply snoc_not_nil. cbn [nodesOf] in *.
  destruct (split_merge_undo _ _ _ _ _ _
              (Text k (JsString.slice s 0 (Some position)))
              (Text newKey (JsString.slice s position None))
              Hcs Hnode eq_refl) as (HA & HB & Hmerge).
  { cbn [mergeNodes]. by rewrite slice_split. }
  by rewrite HA, HB, Hmerge.
Qed.

(** X14.  [mergeNode] undoes [splitNode]: after a text is split at
    [position] and its new sibling is merged back, the document is the
    one before the split and each point of the selection is on the key it
    was on, at the offset it had, unless the selection ran backward with
    both points on the split text at or after [position]. *)
Theorem mergeNode_undoes_splitNode
    (newKey : Key) (q : Path.t) (i : nat) (position : Z)
    (properties : option string) (value value1 value2 : Value)
    (k : Key) (s : string) (point : Range -> Point) :
  assertNode (document value) (q ++ [i]) = Some (Text k s) ->
  0 <= position <= JsString.length s ->
  NoDup (textKeys (document value)) ->
  k <> newKey ->
  key (anchor (selection value)) <> Some newKey ->
  key (focus (selection value)) <> Some newKey ->
  ~ backwardAfter k position (selection value) ->
  splitNode newKey (q ++ [i]) position properties value = Some value1 ->
  mergeNode (q ++ [S i]) value1 = Some value2 ->
  point = anchor \/ point = focus ->
  document value2 = document value
  /\ key (point (selection value2)) = key (point (selection value))
  /\ toNumber (offset (point (selection value2)))
     = toNumber (offset (point (selection value))).
Proof.
  intros Hnode Hpos Hnodup Hk Hna Hnf Hnb Hsplit Hmerge Hpoint.
  unfold splitNode in Hsplit.
  destruct (Document_splitNode newKey (q ++ [i]) position properties
              (document value)) as [doc1|] eqn:Hdoc; [|done].
  rewrite Hnode in Hsplit.
  pose proof (Document_splitNode_next _ _ _ _ _ _ _ _ Hnode Hnodup Hdoc)
    as Hnext.
  destruct (Document_splitNode_undo _ _ _ _ _ _ _ _ _ Hnode Hdoc)
    as (Hone & Htwo & Hundo).
  apply mapRanges_selection in Hsplit as [Hdoc1 Hsel1].
  cbn [document selection setDocument] in Hdoc1, Hsel1.
  unfold mergeNode in Hmerge.
  rewrite Hdoc1, Hundo, decrement_snoc, Hone, Htwo in Hmerge.
  apply mapRanges_selection in Hmerge as [Hdoc2 Hsel2].
  cbn [document selection setDocument] in Hdoc2, Hsel2.
  split; [done|].
  destruct (Range_isSet (selection value)) eqn:Hset.
  - destruct Hsel1 as (o1 & Hit1 & Hsame1).
    destruct (splitNodeRange_relocates doc1 k newKey s _ position
                (selection value) (not_eq_sym Hk) Hnext Hnb)
      as (r1 & Hr1 & Hra & Hrf).
    rewrite Hr1 in Hit1. injection Hit1 as <-.
    assert (forall pt pt' pt1,
              relocated k newKey position pt pt' -> samePlace pt' pt1 ->
              is_Some (key pt) -> key pt <> Some newKey ->
              is_Some (key pt1)
              /\ (key pt1 = Some newKey ->
                  key pt = Some k
                  /\ JsString.length (JsString.slice s 0 (Some position))
                     + toNumber (offset pt1) = toNumber (offset pt))
              /\ (key pt1 <> Some newKey ->
                  key pt1 = key pt /\ offset pt1 = offset pt)) as Hstep.
    { intros pt pt' pt1 (Hmoved & Hkept & Hother) [Hk1 Ho1] Hsome Hnew.
      rewrite Hk1, Ho1. rewrite length_slice_prefix by done.
      destruct (decide (key pt = Some k)) as [Hon|Hoff].
      - destruct (decide (position <= toNumber (offset pt))) as [Hge|Hlt].
        + destruct (Hmoved Hon Hge) as [-> ->]. cbn.
          split; [done|]. split; [intros _; split; [done|lia]|done].
        + destruct (Hkept Hon ltac:(lia)) as [-> ->].
          split; [done|]. split; [by intros|done].
      - destruct (Hother Hoff) as [-> ->].
        split; [done|]. split; [by intros|done]. }
    assert (is_Some (key (anchor (selection value)))
            /\ is_Some (key (focus (selection value)))) as [Hsa Hsf].
    { unfold Range_isSet, Point_isSet in Hset.
      apply andb_true_iff in Hset as [H1 H2].
      by apply bool_decide_eq_true in H1, H2. }
    destruct Hsame1 as [Hsame1a Hsame1f].
    destruct (Hstep _ _ _ Hra Hsame1a Hsa Hna) as (Hs1a & Hma & Hka).
    destruct (Hstep _ _ _ Hrf Hsame1f Hsf Hnf) as (Hs1f & Hmf & Hkf).
    assert (Range_isSet (selection value1) = true) as Hset1.
    { unfold Range_isSet, Point_isSet.
      by rewrite !bool_decide_eq_true_2. }
    rewrite Hset1 in Hsel2. destruct Hsel2 as (o2 & Hit2 & Hsame2).
    destruct (mergeNodeRange_texts k newKey
                (JsString.slice s 0 (Some position))
                (JsString.slice s position None) (selection value1))
      as (r2 & Hr2 & Hpts).
    rewrite Hr2 in Hit2. injection Hit2 as <-.
    destruct Hsame2 as [[Hk2a Ho2a] [Hk2f Ho2f]].
    destruct Hpoint as [-> | ->].
    + rewrite Hk2a, Ho2a. destruct (Hpts anchor (or_introl eq_refl)) as [Hm Hs].
      destruct (decide (key (anchor (selection value1)) = Some newKey))
        as [Hon|Hoff].
      * destruct (Hm Hon) as [-> ->]. destruct (Hma Hon) as [-> <-]. done.
      * destruct (Hs Hoff) as [-> ->]. destruct (Hka Hoff) as [-> ->]. done.
    + rewrite Hk2f, Ho2f. destruct (Hpts focus (or_intror eq_refl)) as [Hm Hs].
      destruct (decide (key (focus (selection value1)) = Some newKey))
        as [Hon|Hoff].
      * destruct (Hm Hon) as [-> ->]. destruct (Hmf Hon) as [-> <-]. done.
      * destruct (Hs Hoff) as [-> ->]. destruct (Hkf Hoff) as [-> ->]. done.
  - rewrite Hsel1, Hset in Hsel2. by rewrite Hsel2.
Qed.

Lemma append_assoc (a b c : string) :
  String.append a (String.append b c) = String.append (String.append a b) c.
Proof.
  induction a as [|x a IH]; [done|]. by rewrite !append_String, IH.
Qed.

Lemma updateL_single_descendant (f : Node -> option (list Node)) (p : Path.t)
    (ns ns' : list Node) (n n' : Node) :
  updateL f p ns = Some ns' ->
  getDescendant ns p = Some n ->
  f n = Some [n'] ->
  getDescendant ns' p = Some n'.
Proof.
  revert ns ns'. induction p as [|i p IH]; intros ns ns' Hup Hn Hf; [done|].
  destruct (decide (p = [])) as [->|Hp].
  - cbn [updateL getDescendant] in *.
    destruct (ns !! i) as [n0|] eqn:Hi; [|done]. injection Hn as ->.
    rewrite Hf in Hup. injection Hup as <-. cbn [app].
    rewrite replaced_lookup; [done|]. apply lookup_lt_Some in Hi. lia.
  - rewrite updateL_cons in Hup by done.
    rewrite getDescendant_cons in Hn |- * by done.
    destruct (ns !! i) as [[k s|o k ty cs]|] eqn:Hi; [done| |done].
    destruct (updateL f p cs) as [cs'|] eqn:Hcs; [|done].
    injection Hup as <-. cbn [app nodesOf] in *.
    rewrite replaced_lookup by (apply lookup_lt_Some in Hi; lia).
    cbn [nodesOf]. by eapply IH.
Qed.

(** *** [insertText], then [removeText] *)

Lemma Document_insertText_undo (p : Path.t) (offset : Z) (text : string)
    (doc doc1 : Node) (k : Key) (s : string) :
  assertNode doc p = Some (Text k s) ->
  0 <= offset <= JsString.length s ->
  Document_insertText p offset text doc = Some doc1 ->
  (exists s1, assertNode doc1 p = Some (Text k s1))
  /\ Document_removeText p offset text doc1 = Some doc.
Proof.
  unfold Document_insertText, Document_removeText, onNodes.
  intros Hnode Hoff Hins.
  destruct doc as [kd sd|o kd ty cs]; [done|].
  destruct (updateL _ p cs) as [cs1|] eqn:Hcs; [|done].
  injection Hins as <-.
  assert (p <> []) as Hp by (intros ->; done).
  rewrite assertNode_nonempty in Hnode |- * by done. cbn [nodesOf] in *.
  split.
  - eexists. eapply updateL_single_descendant; [exact Hcs|exact Hnode|].
    reflexivity.
  - erewrite updateL_undo; [reflexivity|exact Hcs|].
    intros n r Hn. rewrite Hnode in Hn. injection Hn as <-.
    intros [= <-]. eexists. split; [reflexivity|].
    set (a := JsString.slice s 0 (Some offset)).
    set (b := JsString.slice s offset None).
    assert (JsString.length a = offset) as Ha
        by (by apply length_slice_prefix).
    cbv beta iota.
    assert (JsString.slice (String.append a (String.append text b)) offset
              (Some (offset + JsString.length text)) = text) as Hmid
        by (rewrite <- Ha at 1 2; apply slice_append_middle).
    assert (JsString.slice (String.append a (String.append text b)) 0
              (Some offset) = a) as Hpre
        by (rewrite <- Ha at 1; apply slice_append_prefix).
    assert (JsString.slice (String.append a (String.append text b))
              (offset + JsString.length text) None = b) as Hsuf.
    { rewrite <- Ha at 1.
      rewrite append_assoc, <- length_append. apply slice_append_suffix. }
    rewrite Hpre, Hsuf. destruct (decide _) as [_|Hne]; [|done].
    unfold a, b. by rewrite slice_split.
Qed.

Lemma removeTextPoint_Some (node : Node) (offset : Z) (text : string)
    (pt : Point) :
  exists pt',
    removeTextPoint node offset text pt = Some pt'
    /\ key pt' = key pt /\ path pt' = path pt
    /\ (key pt = Some (keyOf node) ->
        offset + JsString.length text <= toNumber (Legacy.offset pt) ->
        Legacy.offset pt'
        = Some (toNumber (Legacy.offset pt) - JsString.length text))
    /\ (key pt = Some (keyOf node) ->
        offset < toNumber (Legacy.offset pt)
               < offset + JsString.length text ->
        Legacy.offset pt' = Some offset)
    /\ (key pt = Some (keyOf node) ->
        toNumber (Legacy.offset pt) <= offset ->
        toNumber (Legacy.offset pt') = toNumber (Legacy.offset pt))
    /\ (key pt <> Some (keyOf node) ->
        Legacy.offset pt' = Legacy.offset pt).
Proof.
  unfold removeTextPoint.
  destruct (decide (key pt <> Some (keyOf node))) as [Hne|Heq].
  - eexists. split; [reflexivity|]. repeat split; try done.
  - rewrite Z.geb_leb, Z.gtb_ltb.
    pose proof (length_nonneg text) as Hlen. revert Hlen.
    generalize (JsString.length text). intros len Hlen.
    destruct (offset + len <=? toNumber (Legacy.offset pt)) eqn:Hge.
    + apply Z.leb_le in Hge. eexists. split; [reflexivity|]. cbn.
      repeat split; try done; intros; first [done | lia | exfalso; lia].
    + apply Z.leb_gt in Hge.
      destruct (offset <? toNumber (Legacy.offset pt)) eqn:Hgt.
      * apply Z.ltb_lt in Hgt. eexists. split; [reflexivity|]. cbn.
        repeat split; try done; intros; first [done | exfalso; lia].
      * apply Z.ltb_ge in Hgt. eexists. split; [reflexivity|].
        repeat split; try done; intros; first [done | exfalso; lia].
Qed.

Lemma insert_remove_point (p : Path.t) (k : Key) (s1 : string)
    (offset : Z) (text : string) (pt pt1' pt1 pt2' pt2 : Point) :
  agrees p k pt ->
  insertTextPoint p offset text pt = Some pt1' ->
  samePlace pt1' pt1 ->
  removeTextPoint (Text k s1) offset text pt1 = Some pt2' ->
  samePlace pt2' pt2 ->
  key pt2 = key pt
  /\ toNumber (Legacy.offset pt2) = toNumber (Legacy.offset pt).
Proof.
  intros Hagree Hins [Hk1 Ho1] Hrem [Hk2 Ho2].
  apply insertTextPoint_Some in Hins
    as (_ & Hki & _ & Hshift & Hbefore & Hother).
  destruct (removeTextPoint_Some (Text k s1) offset text pt1)
    as (q & Hq & Hkr & _ & Hafter & Hinside & Hleft & Hoff).
  rewrite Hrem in Hq. injection Hq as <-. cbn [keyOf] in *.
  rewrite Hk2, Ho2, Hkr, Hk1, Hki. split; [done|].
  rewrite Hk1, Hki, Ho1 in Hafter, Hinside, Hleft, Hoff.
  pose proof (length_nonneg text) as Hlen. revert Hlen Hshift Hafter Hinside.
  generalize (JsString.length text). intros len Hlen Hshift Hafter Hinside.
  destruct (decide (key pt = Some k)) as [Hon|Hout].
  - pose proof (proj2 Hagree Hon) as Hpath.
    destruct (decide (offset <= toNumber (Legacy.offset pt))) as [Hge|Hlt].
    + rewrite (Hshift Hpath Hge) in Hafter. cbn [toNumber default] in Hafter.
      rewrite Hafter by (done || (cbn; lia)). cbn. lia.
    + rewrite (Hbefore Hpath ltac:(lia)) in Hleft.
      apply Hleft; [done|lia].
  - assert (path pt <> Some p) as Hpath
        by (intros Hp; by apply Hout, Hagree).
    rewrite (Hoff Hout). by rewrite (Hother Hpath).
Qed.

(** X15.  [removeText] undoes [insertText]: when the path and the key of
    each point of the selection agree on whether the point is on the text
    at [path], removing the text that was inserted gives back the
    document and leaves each point on its key at the offset it had. *)
Theorem removeText_undoes_insertText
    (p : Path.t) (offset : Z) (text : string) (value value1 value2 : Value)
    (k : Key) (s : string) (point : Range -> Point) :
  assertNode (document value) p = Some (Text k s) ->
  0 <= offset <= JsString.length s ->
  agrees p k (anchor (selection value)) ->
  agrees p k (focus (selection value)) ->
  insertText p offset text value = Some value1 ->
  removeText p offset text value1 = Some value2 ->
  point = anchor \/ point = focus ->
  document value2 = document value
  /\ key (point (selection value2)) = key (point (selection value))
  /\ toNumber (Legacy.offset (point (selection value2)))
     = toNumber (Legacy.offset (point (selection value))).
Proof.
  intros Hnode Hoff Haa Haf Hins Hrem Hpoint. unfold insertText in Hins.
  destruct (Document_insertText p offset text (document value))
    as [doc1|] eqn:Hdoc; [|done].
  destruct (Document_insertText_undo _ _ _ _ _ _ _ Hnode Hoff Hdoc)
    as ((s1 & Hnode1) & Hundo).
  unfold mapPoints in Hins.
  apply mapRanges_selection in Hins as [Hdoc1 Hsel1].
  cbn [document selection setDocument] in Hdoc1, Hsel1.
  unfold removeText in Hrem. rewrite Hdoc1, Hnode1, Hundo in Hrem.
  unfold mapPoints in Hrem.
  apply mapRanges_selection in Hrem as [Hdoc2 Hsel2].
  cbn [document selection setDocument] in Hdoc2, Hsel2.
  split; [done|].
  destruct (Range_isSet (selection value)) eqn:Hset.
  - destruct Hsel1 as (o1 & Hit1 & Hsame1). unfold updatePoints in Hit1.
    destruct (insertTextPoint p offset text (anchor (selection value)))
      as [a1|] eqn:Ha1; [|done].
    destruct (insertTextPoint p offset text (focus (selection value)))
      as [f1|] eqn:Hf1; [|done].
    injection Hit1 as <-. destruct Hsame1 as [Hsa1 Hsf1].
    cbn [anchor focus] in Hsa1, Hsf1.
    assert (Range_isSet (selection value1) = true) as Hset1.
    { rewrite <- Hset. unfold Range_isSet, Point_isSet.
      destruct Hsa1 as [-> _], Hsf1 as [-> _].
      apply insertTextPoint_Some in Ha1 as (_ & -> & _).
      by apply insertTextPoint_Some in Hf1 as (_ & -> & _). }
    rewrite Hset1 in Hsel2. destruct Hsel2 as (o2 & Hit2 & Hsame2).
    unfold updatePoints in Hit2.
    destruct (removeTextPoint (Text k s1) offset text
                (anchor (selection value1))) as [a2|] eqn:Ha2; [|done].
    destruct (removeTextPoint (Text k s1) offset text
                (focus (selection value1))) as [f2|] eqn:Hf2; [|done].
    injection Hit2 as <-. destruct Hsame2 as [Hsa2 Hsf2].
    cbn [anchor focus] in Hsa2, Hsf2.
    destruct Hpoint as [-> | ->].
    + by eapply insert_remove_point.
    + by eapply insert_remove_point.
  - rewrite Hsel1, Hset in Hsel2. by rewrite Hsel2.
Qed.

(** *** Offsets stay within their texts *)

Lemma texts_unique (L : list TextLeaf) (k : Key) (s s' : string) :
  NoDup (map fst L) -> (k, s) ∈ L -> (k, s') ∈ L -> s = s'.
Proof.
  induction L as [|[k0 s0] L IH]; intros Hnodup H1 H2.
  - by apply elem_of_nil in H1.
  - cbn in Hnodup. apply NoDup_cons in Hnodup as [Hout Hnodup].
    apply elem_of_cons in H1 as [[= -> ->]|H1];
      apply elem_of_cons in H2 as [[= ?]|H2]; subst; try done.
    + exfalso. apply Hout. by apply (list_elem_of_fmap_2 fst) in H2.
    + exfalso. apply Hout. by apply (list_elem_of_fmap_2 fst) in H1.
    + by apply IH.
Qed.

(** A text leaf outside the part of the list that changes is still
    there. *)
Lemma texts_elsewhere (L1 X Y L2 : list TextLeaf) (k : Key) (s : string) :
  (k, s) ∈ L1 ++ X ++ L2 -> k ∉ map fst X -> (k, s) ∈ L1 ++ Y ++ L2.
Proof.
  rewrite !elem_of_app. intros [?|[Hin|?]] Hout; auto.
  exfalso. apply Hout. by apply (list_elem_of_fmap_2 fst) in Hin.
Qed.

Lemma isSet_keys (r : Range) :
  Range_isSet r = true ->
  is_Some (key (anchor r)) /\ is_Some (key (focus r)).
Proof.
  unfold Range_isSet, Point_isSet. intros Hset.
  apply andb_true_iff in Hset as [H1 H2].
  by apply bool_decide_eq_true in H1, H2.
Qed.

(** The text at a path that an update replaces by another text with the
    same key. *)
Lemma updateL_text_texts (f : Node -> option (list Node)) (p : Path.t)
    (o : Object) (kd : Key) (ty : string) (cs cs' : list Node)
    (k : Key) (s s' : string) :
  updateL f p cs = Some cs' ->
  assertNode (Element o kd ty cs) p = Some (Text k s) ->
  f (Text k s) = Some [Text k s'] ->
  exists L1 L2 : list TextLeaf,
    texts (Element o kd ty cs) = L1 ++ [(k, s)] ++ L2
    /\ texts (Element o kd ty cs') = L1 ++ [(k, s')] ++ L2.
Proof.
  intros Hup Hnode Hf.
  apply updateL_texts in Hup as (n & r & L1 & L2 & Hn & Hr & Hcs & Hcs').
  rewrite assertNode_nonempty in Hnode by (intros ->; done).
  cbn [nodesOf] in Hnode. rewrite Hnode in Hn. injection Hn as <-.
  rewrite Hf in Hr. injection Hr as <-.
  exists L1, L2. by rewrite !texts_Element, Hcs, Hcs'.
Qed.

(** X16.  [removeText] keeps the offsets within their texts: on a document
    whose text keys are not repeated and for [offset >= 0], a point of a
    set selection that is on a text of the document at an offset between
    0 and the length of that text is so again afterwards. *)
Theorem removeText_keeps_offsets_in_bounds
    (p : Path.t) (offset : Z) (text : string) (value value' : Value)
    (point : Range -> Point) :
  NoDup (textKeys (document value)) ->
  0 <= offset ->
  Range_isSet (selection value) = true ->
  removeText p offset text value = Some value' ->
  point = anchor \/ point = focus ->
  inBounds (document value) (point (selection value)) ->
  inBounds (document value') (point (selection value')).
Proof.
  intros Hnodup Hoff Hset Hrem Hpoint (k0 & s0 & Hk0 & Hin0 & Hb0).
  unfold removeText in Hrem.
  destruct (assertNode (document value) p) as [node|] eqn:Hnode; [|done].
  destruct (Document_removeText p offset text (document value))
    as [doc'|] eqn:Hdoc; [|done].
  unfold Document_removeText, onNodes in Hdoc.
  destruct (document value) as [kd sd|o kd ty cs] eqn:Hd; [done|].
  destruct (updateL _ p cs) as [cs'|] eqn:Hup; [|done].
  injection Hdoc as <-.
  pose proof Hup as Hup'.
  apply updateL_texts in Hup' as (n & r & _ & _ & Hn & Hr & _).
  rewrite assertNode_nonempty in Hnode by (intros ->; done).
  cbn [nodesOf] in Hnode. rewrite Hnode in Hn. injection Hn as <-.
  destruct node as [k s|]; [|done].
  destruct (decide (JsString.slice s offset
                      (Some (offset + JsString.length text)) = text))
    as [Hslice|]; [|done].
  injection Hr as <-.
  destruct (updateL_text_texts _ _ o kd ty _ _ k s
              (String.append (JsString.slice s 0 (Some offset))
                 (JsString.slice s (offset + JsString.length text) None))
              Hup) as (L1 & L2 & HL & HL').
  { by rewrite assertNode_nonempty by (intros ->; done). }
  { by rewrite decide_True. }
  unfold mapPoints in Hrem.
  apply mapRanges_selection in Hrem as [Hdoc' Hsel].
  cbn [document selection setDocument] in Hdoc', Hsel. rewrite Hset in Hsel.
  destruct Hsel as (o' & Hit & Hsame). unfold updatePoints in Hit.
  destruct (removeTextPoint_Some (Text k s) offset text
              (anchor (selection value)))
    as (a & Ha & Hak & _ & Ha1 & Ha2 & Ha3 & Ha4).
  destruct (removeTextPoint_Some (Text k s) offset text
              (focus (selection value)))
    as (b & Hb & Hbk & _ & Hb1 & Hb2 & Hb3 & Hb4).
  rewrite Ha, Hb in Hit. injection Hit as <-.
  destruct Hsame as [[Hsak Hsao] [Hsfk Hsfo]]. cbn [anchor focus] in *.
  destruct (slice_removed s text offset Hoff Hslice) as [Hlen Hwithin].
  pose proof (length_nonneg text) as Htext.
  unfold textKeys in Hnodup. rewrite HL in Hnodup, Hin0.
  assert (forall pt q q',
            key pt = Some k0 ->
            0 <= toNumber (Legacy.offset pt) <= JsString.length s0 ->
            key q = key pt ->
            (key pt = Some k ->
             offset + JsString.length text <= toNumber (Legacy.offset pt) ->
             Legacy.offset q
             = Some (toNumber (Legacy.offset pt) - JsString.length text)) ->
            (key pt = Some k ->
             offset < toNumber (Legacy.offset pt)
                    < offset + JsString.length text ->
             Legacy.offset q = Some offset) ->
            (key pt = Some k -> toNumber (Legacy.offset pt) <= offset ->
             toNumber (Legacy.offset q) = toNumber (Legacy.offset pt)) ->
            (key pt <> Some k -> Legacy.offset q = Legacy.offset pt) ->
            key q' = key q -> Legacy.offset q' = Legacy.offset q ->
            inBounds (document value') q') as Hpt.
  { clear Ha Hb. intros pt q q' Hk Hb Hqk H1 H2 H3 H4 Hq'k Hq'o.
    rewrite Hdoc'. unfold inBounds. rewrite Hq'k, Hq'o, Hqk, Hk, HL'.
    destruct (decide (k0 = k)) as [->|Hne].
    - assert (s0 = s) as ->.
      { eapply texts_unique; [exact Hnodup|exact Hin0|].
        rewrite !elem_of_app, list_elem_of_singleton. auto. }
      eexists k, _. split; [done|]. split.
      { rewrite !elem_of_app, list_elem_of_singleton. auto. }
      rewrite Hlen. clear Hlen Hslice. revert Hwithin Htext H1 H2 Hb.
      generalize (JsString.length text) (JsString.length s).
      intros len ls Hwithin Htext H1 H2 Hb.
      destruct (decide (offset + len <= toNumber (Legacy.offset pt))).
      + rewrite H1 by done. cbn. lia.
      + destruct (decide (offset < toNumber (Legacy.offset pt))).
        * rewrite H2 by (done || lia). cbn. lia.
        * rewrite H3 by (done || lia). lia.
    - exists k0, s0. split; [done|]. split.
      + eapply texts_elsewhere; [exact Hin0|]. cbn.
        rewrite list_elem_of_singleton. done.
      + rewrite H4 by congruence. done. }
  destruct Hpoint as [-> | ->]; eapply Hpt; eauto.
Qed.

(** X17.  [splitNode] of a text at [0 <= position <= length] keeps the
    offsets within their texts, unless the selection runs backward with
    both points on the split text at or after [position]: a point of a set
    selection that is on a text of the document at an offset between 0 and
    the length of that text is so again in the new document, be it moved
    to the new sibling or not. *)
Theorem splitNode_keeps_offsets_in_bounds
    (newKey : Key) (p : Path.t) (position : Z) (properties : option string)
    (value value' : Value) (k : Key) (s : string) (point : Range -> Point) :
  assertNode (document value) p = Some (Text k s) ->
  0 <= position <= JsString.length s ->
  NoDup (textKeys (document value)) ->
  k <> newKey ->
  Range_isSet (selection value) = true ->
  ~ backwardAfter k position (selection value) ->
  splitNode newKey p position properties value = Some value' ->
  point = anchor \/ point = focus ->
  inBounds (document value) (point (selection value)) ->
  inBounds (document value') (point (selection value')).
Proof.
  intros Hnode Hpos Hnodup Hne Hset Hnb Hsplit Hpoint
    (k0 & s0 & Hk0 & Hin0 & Hb0).
  unfold splitNode in Hsplit.
  destruct (Document_splitNode newKey p position properties (document value))
    as [newDocument|] eqn:Hdoc; [|done].
  rewrite Hnode in Hsplit.
  pose proof (Document_splitNode_next _ _ _ _ _ _ _ _ Hnode Hnodup Hdoc)
    as Hnext.
  apply mapRanges_selection in Hsplit as [Hdoc' Hsel].
  cbn [selection document setDocument] in Hsel, Hdoc'.
  rewrite Hset in Hsel. destruct Hsel as (o & Hit & Hsame).
  destruct (splitNodeRange_relocates newDocument k newKey s _ position
              (selection value) (not_eq_sym Hne) Hnext Hnb)
    as (r' & Hr' & Hra & Hrf).
  rewrite Hr' in Hit. injection Hit as <-.
  unfold Document_splitNode, onNodes in Hdoc.
  destruct (document value) as [kd sd|ob kd ty cs] eqn:Hd; [done|].
  destruct (updateL _ p cs) as [cs'|] eqn:Hup; [|done].
  injection Hdoc as <-.
  apply updateL_texts in Hup as (n & r & L1 & L2 & Hn & Hr & Hcs & Hcs').
  rewrite assertNode_nonempty in Hnode by (intros ->; done).
  cbn [nodesOf] in Hnode. rewrite Hnode in Hn. injection Hn as <-.
  injection Hr as <-. cbn [flat_map texts app] in Hcs, Hcs'.
  unfold textKeys in Hnodup. rewrite texts_Element, Hcs in Hnodup, Hin0.
  assert (forall pt q q',
            key pt = Some k0 ->
            0 <= toNumber (offset pt) <= JsString.length s0 ->
            relocated k newKey position pt q -> samePlace q q' ->
            inBounds (document value') q') as Hpt.
  { intros pt q q' Hk Hb (Hmoved & Hkept & Hother) [Hqk Hqo].
    rewrite Hdoc'. unfold inBounds. rewrite Hqk, Hqo, texts_Element, Hcs'.
    destruct (decide (k0 = k)) as [->|Hne0].
    - assert (s0 = s) as ->.
      { eapply texts_unique; [exact Hnodup|exact Hin0|].
        rewrite elem_of_app, elem_of_cons. auto. }
      destruct (decide (position <= toNumber (offset pt))) as [Hge|Hlt].
      + destruct (Hmoved Hk Hge) as [-> ->]. eexists newKey, _.
        split; [done|]. split.
        { rewrite elem_of_app, !elem_of_cons. auto. }
        rewrite length_slice_suffix by done. cbn. lia.
      + destruct (Hkept Hk ltac:(lia)) as [-> ->]. eexists k, _.
        split; [done|]. split.
        { rewrite elem_of_app, !elem_of_cons. auto. }
        rewrite length_slice_prefix by done. lia.
    - destruct (Hother ltac:(congruence)) as [-> ->]. exists k0, s0.
      split; [done|]. split; [|done].
      apply (texts_elsewhere L1 [(k, s)] [_; _] L2); [exact Hin0|].
      cbn. rewrite list_elem_of_singleton. done. }
  destruct Hsame as [Hsa Hsf].
  destruct Hpoint as [-> | ->]; eapply Hpt; eauto.
Qed.

(** C6.  [splitNode(path, position)] does not relocate every point at or
    after [position].  On a selection that runs backward inside the split
    text, with its two points at or after [position], the iterator moves
    the start (the focus) to the new sibling, then takes [moveEndTo] on a
    range that is no longer backward and so moves the focus a second time,
    to the place meant for the anchor: the anchor stays on the split text
    at its offset, beyond the end of what is left of that text, and the
    focus ends at the anchor's offset reduced by [position]. *)
Theorem splitNode_backward_moves_focus_twice
    (newKey : Key) (p : Path.t) (position : Z) (properties : option string)
    (value value' : Value) (k : Key) (s : string) :
  assertNode (document value) p = Some (Text k s) ->
  0 <= position <= JsString.length s ->
  NoDup (textKeys (document value)) ->
  k <> newKey ->
  key (anchor (selection value)) = Some k ->
  key (focus (selection value)) = Some k ->
  position <= toNumber (offset (focus (selection value))) ->
  toNumber (offset (focus (selection value)))
  < toNumber (offset (anchor (selection value))) ->
  splitNode newKey p position properties value = Some value' ->
  let sel := selection value in
  let sel' := selection value' in
  getNextText (document value') k
  = Some (newKey, JsString.slice s position None)
  /\ key (anchor sel') = Some k
  /\ offset (anchor sel') = offset (anchor sel)
  /\ key (focus sel') = Some newKey
  /\ offset (focus sel') = Some (toNumber (offset (anchor sel)) - position)
  /\ ~ inBounds (document value') (anchor sel').
Proof.
  intros Hnode Hpos Hnodup Hne Hak Hfk Hfo Hlt Hsplit sel sel'.
  destruct (splitNode_selection _ _ _ _ _ _ _ _ Hnode Hnodup Hne
              (Range_isSet_keys _ _ _ Hak Hfk) Hsplit)
    as (Hnext & _ & Hback).
  destruct Hback as ([Hak' Hao'] & Hfk' & Hfo'); [by repeat split|].
  subst sel sel'. rewrite Hak', Hao'. repeat split; try done.
  intros (k0 & s0 & Hk0 & Hin0 & Hb0).
  rewrite Hak', Hak in Hk0. injection Hk0 as <-. rewrite Hao' in Hb0.
  unfold splitNode in Hsplit.
  destruct (Document_splitNode newKey p position properties (document value))
    as [newDocument|] eqn:Hdoc; [|done].
  rewrite Hnode in Hsplit.
  apply mapRanges_selection in Hsplit as [Hdoc' _].
  cbn [document setDocument] in Hdoc'. rewrite Hdoc' in Hin0.
  unfold Document_splitNode, onNodes in Hdoc.
  destruct (document value) as [kd sd|ob kd ty cs] eqn:Hd; [done|].
  destruct (updateL _ p cs) as [cs'|] eqn:Hup; [|done].
  injection Hdoc as <-.
  apply updateL_texts in Hup as (n & r & L1 & L2 & Hn & Hr & Hcs & Hcs').
  rewrite assertNode_nonempty in Hnode by (intros ->; done).
  cbn [nodesOf] in Hnode. rewrite Hnode in Hn. injection Hn as <-.
  injection Hr as <-. cbn [flat_map texts app] in Hcs, Hcs'.
  unfold textKeys in Hnodup. rewrite texts_Element, Hcs in Hnodup.
  rewrite texts_Element, Hcs' in Hin0.
  assert (s0 = JsString.slice s 0 (Some position)) as ->.
  { rewrite map_app in Hnodup. cbn [map fst] in Hnodup.
    apply NoDup_app in Hnodup as (_ & Hdisj & Hnodup).
    apply NoDup_cons in Hnodup as [Hout _].
    apply elem_of_app in Hin0 as [Hin0|Hin0].
    - exfalso. apply (list_elem_of_fmap_2 fst) in Hin0.
      apply (Hdisj _ Hin0). apply list_elem_of_here.
    - apply elem_of_cons in Hin0 as [[= ->]|Hin0]; [done|].
      apply elem_of_cons in Hin0 as [[= ? ?]|Hin0]; [done|].
      exfalso. apply Hout. by apply (list_elem_of_fmap_2 fst) in Hin0. }
  rewrite length_slice_prefix in Hb0 by done. lia.
Qed.

Lemma splitNode_backward_moves_focus_twice_witness :
  splitNode "n" [0; 0]%nat 2 None sampleBackward = Some afterSplitBackward
  /\ getNextText (document afterSplitBackward) "a" = Some ("n", "rd")%string
  /\ key (anchor (selection afterSplitBackward)) = Some "a"%string
  /\ offset (anchor (selection afterSplitBackward)) = Some 3
  /\ key (focus (selection afterSplitBackward)) = Some "n"%string
  /\ offset (focus (selection afterSplitBackward)) = Some 1
  /\ ~ inBounds (document afterSplitBackward)
         (anchor (selection afterSplitBackward)).
Proof.
  split; [reflexivity|].
  apply (splitNode_backward_moves_focus_twice "n" [0; 0]%nat 2 None
           sampleBackward afterSplitBackward "a" "word");
    first [ reflexivity | exact sampleDocument_unique | by vm_compute ].
Defined.

(** X18.  [mergeNode] keeps the offsets within their texts: on a document
    whose text keys are not repeated, a point of a set selection that is
    on a text of the document at an offset between 0 and the length of
    that text is so again in the new document, where the merged text
    holds the two texts one after the other. *)
Theorem mergeNode_keeps_offsets_in_bounds
    (p : Path.t) (value value' : Value) (point : Range -> Point) :
  NoDup (textKeys (document value)) ->
  Range_isSet (selection value) = true ->
  mergeNode p value = Some value' ->
  point = anchor \/ point = focus ->
  inBounds (document value) (point (selection value)) ->
  inBounds (document value') (point (selection value')).
Proof.
  intros Hnodup Hset Hmerge Hpoint (k0 & s0 & Hk0 & Hin0 & Hb0).
  unfold mergeNode in Hmerge.
  destruct (Document_mergeNode p (document value)) as [newDocument|] eqn:Hdoc;
    [|done].
  destruct (decrement p) as [withPath|] eqn:Hdec; [|done].
  unfold Document_mergeNode, onNodes in Hdoc.
  destruct (document value) as [kd sd|ob kd ty cs] eqn:Hd; [done|].
  destruct (mergeL p cs) as [cs'|] eqn:Hcs; [|done]. injection Hdoc as <-.
  apply mergeL_texts in Hcs
    as (withPath' & one & two & m & L1 & L2
        & Hdec' & Hne & Hone & Htwo & Hm & HL & HL').
  rewrite Hdec in Hdec'. injection Hdec' as <-.
  rewrite (assertNode_getDescendant _ _ _ _ _ _ Hone) in Hmerge.
  rewrite (assertNode_getDescendant _ _ _ _ _ _ Htwo) in Hmerge.
  apply mapRanges_selection in Hmerge as [Hdoc' Hsel].
  cbn [selection document setDocument] in Hsel, Hdoc'.
  rewrite Hset in Hsel. destruct Hsel as (o & Hit & Hsame).
  unfold textKeys in Hnodup. rewrite texts_Element, HL in Hnodup, Hin0.
  destruct one as [k1 s1|o1 k1 ty1 cs1], two as [k2 s2|o2 k2 ty2 cs2];
    try done.
  - (* two texts *)
    cbn [mergeNodes] in Hm. injection Hm as <-. cbn [texts] in *.
    destruct (mergeNodeRange_texts k1 k2 s1 s2 (selection value))
      as (r' & Hr' & Hpts).
    rewrite Hr' in Hit. injection Hit as <-.
    assert (k1 <> k2) as Hk12.
    { intros ->. rewrite !map_app in Hnodup.
      apply NoDup_app in Hnodup as (_ & _ & Hnodup).
      apply NoDup_app in Hnodup as (_ & Hdisj & _).
      apply (Hdisj k2); cbn; rewrite ?elem_of_app;
        first [apply list_elem_of_here | left; apply list_elem_of_here]. }
    assert (forall q q',
              key (point (selection value)) = Some k0 ->
              (key (point (selection value)) = Some k2 ->
               key q = Some k1
               /\ offset q
                  = Some (JsString.length s1
                          + toNumber (offset (point (selection value))))) ->
              (key (point (selection value)) <> Some k2 ->
               key q = key (point (selection value))
               /\ offset q = offset (point (selection value))) ->
              samePlace q q' -> inBounds (document value') q') as Hpt.
    { intros q q' Hk Hmoved Hkept [Hqk Hqo].
      rewrite Hdoc'. unfold inBounds. rewrite Hqk, Hqo, texts_Element, HL'.
      pose proof (length_nonneg s1) as Hs1.
      pose proof (length_nonneg s2) as Hs2.
      destruct (decide (k0 = k2)) as [->|Hne2].
      - assert (s0 = s2) as ->.
        { eapply texts_unique; [exact Hnodup|exact Hin0|].
          rewrite !elem_of_app, !list_elem_of_singleton. auto. }
        destruct (Hmoved Hk) as [-> ->]. eexists k1, _. split; [done|].
        split; [rewrite !elem_of_app, list_elem_of_singleton; auto|].
        rewrite length_append. cbn. lia.
      - destruct (Hkept ltac:(congruence)) as [-> ->].
        destruct (decide (k0 = k1)) as [->|Hne1].
        + assert (s0 = s1) as ->.
          { eapply texts_unique; [exact Hnodup|exact Hin0|].
            rewrite !elem_of_app, !list_elem_of_singleton. auto. }
          eexists k1, _. split; [done|].
          split; [rewrite !elem_of_app, list_elem_of_singleton; auto|].
          rewrite length_append. lia.
        + exists k0, s0. split; [done|]. split; [|done].
          apply (texts_elsewhere L1 ([(k1, s1)] ++ [(k2, s2)]) _ L2).
          * by rewrite <- app_assoc.
          * cbn. rewrite !elem_of_cons, elem_of_nil.
            intros [?|[?|?]]; done. }
    destruct Hsame as [Hsa Hsf].
    destruct Hpoint as [-> | ->].
    + destruct (Hpts anchor (or_introl eq_refl)) as [Hmoved Hkept].
      by eapply Hpt.
    + destruct (Hpts focus (or_intror eq_refl)) as [Hmoved Hkept].
      by eapply Hpt.
  - (* two elements *)
    cbn [mergeNodes] in Hm. destruct (decide (o1 = o2)); [|done].
    injection Hm as <-. cbn [mergeNodeRange] in Hit. injection Hit as <-.
    pose proof (samePlaces_trans _ _ _ (invalidatePaths_samePlaces _) Hsame)
      as [[Hak Hao] [Hfk Hfo]].
    rewrite Hdoc'. unfold inBounds. rewrite texts_Element, HL'.
    rewrite !texts_Element in Hin0 |- *. rewrite flat_map_app, <- app_assoc.
    exists k0, s0. destruct Hpoint as [-> | ->].
    + by rewrite Hak, Hao.
    + by rewrite Hfk, Hfo.
Qed.

(** X19.  [insertText] keeps the offsets within their texts: on a document
    whose text keys are not repeated, a point of a set selection whose
    path, when it is [path], goes with the key of the text there, and
    that is at an offset between 0 and the length of its text, is so
    again once the text has grown. *)
Theorem insertText_keeps_offsets_in_bounds
    (p : Path.t) (offset : Z) (text : string) (value value' : Value)
    (k : Key) (s : string) (point : Range -> Point) :
  assertNode (document value) p = Some (Text k s) ->
  NoDup (textKeys (document value)) ->
  Range_isSet (selection value) = true ->
  (path (point (selection value)) = Some p ->
   key (point (selection value)) = Some k) ->
  insertText p offset text value = Some value' ->
  point = anchor \/ point = focus ->
  inBounds (document value) (point (selection value)) ->
  inBounds (document value') (point (selection value')).
Proof.
  intros Hnode Hnodup Hset Hagree Hins Hpoint (k0 & s0 & Hk0 & Hin0 & Hb0).
  unfold insertText in Hins.
  destruct (Document_insertText p offset text (document value))
    as [doc'|] eqn:Hdoc; [|done].
  unfold Document_insertText, onNodes in Hdoc.
  destruct (document value) as [kd sd|ob kd ty cs] eqn:Hd; [done|].
  destruct (updateL _ p cs) as [cs'|] eqn:Hup; [|done].
  injection Hdoc as <-.
  destruct (updateL_text_texts _ _ ob kd ty _ _ k s
              (String.append (JsString.slice s 0 (Some offset))
                 (String.append text (JsString.slice s offset None)))
              Hup Hnode eq_refl) as (L1 & L2 & HL & HL').
  unfold mapPoints in Hins.
  apply mapRanges_selection in Hins as [Hdoc' Hsel].
  cbn [document selection setDocument] in Hdoc', Hsel. rewrite Hset in Hsel.
  destruct Hsel as (o' & Hit & Hsame). unfold updatePoints in Hit.
  destruct (insertTextPoint p offset text (anchor (selection value)))
    as [a|] eqn:Ha; [|done].
  destruct (insertTextPoint p offset text (focus (selection value)))
    as [b|] eqn:Hb; [|done].
  injection Hit as <-. destruct Hsame as [Hsa Hsf].
  cbn [anchor focus] in Hsa, Hsf.
  unfold textKeys in Hnodup. rewrite HL in Hnodup, Hin0.
  assert (JsString.length
            (String.append (JsString.slice s 0 (Some offset))
               (String.append text (JsString.slice s offset None)))
          = JsString.length s + JsString.length text) as Hlen.
  { rewrite <- (slice_split s offset) at 3. rewrite !length_append. lia. }
  pose proof (length_nonneg text) as Htext.
  assert (forall q q',
            insertTextPoint p offset text (point (selection value)) = Some q ->
            samePlace q q' -> inBounds (document value') q') as Hpt.
  { intros q q' Hq [Hqk Hqo].
    apply insertTextPoint_Some in Hq
      as (_ & Hkq & _ & Hshift & Hbefore & Hother).
    rewrite Hdoc'. unfold inBounds. rewrite Hqk, Hqo, Hkq, Hk0, HL'.
    assert (Legacy.offset q = Legacy.offset (point (selection value))
            \/ (key (point (selection value)) = Some k
                /\ Legacy.offset q
                   = Some (toNumber (Legacy.offset (point (selection value)))
                           + JsString.length text))) as Hcases.
    { destruct (decide (path (point (selection value)) = Some p)) as [Hp|Hp].
      - destruct (decide
                    (offset
                     <= toNumber (Legacy.offset (point (selection value))))).
        + right. split; [by apply Hagree|by apply Hshift].
        + left. apply Hbefore; [done|lia].
      - left. by apply Hother. }
    destruct (decide (k0 = k)) as [->|Hne].
    - assert (s0 = s) as ->.
      { eapply texts_unique; [exact Hnodup|exact Hin0|].
        rewrite !elem_of_app, list_elem_of_singleton. auto. }
      eexists k, _. split; [done|]. split.
      { rewrite !elem_of_app, list_elem_of_singleton. auto. }
      rewrite Hlen. destruct Hcases as [-> | [_ ->]]; [lia|cbn; lia].
    - destruct Hcases as [-> | [Hk _]]; [|congruence].
      exists k0, s0. split; [done|]. split; [|done].
      eapply texts_elsewhere; [exact Hin0|]. cbn.
      rewrite list_elem_of_singleton. done. }
  destruct Hpoint as [-> | ->]; by eapply Hpt.
Qed.

Lemma removeNodeRange_point (node : Node) (prev next : option TextLeaf)
    (r r' : Range) (point : Range -> Point) :
  removeNodeRange node prev next r = Some (Some r') ->
  point = anchor \/ point = focus ->
  r' = mkRange unsetPoint unsetPoint
  \/ (hasNode node (key (point r)) = false
      /\ key (point r') = key (point r)
      /\ offset (point r') = offset (point r))
  \/ (exists t, prev = Some t
                /\ key (point r') = Some (fst t)
                /\ offset (point r') = Some (JsString.length (snd t)))
  \/ (exists t, next = Some t
                /\ key (point r') = Some (fst t)
                /\ offset (point r') = Some 0).
Proof.
  unfold removeNodeRange, relocate. intros [= <-] Hpoint.
  destruct (hasNode node (key (anchor r))) eqn:Ha,
           (hasNode node (key (focus r))) eqn:Hf,
           prev as [tp|], next as [tn|];
    destruct Hpoint as [-> | ->]; cbn; rewrite ?Ha, ?Hf; eauto 8.
Qed.

Lemma removed_neighbours_stay (doc node : Node) (L1 L2 : list TextLeaf)
    (t : TextLeaf) :
  NoDup (textKeys doc) ->
  texts doc = L1 ++ texts node ++ L2 ->
  getPreviousText doc (firstOf node) = Some t
  \/ getNextText doc (lastOf node) = Some t ->
  t ∈ L1 ++ L2.
Proof.
  intros Hnodup Hdoc Ht.
  destruct (texts node) as [|u T] eqn:HT.
  - cbn [app] in Hdoc. unfold getPreviousText, getNextText in Ht.
    rewrite Hdoc in Ht. destruct Ht as [Ht|Ht].
    + by apply previousIn_elem in Ht as [?|?].
    + by apply nextIn_elem in Ht.
  - destruct (removed_neighbours doc node L1 L2 Hnodup) as [Hp Hn].
    { by rewrite HT. }
    { by rewrite HT. }
    rewrite Hp, Hn in Ht. rewrite elem_of_app. destruct Ht as [Ht|Ht].
    + left. rewrite last_Some in Ht. destruct Ht as [l' ->].
      rewrite elem_of_app. right. apply list_elem_of_here.
    + right. destruct L2 as [|w L2]; [done|]. injection Ht as <-.
      apply list_elem_of_here.
Qed.

(** X20.  [removeNode] keeps the offsets within their texts: on a document
    whose text keys are not repeated, a point of a set selection that is
    on a text of the document at an offset between 0 and the length of
    that text is so again afterwards, on the text it was on or on the
    neighbour it was moved to, unless the selection has become unset. *)
Theorem removeNode_keeps_offsets_in_bounds
    (p : Path.t) (value value' : Value) (point : Range -> Point) :
  NoDup (textKeys (document value)) ->
  Range_isSet (selection value) = true ->
  removeNode p value = Some value' ->
  point = anchor \/ point = focus ->
  inBounds (document value) (point (selection value)) ->
  inBounds (document value') (point (selection value'))
  \/ selection value' = mkRange unsetPoint unsetPoint.
Proof.
  intros Hnodup Hset Hrem Hpoint (k0 & s0 & Hk0 & Hin0 & Hb0).
  unfold removeNode in Hrem.
  destruct (assertNode (document value) p) as [node|] eqn:Hnode; [|done].
  destruct (Document_removeNode p (document value)) as [doc'|] eqn:Hdoc;
    [|done].
  destruct (Document_removeNode_texts _ _ _ _ Hnode Hdoc)
    as (L1 & L2 & HL & HL').
  pose proof (mapRanges_selection _ _ _ Hrem) as [Hdoc' _].
  cbn [document setDocument] in Hdoc'.
  apply mapRanges_selection_exact in Hrem as (o & Hit & Hsel); [|done].
  cbn [selection document setDocument] in Hit, Hsel.
  destruct o as [r'|]; [|done]. cbv zeta in Hsel.
  destruct (removeNodeRange_point _ _ _ _ _ point Hit Hpoint)
    as [->|Hcases].
  { right. destruct Hsel as [Hsel|Hsel]; [done|].
    by apply createSelection_unset in Hsel. }
  left.
  assert (samePlaces r' (selection value')) as Hsame.
  { destruct Hsel as [-> | Hsel]; [apply samePlaces_refl|].
    by apply createSelection_samePlaces in Hsel. }
  assert (key (point (selection value')) = key (point r')
          /\ offset (point (selection value')) = offset (point r'))
    as [Hk' Ho'].
  { destruct Hsame as [[? ?] [? ?]]. by destruct Hpoint as [-> | ->]. }
  rewrite Hdoc'. unfold inBounds. rewrite Hk', Ho', HL'.
  destruct Hcases as [(Hout & Hk & Ho)|[(t & Ht & Hk & Ho)|(t & Ht & Hk & Ho)]].
  - exists k0, s0. rewrite Hk, Ho. split; [done|]. split; [|done].
    rewrite HL in Hin0.
    apply (texts_elsewhere L1 (texts node) [] L2) in Hin0; [done|].
    rewrite Hk0 in Hout. cbn [hasNode] in Hout.
    apply bool_decide_eq_false in Hout. intros Hin. apply Hout.
    by apply textKeys_allKeys.
  - exists (fst t), (snd t). rewrite Hk, Ho. split; [done|]. split.
    + rewrite <- surjective_pairing.
      eapply removed_neighbours_stay; [exact Hnodup|exact HL|by left].
    + pose proof (length_nonneg (snd t)). cbn. lia.
  - exists (fst t), (snd t). rewrite Hk, Ho. split; [done|]. split.
    + rewrite <- surjective_pairing.
      eapply removed_neighbours_stay; [exact Hnodup|exact HL|by right].
    + pose proof (length_nonneg (snd t)). cbn. lia.
Qed.

(** *** Annotations *)

(** [mapRanges] treats an annotation as it treats the selection. *)
Lemma mapAnnotations_like_selection
    (iterator : Range -> option (option Range)) (doc : Node)
    (anns0 anns0' anns anns' : list (string * Range)) :
  (forall r, iterator r <> Some None) ->
  mapAnnotations iterator doc anns0 = Some anns0' ->
  mapAnnotations iterator doc anns = Some anns' ->
  Forall2 (fun a a' =>
             fst a' = fst a
             /\ mapRanges iterator (mkValue doc (snd a) anns0)
                = Some (mkValue doc (snd a') anns0'))
          anns anns'.
Proof.
  intros Hnull Hanns0. revert anns'.
  induction anns as [|[name a] anns IH]; intros anns' Hanns.
  - injection Hanns as <-. constructor.
  - cbn [mapAnnotations] in Hanns.
    destruct (mapAnnotation iterator doc a) as [n|] eqn:Hn; [|done].
    destruct (mapAnnotations iterator doc anns) as [rest|]; [|done].
    injection Hanns as <-. unfold mapAnnotation in Hn.
    assert (exists a', n = Some a'
              /\ mapRanges iterator (mkValue doc a anns0)
                 = Some (mkValue doc a' anns0')) as (a' & -> & Hmap).
    { unfold mapRanges. cbn [document selection annotations].
      rewrite Hanns0. unfold createAnnotation in Hn. unfold createSelection.
      destruct (Range_isSet a).
      - destruct (iterator a) as [[m|]|] eqn:Hit;
          [|by apply Hnull in Hit|done].
        destruct (bool_decide (m <> a)).
        + destruct (updatePoints (resolvePoint doc) m) as [m'|]; [|done].
          injection Hn as <-. by exists m'.
        + injection Hn as <-. by exists m.
      - destruct (bool_decide (a <> a)) eqn:Hne.
        + by apply bool_decide_eq_true in Hne.
        + injection Hn as <-. by exists a. }
    constructor; [done|]. by apply IH.
Qed.

Lemma mapRanges_annotations (iterator : Range -> option (option Range))
    (value value' : Value) :
  (forall r, iterator r <> Some None) ->
  mapRanges iterator value = Some value' ->
  Forall2 (fun a a' =>
             fst a' = fst a
             /\ mapRanges iterator (withSelection (snd a) value)
                = Some (withSelection (snd a') value'))
          (annotations value) (annotations value').
Proof.
  intros Hnull Hmap. unfold withSelection.
  pose proof (mapRanges_selection _ _ _ Hmap) as [Hdoc _].
  unfold mapRanges in Hmap.
  destruct (if Range_isSet (selection value) then _ else _) as [sel|];
    [|done].
  destruct (if bool_decide _ then _ else _) as [sel'|]; [|done].
  destruct (mapAnnotations iterator (document value) (annotations value))
    as [anns'|] eqn:Hanns; [|done].
  injection Hmap as <-. cbn [document annotations] in *.
  by apply mapAnnotations_like_selection.
Qed.

(** Every operation treats an annotation as it treats the selection:
    annotation by annotation, the name is kept and the range is what the
    operation makes of it when it is the selection. *)
Lemma applyOperation_annotations (op : Operation) (value value' : Value) :
  applyOperation op value = Some value' ->
  Forall2 (fun a a' =>
             fst a' = fst a
             /\ applyOperation op (withSelection (snd a) value)
                = Some (withSelection (snd a') value'))
          (annotations value) (annotations value').
Proof.
  assert (forall doc' : Node,
            Forall2 (fun a a' : string * Range =>
                       fst a' = fst a
                       /\ Some (setDocument doc' (withSelection (snd a) value))
                          = Some (withSelection (snd a')
                                    (setDocument doc' value)))
                    (annotations value) (annotations value)) as Hsame.
  { intros doc'. apply Forall2_same_length_lookup. split; [done|].
    intros i a a' Ha Ha'. rewrite Ha in Ha'. by injection Ha' as <-. }
  destruct op as [newKey p position properties|p|p node|p|p newPath newIndex
                 |p properties|p offset text|p offset text];
    cbn [applyOperation]; intros Hop.
  - unfold splitNode in *. cbn [document withSelection].
    destruct (Document_splitNode _ _ _ _ _) as [doc'|]; [|done].
    destruct (assertNode _ _) as [node|]; [|done].
    apply mapRanges_annotations in Hop; [exact Hop|].
    intros r. unfold splitNodeRange. by repeat case_match.
  - unfold mergeNode in *. cbn [document withSelection].
    destruct (Document_mergeNode _ _) as [doc'|]; [|done].
    destruct (decrement p) as [withPath|]; [|done].
    apply mapRanges_annotations in Hop; [exact Hop|].
    intros r. unfold mergeNodeRange. by repeat case_match.
  - unfold insertNode in *. cbn [document withSelection].
    destruct (Document_insertNode _ _ _) as [doc'|]; [|done].
    by apply mapRanges_annotations in Hop.
  - unfold removeNode in *. cbn [document withSelection].
    destruct (assertNode _ _) as [node|]; [|done].
    destruct (Document_removeNode _ _) as [doc'|]; [|done].
    by apply mapRanges_annotations in Hop.
  - unfold moveNode in *. cbn [document withSelection].
    destruct (Path.eqb p newPath).
    + injection Hop as <-. apply Forall2_same_length_lookup. split; [done|].
      intros i a a' Ha Ha'. rewrite Ha in Ha'. by injection Ha' as <-.
    + destruct (Document_moveNode _ _ _ _) as [doc'|]; [|done].
      unfold mapPoints in *. apply mapRanges_annotations in Hop; [exact Hop|].
      intros r. by destruct (updatePoints _ r).
  - unfold setNode in *. cbn [document withSelection].
    destruct (Document_setNode _ _ _) as [doc'|]; [|done].
    injection Hop as <-. apply Hsame.
  - unfold insertText in *. cbn [document withSelection].
    destruct (Document_insertText _ _ _ _) as [doc'|]; [|done].
    unfold mapPoints in *. apply mapRanges_annotations in Hop; [exact Hop|].
    intros r. by destruct (updatePoints _ r).
  - unfold removeText in *. cbn [document withSelection].
    destruct (assertNode _ _) as [node|]; [|done].
    destruct (Document_removeText _ _ _ _) as [doc'|]; [|done].
    unfold mapPoints in *. apply mapRanges_annotations in Hop; [exact Hop|].
    intros r. by destruct (updatePoints _ r).
Qed.

(** X21.  Every operation repairs an annotation as it repairs the
    selection, and neither drops nor adds one: the value after the
    operation has an annotation named [name] with the range [a'] exactly
    when the value before has one named [name] whose range [a] the
    operation turns into [a'] when [a] is the selection. *)
Theorem annotations_repaired_like_selection
    (op : Operation) (value value' : Value) (name : string) (a' : Range) :
  applyOperation op value = Some value' ->
  (name, a') ∈ annotations value'
  <-> exists a,
        (name, a) ∈ annotations value
        /\ applyOperation op (withSelection a value)
           = Some (withSelection a' value').
Proof.
  intros Hop. apply applyOperation_annotations in Hop. split.
  - intros Hin. apply list_elem_of_lookup_1 in Hin as [i Hi].
    destruct (Forall2_lookup_r _ _ _ _ _ Hop Hi) as ([n a] & Ha & Hn & Hmap).
    cbn [fst snd] in *. subst n. exists a. split; [|done].
    by eapply list_elem_of_lookup_2.
  - intros (a & Hin & Hmap). apply list_elem_of_lookup_1 in Hin as [i Hi].
    destruct (Forall2_lookup_l _ _ _ _ _ Hop Hi) as ([n b] & Hb & Hn & Hmap').
    cbn [fst snd] in *. subst n. rewrite Hmap in Hmap'.
    injection Hmap' as ->. by eapply list_elem_of_lookup_2.
Qed.

Lemma applyOperation_annotationsRepaired (op : Operation)
    (value value' : Value) :
  NoDup (textKeys (document value)) ->
  annotationsRepaired value ->
  applyOperation op value = Some value' ->
  annotationsRepaired value'.
Proof.
  intros Hnodup Hrep Hop [name a'] Hin.
  apply list_elem_of_lookup_1 in Hin as [i Hi].
  pose proof (applyOperation_annotations _ _ _ Hop) as Hall.
  destruct (Forall2_lookup_r _ _ _ _ _ Hall Hi) as ([n a] & Ha & _ & Hmap).
  cbn [fst snd] in *.
  apply list_elem_of_lookup_2 in Ha. apply Hrep in Ha. cbn [snd] in Ha.
  apply applyOperation_resolves in Hmap; [|done|].
  - destruct Hmap as [Hres|Hun]; [by left|by right].
  - destruct Ha as [Hres|Hun]; [by left|by right].
Qed.

(** X22.  Annotations never dangle: when every annotation has its two
    points on texts of the document, or is unset, this is so again after
    any sequence of operations that goes through on documents whose text
    keys are not repeated. *)
Theorem operations_keep_annotations_repaired
    (ops : list Operation) (value value' : Value) :
  annotationsRepaired value ->
  uniqueKeysAlong ops value = true ->
  applyOperations ops value = Some value' ->
  annotationsRepaired value'.
Proof.
  revert value. induction ops as [|op ops IH]; intros value Hrep Huniq Happly.
  - by injection Happly as <-.
  - cbn [applyOperations uniqueKeysAlong] in *.
    apply andb_true_iff in Huniq as [Hnodup Huniq].
    apply bool_decide_eq_true in Hnodup.
    destruct (applyOperation op value) as [value1|] eqn:Hop; [|done].
    apply (IH value1); [|done|done].
    by eapply applyOperation_annotationsRepaired.
Qed.

(** *** [fromJSON] *)

(** X23.  A value read from JSON has a set selection whenever the document
    has a text: a selection that is not set is put, collapsed, at offset 0
    of the first text of the document; one that is set is kept. *)
Theorem fromJSON_sets_selection
    (doc : Node) (sel : Range) (anns : list (string * Range)) (value : Value)
    (k : Key) (s : string) (p : Path.t) :
  firstText doc = Some ((k, s), p) ->
  fromJSON doc sel anns = Some value ->
  document value = doc
  /\ annotations value = anns
  /\ Range_isSet (selection value) = true
  /\ (Range_isSet sel = true -> samePlaces sel (selection value))
  /\ (Range_isSet sel = false ->
      selection value = mkRange (pointAt k p 0) (pointAt k p 0)).
Proof.
  intros Hfirst Hjson. unfold fromJSON in Hjson.
  destruct (createSelection doc sel) as [sel1|] eqn:Hsel1; [|done].
  apply createSelection_samePlaces in Hsel1.
  rewrite (samePlaces_isSet _ _ Hsel1), Hfirst in Hjson.
  destruct (Range_isSet sel) eqn:Hset.
  - injection Hjson as <-. cbn. by rewrite (samePlaces_isSet _ _ Hsel1).
  - cbn in Hjson. injection Hjson as <-. cbn. repeat split; done.
Qed.

(** *** The map of annotations *)

Lemma Map_set_elem (k : string) (r : Range) (m : list (string * Range))
    (k' : string) (r' : Range) :
  NoDup (map fst m) ->
  (k', r') ∈ Map_set k r m
  <-> (k' = k /\ r' = r) \/ (k' <> k /\ (k', r') ∈ m).
Proof.
  induction m as [|[k0 r0] m IH]; intros Hnodup.
  - cbn. rewrite list_elem_of_singleton, elem_of_nil. split.
    + intros [= -> ->]. by left.
    + intros [[-> ->]|[_ []]]. done.
  - cbn in Hnodup. apply NoDup_cons in Hnodup as [Hout Hnodup].
    cbn [Map_set fst]. destruct (decide (k0 = k)) as [->|Hne].
    + rewrite !elem_of_cons. split.
      * intros [[= -> ->]|Hin]; [by left|]. right. split; [|by right].
        intros ->. apply Hout. by apply (list_elem_of_fmap_2 fst) in Hin.
      * intros [[-> ->]|[Hk [[= ? ?]|Hin]]]; [by left|done|by right].
    + rewrite !elem_of_cons, (IH Hnodup). split.
      * intros [[= -> ->]|[[-> ->]|[Hk Hin]]]; auto.
      * intros [[-> ->]|[Hk [[= -> ->]|Hin]]]; auto.
Qed.

Lemma Map_set_keys (k : string) (r : Range) (m : list (string * Range)) :
  NoDup (map fst m) -> NoDup (map fst (Map_set k r m)).
Proof.
  induction m as [|[k0 r0] m IH]; intros Hnodup.
  - cbn. apply NoDup_singleton.
  - cbn in Hnodup. pose proof Hnodup as Hnodup'.
    apply NoDup_cons in Hnodup as [Hout Hnodup].
    cbn [Map_set fst]. destruct (decide (k0 = k)) as [->|Hne]; [done|].
    cbn. apply NoDup_cons. split; [|by apply IH].
    intros Hin. apply list_elem_of_fmap in Hin as ([k1 r1] & -> & Hin).
    apply Map_set_elem in Hin as [[? _]|[_ Hin]]; [done| |done].
    apply Hout. by apply (list_elem_of_fmap_2 fst) in Hin.
Qed.

(** X24.  [addAnnotation] stores the annotation under its key with the key
    and offset of its points, in the place of an annotation that had the
    key, and leaves the annotations of the other keys, the selection and
    the document as they are; no key is there twice. *)
Theorem addAnnotation_stores
    (key : string) (annotation : Range) (value value' : Value) :
  NoDup (map fst (annotations value)) ->
  addAnnotation key annotation value = Some value' ->
  document value' = document value
  /\ selection value' = selection value
  /\ NoDup (map fst (annotations value'))
  /\ (exists stored, samePlaces annotation stored
        /\ forall k r,
            (k, r) ∈ annotations value'
            <-> (k = key /\ r = stored)
                \/ (k <> key /\ (k, r) ∈ annotations value)).
Proof.
  intros Hnodup Hadd. unfold addAnnotation in Hadd.
  destruct (updatePoints (resolvePoint (document value)) annotation)
    as [stored|] eqn:Hstored; [|done].
  injection Hadd as <-. cbn [document selection annotations].
  split; [done|]. split; [done|]. split; [by apply Map_set_keys|].
  exists stored. split.
  - by apply (createSelection_samePlaces (document value)).
  - intros k r. by apply Map_set_elem.
Qed.

(** X25.  [removeAnnotation] undoes [addAnnotation]: taking out an
    annotation that was added under a key no annotation had gives back the
    value. *)
Theorem removeAnnotation_undoes_addAnnotation
    (key : string) (annotation : Range) (value value' : Value) :
  key ∉ map fst (annotations value) ->
  addAnnotation key annotation value = Some value' ->
  removeAnnotation key value' = value.
Proof.
  intros Hfresh Hadd. unfold addAnnotation in Hadd.
  destruct (updatePoints (resolvePoint (document value)) annotation)
    as [stored|]; [|done].
  injection Hadd as <-. unfold removeAnnotation.
  cbn [document selection annotations]. destruct value as [doc sel anns].
  cbn [document selection annotations] in *. f_equal.
  unfold Map_delete. induction anns as [|[k0 r0] anns IH].
  - cbn [Map_set]. rewrite filter_cons_False by (cbn; auto). done.
  - cbn in Hfresh. cbn [Map_set fst].
    destruct (decide (k0 = key)) as [->|Hne].
    + exfalso. apply Hfresh. apply list_elem_of_here.
    + rewrite filter_cons_True by done. f_equal. apply IH.
      intros Hin. apply Hfresh. by apply list_elem_of_further.
Qed.

(** *** Concrete instances *)

Lemma sampleValue_inBounds (point : Range -> Point) :
  point = anchor \/ point = focus ->
  inBounds sampleDocument (point (selection sampleValue)).
Proof.
  intros Hpoint. exists "a"%string, "word"%string.
  split; [by destruct Hpoint as [-> | ->]|]. split.
  - change (texts sampleDocument)
      with [("a", "word"); ("b", "more"); ("c", "last")]%string.
    apply list_elem_of_here.
  - destruct Hpoint as [-> | ->]; by vm_compute.
Defined.

Lemma annotatedValue_repaired : annotationsRepaired annotatedValue.
Proof.
  intros a Ha.
  change (annotations annotatedValue)
    with [("comment"%string,
           mkRange (pointAt "b" [0; 1]%nat 0) (pointAt "c" [1; 0]%nat 2));
          ("draft"%string, mkRange unsetPoint unsetPoint)] in Ha.
  apply elem_of_cons in Ha as [->|Ha].
  - left. split; [exists "b"%string|exists "c"%string];
      (split; [reflexivity|]);
      change (textKeys (document annotatedValue)) with ["a"; "b"; "c"]%string;
      rewrite !elem_of_cons; auto.
  - apply list_elem_of_singleton in Ha as ->. by right.
Defined.

Lemma insertNode_invalidates_paths_witness :
  samePlace (anchor (selection sampleValue))
            (anchor (selection afterInsertNode))
  /\ pathFresh (document afterInsertNode) (anchor (selection afterInsertNode)).
Proof.
  apply (insertNode_invalidates_paths [2]%nat sampleBlock sampleValue
           afterInsertNode anchor); [reflexivity|reflexivity|by left].
Defined.


Lemma insertText_shifts_points_witness :
  Legacy.offset (anchor (selection afterInsertText)) = Some 5
  /\ Legacy.offset (focus (selection afterInsertText)) = Some 1.
Proof.
  destruct (insertText_shifts_points [0; 0]%nat 2 "xy" sampleValue
              afterInsertText anchor) as (_ & Hshift & _);
    [reflexivity|reflexivity|by left|].
  split; [|reflexivity]. apply Hshift; [reflexivity|by vm_compute].
Defined.

Lemma applyOperation_leaves_unset_selection_witness :
  selection afterUnsetRemoveNode = mkRange unsetPoint unsetPoint.
Proof.
  apply (applyOperation_leaves_unset_selection (RemoveNode [0; 0]%nat)
           unsetValue afterUnsetRemoveNode); reflexivity.
Defined.

Lemma removeNode_undoes_insertNode_witness :
  document afterInsertRemoveNode = document sampleValue
  /\ samePlaces (selection sampleValue) (selection afterInsertRemoveNode).
Proof.
  apply (removeNode_undoes_insertNode [2]%nat sampleBlock sampleValue
           afterInsertNode afterInsertRemoveNode); reflexivity.
Defined.

Lemma mergeNode_undoes_splitNode_witness :
  document afterSplitMergeNode = document sampleValue
  /\ key (anchor (selection afterSplitMergeNode))
     = key (anchor (selection sampleValue))
  /\ toNumber (offset (anchor (selection afterSplitMergeNode)))
     = toNumber (offset (anchor (selection sampleValue))).
Proof.
  apply (mergeNode_undoes_splitNode "n" [0%nat] 0 2 None sampleValue
           afterSplitNode afterSplitMergeNode "a" "word" anchor);
    first [ reflexivity | by vm_compute | exact sampleDocument_unique
          | by left | unfold backwardAfter; cbn; lia ].
Defined.

Lemma removeText_undoes_insertText_witness :
  document afterInsertRemoveText = document sampleValue
  /\ key (anchor (selection afterInsertRemoveText))
     = key (anchor (selection sampleValue))
  /\ toNumber (Legacy.offset (anchor (selection afterInsertRemoveText)))
     = toNumber (Legacy.offset (anchor (selection sampleValue))).
Proof.
  apply (removeText_undoes_insertText [0; 0]%nat 2 "xy" sampleValue
           afterInsertText afterInsertRemoveText "a" "word" anchor);
    first [ reflexivity | by vm_compute | by left | by split ].
Defined.

Lemma removeText_keeps_offsets_in_bounds_witness :
  inBounds (document afterRemoveText) (anchor (selection afterRemoveText)).
Proof.
  apply (removeText_keeps_offsets_in_bounds [0; 0]%nat 1 "or" sampleValue
           afterRemoveText anchor);
    first [ exact sampleDocument_unique | reflexivity | by vm_compute
          | by left | apply sampleValue_inBounds; by left ].
Defined.

Lemma insertText_keeps_offsets_in_bounds_witness :
  inBounds (document afterInsertText) (anchor (selection afterInsertText)).
Proof.
  apply (insertText_keeps_offsets_in_bounds [0; 0]%nat 2 "xy" sampleValue
           afterInsertText "a" "word" anchor);
    first [ exact sampleDocument_unique | reflexivity | by left
          | apply sampleValue_inBounds; by left ].
Defined.

Lemma splitNode_keeps_offsets_in_bounds_witness :
  inBounds (document afterSplitNode) (anchor (selection afterSplitNode)).
Proof.
  apply (splitNode_keeps_offsets_in_bounds "n" [0; 0]%nat 2 None sampleValue
           afterSplitNode "a" "word" anchor);
    first [ exact sampleDocument_unique | reflexivity | by vm_compute
          | by left | apply sampleValue_inBounds; by left
          | unfold backwardAfter; cbn; lia ].
Defined.

Lemma mergeNode_keeps_offsets_in_bounds_witness :
  inBounds (document afterMergeNode) (anchor (selection afterMergeNode)).
Proof.
  apply (mergeNode_keeps_offsets_in_bounds [0; 1]%nat sampleForward
           afterMergeNode anchor);
    first [ exact sampleDocument_unique | reflexivity | by left | idtac ].
  exists "b"%string, "more"%string. split; [reflexivity|]. split.
  - change (texts (document sampleForward))
      with [("a", "word"); ("b", "more"); ("c", "last")]%string.
    rewrite !elem_of_cons. auto.
  - by vm_compute.
Defined.

Lemma removeNode_keeps_offsets_in_bounds_witness :
  inBounds (document afterRemoveNode) (anchor (selection afterRemoveNode))
  \/ selection afterRemoveNode = mkRange unsetPoint unsetPoint.
Proof.
  apply (removeNode_keeps_offsets_in_bounds [0; 0]%nat sampleValue
           afterRemoveNode anchor);
    first [ exact sampleDocument_unique | reflexivity | by left
          | apply sampleValue_inBounds; by left ].
Defined.

Lemma annotations_repaired_like_selection_witness :
  ("comment"%string,
   mkRange (pointAt "a" [0; 0]%nat 4) (pointAt "c" [1; 0]%nat 2))
    ∈ annotations afterAnnotatedMerge
  <-> exists a,
        ("comment"%string, a) ∈ annotations annotatedValue
        /\ applyOperation (MergeNode [0; 1]%nat) (withSelection a annotatedValue)
           = Some (withSelection
                     (mkRange (pointAt "a" [0; 0]%nat 4)
                              (pointAt "c" [1; 0]%nat 2))
                     afterAnnotatedMerge).
Proof.
  apply (annotations_repaired_like_selection (MergeNode [0; 1]%nat)
           annotatedValue afterAnnotatedMerge). reflexivity.
Defined.

Lemma operations_keep_annotations_repaired_witness :
  annotationsRepaired afterAnnotatedOperations.
Proof.
  apply (operations_keep_annotations_repaired sampleOperations annotatedValue);
    [exact annotatedValue_repaired|by vm_compute|reflexivity].
Defined.

Lemma fromJSON_sets_selection_witness :
  document afterFromJSON = sampleDocument
  /\ annotations afterFromJSON = []
  /\ Range_isSet (selection afterFromJSON) = true
  /\ (Range_isSet (mkRange unsetPoint unsetPoint) = true ->
      samePlaces (mkRange unsetPoint unsetPoint) (selection afterFromJSON))
  /\ (Range_isSet (mkRange unsetPoint unsetPoint) = false ->
      selection afterFromJSON
      = mkRange (pointAt "a" [0; 0]%nat 0) (pointAt "a" [0; 0]%nat 0)).
Proof.
  apply (fromJSON_sets_selection sampleDocument
           (mkRange unsetPoint unsetPoint) [] afterFromJSON "a" "word"
           [0; 0]%nat); reflexivity.
Defined.

Lemma annotatedValue_unique : NoDup (map fst (annotations annotatedValue)).
Proof. apply (bool_decide_unpack _). by vm_compute. Defined.

Lemma addAnnotation_stores_witness :
  document afterAddAnnotation = document annotatedValue
  /\ selection afterAddAnnotation = selection annotatedValue
  /\ NoDup (map fst (annotations afterAddAnnotation))
  /\ (exists stored,
        samePlaces (mkRange (mkPoint (Some "c"%string) None (Some 1))
                            (mkPoint (Some "c"%string) None (Some 3)))
                   stored
        /\ forall k r,
            (k, r) ∈ annotations afterAddAnnotation
            <-> (k = "note"%string /\ r = stored)
                \/ (k <> "note"%string /\ (k, r) ∈ annotations annotatedValue)).
Proof.
  apply (addAnnotation_stores "note"
           (mkRange (mkPoint (Some "c"%string) None (Some 1))
                    (mkPoint (Some "c"%string) None (Some 3)))
           annotatedValue afterAddAnnotation);
    [exact annotatedValue_unique|reflexivity].
Defined.

Lemma removeAnnotation_undoes_addAnnotation_witness :
  removeAnnotation "note" afterAddAnnotation = annotatedValue.
Proof.
  apply (removeAnnotation_undoes_addAnnotation "note"
           (mkRange (mkPoint (Some "c"%string) None (Some 1))
                    (mkPoint (Some "c"%string) None (Some 3)))
           annotatedValue afterAddAnnotation); [|reflexivity].
  change (map fst (annotations annotatedValue))
    with ["comment"; "draft"]%string.
  rewrite !elem_of_cons, elem_of_nil. intros [?|[?|?]]; done.
Defined.

End LegacyFacts.
